(** * Source/sampler wiring of [sbs.db.sources]

    A shallow embedding of the connection-topology code of
    [sbs/db/sources.py]: offset bookkeeping, parameter deduplication,
    receptor classification by weight sign, the NEST build sequences of the
    Poisson and sinus-Poisson source configurations, the partitioning of
    samplers by configuration class, parameter verification on construction
    and the excitatory/inhibitory slicing of noise populations.

    Conventions.
    - Python floats are embedded as rationals ([Q]).  Every finite binary64
      value is a rational and [<], [<=], [==] on finite floats agree with
      [Qlt], [Qle], [Qeq]; NaN and the infinities are outside the model.
      Where a product is rounded to an integer it is the binary64 product
      ([fmul]).
    - Lengths and indices are [nat]; numpy's 64-bit wrap-around cannot be
      reached by the length of an array held in memory.
    - A Python exception is a value of [exn]; a computation that may raise
      returns [res A]; a computation that also talks to NEST lives in the
      state-and-exception monad [M], whose state survives a raise. *)

From Stdlib Require Import String.
From Stdlib Require Import List Arith ZArith QArith Qround Qabs Qpower Lia Lqa.
From Stdlib Require Import Bool.
From Stdlib Require Import Permutation.
Import ListNotations.
Close Scope Q_scope.
Set Warnings "-register-all".
Open Scope string_scope.
Open Scope list_scope.
Open Scope nat_scope.

(** ** Exceptions and results *)

Inductive exn : Type :=
| ValueError (msg : string)
| IndexError
| AssertionError
| NotImplementedError
| AttributeError
| NESTError (msg : string).

Inductive res (A : Type) : Type :=
| Ok (a : A)
| Raise (e : exn).
Arguments Ok {A} a.
Arguments Raise {A} e.

Definition res_bind {A B} (r : res A) (k : A -> res B) : res B :=
  match r with
  | Ok a => k a
  | Raise e => Raise e
  end.

(** A raise that stems from checking the caller's configuration, as opposed
    to one coming back from the simulator. *)
Definition is_validation_error (e : exn) : bool :=
  match e with
  | ValueError _ | AssertionError => true
  | _ => false
  end.

(** ** Float comparisons against literals *)

Definition float := Q.

Definition gt0 (w : float) : bool := negb (Qle_bool w 0).   (* w > 0.  *)
Definition lt0 (w : float) : bool := negb (Qle_bool 0 w).   (* w < 0   *)
Definition ge0 (w : float) : bool := Qle_bool 0 w.          (* w >= 0  *)

Lemma gt0_spec w : gt0 w = true <-> (0 < w)%Q.
Proof.
  unfold gt0. rewrite negb_true_iff, <- not_true_iff_false, Qle_bool_iff.
  split; intro H; [apply Qnot_le_lt | apply Qlt_not_le]; exact H.
Qed.

Lemma lt0_spec w : lt0 w = true <-> (w < 0)%Q.
Proof.
  unfold lt0. rewrite negb_true_iff, <- not_true_iff_false, Qle_bool_iff.
  split; intro H; [apply Qnot_le_lt | apply Qlt_not_le]; exact H.
Qed.

Lemma ge0_spec w : ge0 w = true <-> (0 <= w)%Q.
Proof. unfold ge0. apply Qle_bool_iff. Qed.

Lemma gt0_false_spec w : gt0 w = false <-> (w <= 0)%Q.
Proof.
  rewrite <- not_true_iff_false, gt0_spec. split.
  - apply Qnot_lt_le.
  - intros H1 H2. exact (Qle_not_lt _ _ H1 H2).
Qed.

Lemma lt0_false_spec w : lt0 w = false <-> (0 <= w)%Q.
Proof.
  rewrite <- not_true_iff_false, lt0_spec. split.
  - apply Qnot_lt_le.
  - intros H1 H2. exact (Qle_not_lt _ _ H1 H2).
Qed.

(** ** numpy helpers on one-dimensional arrays *)

(** [np.hstack] of a list of one-dimensional arrays; numpy refuses an empty
    list of arrays. *)
Definition hstack {A} (arrays : list (list A)) : res (list A) :=
  match arrays with
  | [] => Raise (ValueError "need at least one array to concatenate")
  | _ => Ok (concat arrays)
  end.

(** [np.cumsum]. *)
Fixpoint cumsum_from (acc : nat) (l : list nat) : list nat :=
  match l with
  | [] => []
  | n :: t => (acc + n) :: cumsum_from (acc + n) t
  end.

Definition cumsum (l : list nat) : list nat := cumsum_from 0 l.

(** [np.where(mask)[0]]: the indices at which a boolean array is true. *)
Fixpoint where_from (j : nat) (mask : list bool) : list nat :=
  match mask with
  | [] => []
  | b :: t => if b then j :: where_from (S j) t else where_from (S j) t
  end.

Definition np_where (mask : list bool) : list nat := where_from 0 mask.

(** [a[0]] on a Python sequence. *)
Definition first_item {A} (l : list A) : res A :=
  match l with
  | [] => Raise IndexError
  | x :: _ => Ok x
  end.

(** [a[i]] for a non-negative index. *)
Definition getitem {A} (l : list A) (i : nat) : res A :=
  match nth_error l i with
  | Some x => Ok x
  | None => Raise IndexError
  end.

(** [a[idx]] for an integer index array (numpy fancy indexing). *)
Fixpoint take {A} (l : list A) (idx : list nat) : res (list A) :=
  match idx with
  | [] => Ok []
  | i :: rest =>
      res_bind (getitem l i) (fun x =>
      res_bind (take l rest) (fun xs => Ok (x :: xs)))
  end.

(** ** Offset index

    The three NEST build functions carry the same local function

      [offset_per_sampler = np.cumsum(num_sources_per_sampler)]
      [def idx_parrot_to_sampler(idx):]
      [    return np.where(idx < offset_per_sampler)[0][0]]                  *)

Definition idx_parrot_to_sampler (offset_per_sampler : list nat) (idx : nat)
  : res nat :=
  first_item (np_where (map (fun o => idx <? o) offset_per_sampler)).

(** Sum of the first [j] counts. *)
Definition prefix_sum (counts : list nat) (j : nat) : nat :=
  list_sum (firstn j counts).

Lemma prefix_sum_mono counts : forall a b,
  a <= b -> prefix_sum counts a <= prefix_sum counts b.
Proof.
  unfold prefix_sum. induction counts as [|n t IH]; intros a b Hab.
  - now rewrite !firstn_nil.
  - destruct a as [|a]; [simpl; lia|].
    destruct b as [|b]; [lia|].
    simpl. specialize (IH a b). lia.
Qed.

Lemma prefix_sum_all counts j :
  length counts <= j -> prefix_sum counts j = list_sum counts.
Proof. intro H. unfold prefix_sum. now rewrite firstn_all2. Qed.

Lemma idx_parrot_to_sampler_from counts : forall acc j i,
  acc <= i < acc + list_sum counts ->
  exists k,
    first_item (where_from j (map (fun o => i <? o) (cumsum_from acc counts)))
      = Ok (j + k) /\
    k < length counts /\
    acc + prefix_sum counts k <= i < acc + prefix_sum counts (S k).
Proof.
  induction counts as [|n t IH]; intros acc j i Hi.
  - simpl in Hi. lia.
  - simpl. destruct (i <? acc + n) eqn:E.
    + apply Nat.ltb_lt in E. exists 0. simpl.
      rewrite Nat.add_0_r. unfold prefix_sum. simpl. repeat split; lia.
    + apply Nat.ltb_ge in E.
      destruct (IH (acc + n) (S j) i) as (k & Hk & Hlen & Hlo & Hhi).
      { simpl in Hi. lia. }
      exists (S k). rewrite Hk. unfold prefix_sum in *. simpl in *.
      repeat split; try lia. f_equal. lia.
Qed.

Lemma idx_parrot_to_sampler_out_of_range counts : forall acc j i,
  acc + list_sum counts <= i ->
  where_from j (map (fun o => i <? o) (cumsum_from acc counts)) = [].
Proof.
  induction counts as [|n t IH]; intros acc j i Hi; simpl; [reflexivity|].
  simpl in Hi. destruct (i <? acc + n) eqn:E.
  - apply Nat.ltb_lt in E. lia.
  - apply IH. lia.
Qed.

Lemma cumsum_from_length counts : forall acc,
  length (cumsum_from acc counts) = length counts.
Proof. induction counts; intros; simpl; auto. Qed.

(** C2: for every vector of per-target source counts and every flat slot
    [i] below their sum, [idx_parrot_to_sampler] over the cumulative-sum
    offsets returns the one target [j] whose half-open range
    [sum(n_0..n_{j-1}) <= i < sum(n_0..n_j)] holds the slot; counts
    [2, 1, 3] give offsets [2, 3, 6] and slot 4 resolves to target 2. *)
Theorem C2_slot_to_target (counts : list nat) (i : nat)
    (Hi : i < list_sum counts) :
  (exists j,
      idx_parrot_to_sampler (cumsum counts) i = Ok j /\
      j < length counts /\
      prefix_sum counts j <= i < prefix_sum counts (S j) /\
      (forall j', prefix_sum counts j' <= i < prefix_sum counts (S j') ->
                  j' = j)) /\
  cumsum [2; 1; 3] = [2; 3; 6] /\
  idx_parrot_to_sampler (cumsum [2; 1; 3]) 4 = Ok 2.
Proof.
  split; [|split; reflexivity].
  destruct (idx_parrot_to_sampler_from counts 0 0 i) as (k & Hk & Hlen & Hr).
  { lia. }
  exists k. simpl in Hk, Hr. repeat split; try assumption; try lia.
  intros j' Hj'.
  destruct (Nat.lt_trichotomy j' k) as [Hlt | [Heq | Hgt]]; [|assumption|].
  - pose proof (prefix_sum_mono counts (S j') k ltac:(lia)). lia.
  - pose proof (prefix_sum_mono counts (S k) j' ltac:(lia)). lia.
Qed.

Lemma C2_slot_to_target_witness :
  4 < list_sum [2; 1; 3] /\
  idx_parrot_to_sampler (cumsum [2; 1; 3]) 4 = Ok 2.
Proof.
  split; [simpl; lia|].
  exact (proj2 (proj2 (C2_slot_to_target [2; 1; 3] 4 ltac:(simpl; lia)))).
Defined.

(** ** Receptor classification by weight sign *)

Inductive receptor : Type := inhibitory | excitatory.

(** [a[mask]] for a boolean index array. *)
Fixpoint masked {A} (mask : list bool) (l : list A) : list A :=
  match mask, l with
  | b :: mt, x :: t => if b then x :: masked mt t else masked mt t
  | _, _ => []
  end.

(** A PyNN projection built from a [FromListConnector]: the presynaptic
    source population (by handle), the postsynaptic population (by position
    in the list of populations, or the one population), the receptor type
    and the connection rows [(pre, post, weight)]. *)
Record Projection : Type := mkProjection {
  proj_sources : nat;
  proj_target : nat;
  proj_receptor : receptor;
  proj_conn_list : list (nat * nat * float)
}.

(** The dictionary of projections keyed by receptor type. *)
Record projections : Type := mkProjections {
  proj_inh : list Projection;
  proj_exc : list Projection
}.

(** What the helpers are handed as [population]: one PyNN population or a
    list of populations, each with its [conductance_based] flag. *)
Inductive population : Type :=
| BasePopulation (conductance_based : bool) (size : nat)
| PopulationList (conductance_based_of : list bool).

(** [population[j:j+1]] resp. [population[j]], reduced to the flag the
    helpers read from it. *)
Definition pop_conductance_based (p : population) (j : nat) : res bool :=
  match p with
  | BasePopulation cb _ => Ok cb
  | PopulationList l => getitem l j
  end.

Definition trans (conductance_based : bool) (w : float) : float :=
  if conductance_based then Qabs w else w.

(** *** [connect_one_to_one]

    [receptor_types = ["inhibitory", "excitatory"]] is enumerated, so index
    [0] (false) is the inhibitory pass and index [1] (true) the excitatory
    one; [is_exc = np.array(s_weights > 0., dtype=int)]. *)
Definition one_to_one_conn_list (i_r : bool) (j : nat) (cb : bool)
    (s_weights : list float) : list (nat * nat * float) :=
  let is_exc := map gt0 s_weights in
  let idx := map (Bool.eqb i_r) is_exc in
  map (fun iw => (fst iw, j, trans cb (snd iw)))
      (combine (np_where idx) (masked idx s_weights)).

(** The loop over the samplers.  Of its steps only the lookup
    [population[j]] in a list of populations is given a way to fail; the
    slice [population[j:j+1]] and the PyNN constructors [sim.Projection]
    and [sim.FromListConnector] are recorded with their arguments and
    taken to accept them. *)
Fixpoint connect_one_to_one_from (j : nat) (population : population)
    (pairs : list (list float * nat)) (acc : projections) : res projections :=
  match pairs with
  | [] => Ok acc
  | (s_weights, s_sources) :: rest =>
      res_bind (pop_conductance_based population j) (fun cb =>
      let p_inh := mkProjection s_sources j inhibitory
                     (one_to_one_conn_list false j cb s_weights) in
      let p_exc := mkProjection s_sources j excitatory
                     (one_to_one_conn_list true j cb s_weights) in
      connect_one_to_one_from (S j) population rest
        (mkProjections (proj_inh acc ++ [p_inh]) (proj_exc acc ++ [p_exc])))
  end.

Definition connect_one_to_one (sources : list nat) (population : population)
    (weights : list (list float)) : res projections :=
  connect_one_to_one_from 0 population (combine weights sources)
    (mkProjections [] []).

(** *** [FixedSpikeTrainConfiguration.connect_sources_regular]

    [connection_types = ["inh", "exc"]] is zipped with the two list
    comprehensions, the first filtering [weight < 0], the second
    [weight >= 0]. *)
Definition regular_rows_inh (cb : bool) (conn_list : list (nat * nat * float))
  : list (nat * nat * float) :=
  map (fun r => (fst (fst r), snd (fst r), trans cb (snd r)))
      (filter (fun r => lt0 (snd r)) conn_list).

Definition regular_rows_exc (cb : bool) (conn_list : list (nat * nat * float))
  : list (nat * nat * float) :=
  map (fun r => (fst (fst r), snd (fst r), trans cb (snd r)))
      (filter (fun r => ge0 (snd r)) conn_list).

Definition regular_rows_inh_at (j : nat) (cb : bool)
    (conn_list : list (nat * nat * float)) : list (nat * nat * float) :=
  map (fun r => (fst (fst r), 0, trans cb (snd r)))
      (filter (fun r => lt0 (snd r) && (snd (fst r) =? j)) conn_list).

Definition regular_rows_exc_at (j : nat) (cb : bool)
    (conn_list : list (nat * nat * float)) : list (nat * nat * float) :=
  map (fun r => (fst (fst r), 0, trans cb (snd r)))
      (filter (fun r => ge0 (snd r) && (snd (fst r) =? j)) conn_list).

Fixpoint connect_sources_regular_list (sources : nat) (j : nat)
    (pops : list bool) (conn_list : list (nat * nat * float))
    (acc : projections) : projections :=
  match pops with
  | [] => acc
  | cb :: rest =>
      connect_sources_regular_list sources (S j) rest conn_list
        (mkProjections
           (proj_inh acc ++ [mkProjection sources j inhibitory
                               (regular_rows_inh_at j cb conn_list)])
           (proj_exc acc ++ [mkProjection sources j excitatory
                               (regular_rows_exc_at j cb conn_list)]))
  end.

Definition connect_sources_regular (sources : nat) (population : population)
    (conn_list : list (nat * nat * float)) : projections :=
  match population with
  | BasePopulation cb _ =>
      mkProjections
        [mkProjection sources 0 inhibitory (regular_rows_inh cb conn_list)]
        [mkProjection sources 0 excitatory (regular_rows_exc cb conn_list)]
  | PopulationList pops =>
      connect_sources_regular_list sources 0 pops conn_list
        (mkProjections [] [])
  end.

(** *** [get_distribution_parameters] of the Poisson and fixed-spike-train
    configurations: [is_exc = self.weights > 0.],
    [is_inh = np.logical_not(is_exc)]. *)
Record distribution_parameters : Type := mkDistribution {
  rates_exc : list float;
  rates_inh : list float;
  weights_exc : list float;
  weights_inh : list float
}.

Definition get_distribution_parameters (rates weights : list float)
  : distribution_parameters :=
  let is_exc := map gt0 weights in
  let is_inh := map negb is_exc in
  mkDistribution (masked is_exc rates) (masked is_inh rates)
                 (masked is_exc weights) (masked is_inh weights).

(** The receptor a weight is given by each of the two wiring helpers. *)
Definition receptor_one_to_one (w : float) : receptor :=
  if gt0 w then excitatory else inhibitory.

Definition receptor_regular (w : float) : option receptor :=
  if lt0 w then Some inhibitory
  else if ge0 w then Some excitatory
  else None.

Lemma where_masked_from {A} (mask : list bool) : forall (l : list A) j i x,
  length mask = length l ->
  In (i, x) (combine (where_from j mask) (masked mask l)) <->
  (j <= i /\ nth_error l (i - j) = Some x /\ nth_error mask (i - j) = Some true).
Proof.
  induction mask as [|b mt IH]; intros l j i x Hlen.
  - destruct l; [|discriminate]. simpl. split; [tauto|].
    intros (_ & H & _). destruct (i - j); discriminate.
  - destruct l as [|y t]; [discriminate|]. simpl in Hlen.
    injection Hlen as Hlen.
    simpl. destruct b; simpl.
    + split.
      * intros [Heq | Hin].
        -- injection Heq as -> ->. rewrite Nat.sub_diag. simpl.
           repeat split; auto.
        -- apply IH in Hin; [|exact Hlen]. destruct Hin as (Hle & Hx & Hm).
           replace (i - j) with (S (i - S j)) by lia. simpl.
           repeat split; auto; lia.
      * intros (Hle & Hx & Hm).
        destruct (Nat.eq_dec i j) as [->|Hne].
        -- rewrite Nat.sub_diag in Hx. simpl in Hx. injection Hx as ->.
           now left.
        -- right. apply IH; [exact Hlen|].
           replace (i - j) with (S (i - S j)) in Hx, Hm by lia.
           simpl in Hx, Hm. repeat split; auto; lia.
    + split.
      * intros Hin. apply IH in Hin; [|exact Hlen].
        destruct Hin as (Hle & Hx & Hm).
        replace (i - j) with (S (i - S j)) by lia. simpl.
        repeat split; auto; lia.
      * intros (Hle & Hx & Hm).
        destruct (Nat.eq_dec i j) as [->|Hne].
        -- rewrite Nat.sub_diag in Hm. simpl in Hm. discriminate.
        -- apply IH; [exact Hlen|].
           replace (i - j) with (S (i - S j)) in Hx, Hm by lia.
           simpl in Hx, Hm. repeat split; auto; lia.
Qed.

(** [connect_one_to_one] files source [i] of sampler [j] under the receptor
    type [receptor_one_to_one] gives its weight: excitatory for [w > 0],
    inhibitory for [w <= 0]. *)
Lemma one_to_one_conn_list_spec (i_r : bool) j cb s_weights i j' w' :
  In (i, j', w') (one_to_one_conn_list i_r j cb s_weights) <->
  exists w, nth_error s_weights i = Some w /\ j' = j /\ w' = trans cb w /\
            gt0 w = i_r.
Proof.
  unfold one_to_one_conn_list, np_where. rewrite in_map_iff. split.
  - intros ([i0 w] & Heq & Hin). simpl in Heq.
    injection Heq as Hi Hj Hw. subst i0 j' w'.
    apply where_masked_from in Hin; [|now rewrite !length_map].
    destruct Hin as (_ & Hx & Hm). rewrite Nat.sub_0_r in Hx, Hm.
    exists w. repeat split; auto.
    rewrite !nth_error_map, Hx in Hm. simpl in Hm. injection Hm as Hm.
    apply Bool.eqb_prop in Hm. now symmetry.
  - intros (w & Hx & -> & -> & Hr). exists (i, w). split; [reflexivity|].
    apply where_masked_from; [now rewrite !length_map|].
    rewrite Nat.sub_0_r. repeat split; auto; [lia|].
    rewrite !nth_error_map, Hx. simpl. rewrite Hr.
    now rewrite Bool.eqb_reflx.
Qed.

Lemma regular_rows_exc_spec cb conn_list pre post w' :
  In (pre, post, w') (regular_rows_exc cb conn_list) <->
  exists w, In (pre, post, w) conn_list /\ w' = trans cb w /\ (0 <= w)%Q.
Proof.
  unfold regular_rows_exc. rewrite in_map_iff. split.
  - intros ([[p q] w] & Heq & Hin). simpl in Heq.
    injection Heq as Hp Hq Hw. subst p q w'.
    apply filter_In in Hin. destruct Hin as (Hin & Hge). simpl in Hge.
    exists w. repeat split; auto. now apply ge0_spec.
  - intros (w & Hin & -> & Hge). exists (pre, post, w). split; [reflexivity|].
    apply filter_In. split; [exact Hin|]. simpl. now apply ge0_spec.
Qed.

Lemma regular_rows_inh_spec cb conn_list pre post w' :
  In (pre, post, w') (regular_rows_inh cb conn_list) <->
  exists w, In (pre, post, w) conn_list /\ w' = trans cb w /\ (w < 0)%Q.
Proof.
  unfold regular_rows_inh. rewrite in_map_iff. split.
  - intros ([[p q] w] & Heq & Hin). simpl in Heq.
    injection Heq as Hp Hq Hw. subst p q w'.
    apply filter_In in Hin. destruct Hin as (Hin & Hlt). simpl in Hlt.
    exists w. repeat split; auto. now apply lt0_spec.
  - intros (w & Hin & -> & Hlt). exists (pre, post, w). split; [reflexivity|].
    apply filter_In. split; [exact Hin|]. simpl. now apply lt0_spec.
Qed.

(** The two helpers give a weight the same receptor type exactly when the
    weight is not zero. *)
Lemma receptor_paths_agree_iff (w : float) :
  receptor_regular w = Some (receptor_one_to_one w) <-> ~ (w == 0)%Q.
Proof.
  unfold receptor_regular, receptor_one_to_one.
  destruct (Q_dec w 0) as [[Hlt | Hgt] | Heq].
  - assert (El : lt0 w = true) by now apply lt0_spec.
    assert (Eg : gt0 w = false) by (apply gt0_false_spec; lra).
    rewrite El, Eg. split; [intros _ Hz; lra | reflexivity].
  - assert (El : lt0 w = false) by (apply lt0_false_spec; lra).
    assert (Ee : ge0 w = true) by (apply ge0_spec; lra).
    assert (Eg : gt0 w = true) by now apply gt0_spec.
    rewrite El, Ee, Eg. split; [intros _ Hz; lra | reflexivity].
  - assert (El : lt0 w = false) by (apply lt0_false_spec; lra).
    assert (Ee : ge0 w = true) by (apply ge0_spec; lra).
    assert (Eg : gt0 w = false) by (apply gt0_false_spec; lra).
    rewrite El, Ee, Eg. split; [discriminate | intro H; contradiction].
Qed.

(** C1: the receptor of a wiring edge follows [weight > 0 -> excitatory],
    [weight <= 0 -> inhibitory] on every path.  Evaluated at a single edge of
    weight exactly [0]: [connect_sources_regular] files it under the
    excitatory projection, while [connect_one_to_one] files the same weight
    under the inhibitory one and [get_distribution_parameters] of the very
    configuration counts it as inhibitory. *)
Theorem C1_zero_weight_receptor_diverges :
  connect_sources_regular 7 (BasePopulation false 1) [(0, 0, 0%Q)]
    = mkProjections [mkProjection 7 0 inhibitory []]
                    [mkProjection 7 0 excitatory [(0, 0, 0%Q)]] /\
  connect_sources_regular 7 (PopulationList [false]) [(0, 0, 0%Q)]
    = mkProjections [mkProjection 7 0 inhibitory []]
                    [mkProjection 7 0 excitatory [(0, 0, 0%Q)]] /\
  connect_one_to_one [7] (BasePopulation false 1) [[0%Q]]
    = Ok (mkProjections [mkProjection 7 0 inhibitory [(0, 0, 0%Q)]]
                        [mkProjection 7 0 excitatory []]) /\
  weights_inh (get_distribution_parameters [1%Q] [0%Q]) = [0%Q] /\
  weights_exc (get_distribution_parameters [1%Q] [0%Q]) = [].
Proof. repeat split; reflexivity. Qed.

(** ** Parameter deduplication *)

(** *** [np.unique(rates, return_inverse=True)]

    numpy sorts the array with a stable argsort, marks the first element of
    every run of equal values, keeps the marked values and scatters the
    running count of marks back through the sorting permutation:

      [perm = ar.argsort(kind='mergesort'); aux = ar[perm]]
      [mask[0] = True; mask[1:] = aux[1:] != aux[:-1]]
      [imask = cumsum(mask) - 1; inv_idx[perm] = imask]
      [return aux[mask], inv_idx]                                            *)

Fixpoint insert_sorted (x : nat * float) (l : list (nat * float))
  : list (nat * float) :=
  match l with
  | [] => [x]
  | y :: t => if Qle_bool (snd x) (snd y) then x :: y :: t
              else y :: insert_sorted x t
  end.

(** Stable sort of the (index, value) pairs by value. *)
Fixpoint sort_pairs (l : list (nat * float)) : list (nat * float) :=
  match l with
  | [] => []
  | x :: t => insert_sorted x (sort_pairs t)
  end.

(** [mask] for the elements after a previous value [prev]. *)
Fixpoint run_starts (prev : float) (aux : list float) : list bool :=
  match aux with
  | [] => []
  | x :: t => negb (Qeq_bool x prev) :: run_starts x t
  end.

Definition unique_mask (aux : list float) : list bool :=
  match aux with
  | [] => []
  | x :: t => true :: run_starts x t
  end.

(** [np.cumsum(mask) - 1]. *)
Fixpoint run_index (count : nat) (mask : list bool) : list nat :=
  match mask with
  | [] => []
  | b :: t => let count' := if b then S count else count in
              (count' - 1) :: run_index count' t
  end.

(** [a[i] = v] on an array; numpy raises on an index out of bounds, which
    the callers below never produce. *)
Fixpoint set_item {A} (l : list A) (i : nat) (v : A) : list A :=
  match l, i with
  | [], _ => []
  | _ :: t, 0 => v :: t
  | x :: t, S i' => x :: set_item t i' v
  end.

(** [a[perm] = values]. *)
Fixpoint scatter {A} (a : list A) (perm : list nat) (values : list A)
  : list A :=
  match perm, values with
  | p :: pt, v :: vt => scatter (set_item a p v) pt vt
  | _, _ => a
  end.

Definition np_unique (ar : list float) : list float * list nat :=
  let sorted := sort_pairs (combine (seq 0 (length ar)) ar) in
  let perm := map fst sorted in
  let aux := map snd sorted in
  let mask := unique_mask aux in
  let imask := run_index 0 mask in
  (masked mask aux, scatter (repeat 0 (length ar)) perm imask).

(** *** [get_index] of [FixedSpikeTrainConfiguration.create_connect_regular]

    [spike_times.size == st.size and np.all(st == spike_times)]. *)
Fixpoint all_equal (a b : list float) : bool :=
  match a, b with
  | [], [] => true
  | x :: at', y :: bt => Qeq_bool x y && all_equal at' bt
  | _, _ => false
  end.

Definition array_equal (st spike_times : list float) : bool :=
  (length spike_times =? length st) && all_equal st spike_times.

Fixpoint find_spike_times (i : nat) (all_spike_times : list (list float))
    (spike_times : list float) : option nat :=
  match all_spike_times with
  | [] => None
  | st :: rest =>
      if array_equal st spike_times then Some i
      else find_spike_times (S i) rest spike_times
  end.

(** The closure mutates [all_spike_times]; the list is threaded through. *)
Definition get_index (all_spike_times : list (list float))
    (spike_times : list float) : nat * list (list float) :=
  match find_spike_times 0 all_spike_times spike_times with
  | Some i => (i, all_spike_times)
  | None =>
      let all' := all_spike_times ++ [spike_times] in
      (length all' - 1, all')
  end.

(** Successive [get_index] calls over a sequence of spike-time arrays. *)
Fixpoint get_indices (all_spike_times : list (list float))
    (trains : list (list float)) : list nat * list (list float) :=
  match trains with
  | [] => ([], all_spike_times)
  | st :: rest =>
      let (i, all') := get_index all_spike_times st in
      let (js, all'') := get_indices all' rest in
      (i :: js, all'')
  end.

(** [sc.spike_times[sc.spike_ids == i]]. *)
Definition select_train (spike_times : list float) (spike_ids : list nat)
    (i : nat) : list float :=
  masked (map (fun id => id =? i) spike_ids) spike_times.

Record FixedSpikeTrainConfiguration : Type := mkFixedSpikeTrain {
  fst_rates : list float;
  fst_weights : list float;
  fst_spike_times : list float;
  fst_spike_ids : list nat
}.

(** The trains of one configuration in the order of its weights:
    [for i, w in enumerate(sc.weights)]. *)
Definition trains_of (sc : FixedSpikeTrainConfiguration)
  : list (float * list float) :=
  map (fun iw => (snd iw,
                  select_train (fst_spike_times sc) (fst_spike_ids sc) (fst iw)))
      (combine (seq 0 (length (fst_weights sc))) (fst_weights sc)).

(** The list-of-samplers branch of [create_connect_regular]: one connection
    row [(source_id, j, w)] per weight of sampler [j]. *)
Fixpoint regular_conn_rows (j : nat) (all_spike_times : list (list float))
    (trains : list (float * list float))
  : list (nat * nat * float) * list (list float) :=
  match trains with
  | [] => ([], all_spike_times)
  | (w, st) :: rest =>
      let (source_id, all') := get_index all_spike_times st in
      let (rows, all'') := regular_conn_rows j all' rest in
      ((source_id, j, w) :: rows, all'')
  end.

Fixpoint regular_conn_list (j : nat) (all_spike_times : list (list float))
    (samplers : list FixedSpikeTrainConfiguration)
  : list (nat * nat * float) * list (list float) :=
  match samplers with
  | [] => ([], all_spike_times)
  | sc :: rest =>
      let (rows, all') := regular_conn_rows j all_spike_times (trains_of sc) in
      let (rows', all'') := regular_conn_list (S j) all' rest in
      (rows ++ rows', all'')
  end.

(** The population branch: every train is connected to all [n] samplers. *)
Fixpoint regular_conn_rows_population (n : nat)
    (all_spike_times : list (list float))
    (trains : list (float * list float))
  : list (nat * nat * float) * list (list float) :=
  match trains with
  | [] => ([], all_spike_times)
  | (w, st) :: rest =>
      let (source_id, all') := get_index all_spike_times st in
      let (rows, all'') := regular_conn_rows_population n all' rest in
      (map (fun j => (source_id, j, w)) (seq 0 n) ++ rows, all'')
  end.

(** What [create_connect_regular] is handed as [samplers]. *)
Inductive fixed_samplers : Type :=
| FixedPopulation (self : FixedSpikeTrainConfiguration) (cb : bool) (n : nat)
| FixedSamplerList (cfgs : list (FixedSpikeTrainConfiguration * bool)).

(** [create_connect_regular]: the unique spike trains (one
    [SpikeSourceArray] each) and the projections. *)
Definition create_connect_regular (sources : nat) (samplers : fixed_samplers)
  : list (list float) * projections :=
  match samplers with
  | FixedPopulation self cb n =>
      let (conn_list, all_spike_times) :=
        regular_conn_rows_population n [] (trains_of self) in
      (all_spike_times,
       connect_sources_regular sources (BasePopulation cb n) conn_list)
  | FixedSamplerList cfgs =>
      let (conn_list, all_spike_times) :=
        regular_conn_list 0 [] (map fst cfgs) in
      (all_spike_times,
       connect_sources_regular sources (PopulationList (map snd cfgs))
         conn_list)
  end.

(** *** [MultiPoissonVarRateSourceConfiguration._consolidate_sources] *)

(** An [(n, 2)] array of rate changes: rows [(time, rate)]. *)
Definition rate_changes := list (float * float).

Definition row_ne (a b : float * float) : bool :=
  negb (Qeq_bool (fst a) (fst b)) || negb (Qeq_bool (snd a) (snd b)).

(** [np.any(rc != rc_cons)]: elementwise on equal shapes, a one-row array
    is broadcast against the other, and arrays whose shapes do not
    broadcast compare unequal as a whole. *)
Definition any_ne (rc rc_cons : rate_changes) : bool :=
  if length rc =? length rc_cons
  then existsb (fun p => row_ne (fst p) (snd p)) (combine rc rc_cons)
  else match rc, rc_cons with
       | [r], _ => existsb (row_ne r) rc_cons
       | _, [r] => existsb (fun x => row_ne x r) rc
       | _, _ => true
       end.

(** The inner [for i, (w_cons, rc_cons) in enumerate(izip(...))] loop: both
    tests [continue], a hit appends [i], and nothing leaves the loop
    early. *)
Fixpoint duplicate_hits (i : nat) (w : float) (rc : rate_changes)
    (consolidated : list (float * rate_changes)) : list nat :=
  match consolidated with
  | [] => []
  | (w_cons, rc_cons) :: rest =>
      if negb (Qeq_bool w w_cons) then duplicate_hits (S i) w rc rest
      else if any_ne rc rc_cons then duplicate_hits (S i) w rc rest
      else i :: duplicate_hits (S i) w rc rest
  end.

(** The outer loop.  The inner loop contains no [break], so the [else]
    clause of the [for] runs after every inner loop. *)
Fixpoint consolidate_loop (pairs : list (float * rate_changes))
    (weight_per_consolidated_source : list float)
    (rate_changes_per_consolidated_source : list rate_changes)
    (idx_source_to_consolidated : list nat)
  : list float * list rate_changes * list nat :=
  match pairs with
  | [] => (weight_per_consolidated_source,
           rate_changes_per_consolidated_source,
           idx_source_to_consolidated)
  | (w, rc) :: rest =>
      let hits := duplicate_hits 0 w rc
                    (combine weight_per_consolidated_source
                             rate_changes_per_consolidated_source) in
      consolidate_loop rest
        (weight_per_consolidated_source ++ [w])
        (rate_changes_per_consolidated_source ++ [rc])
        (idx_source_to_consolidated ++ hits
           ++ [length weight_per_consolidated_source])
  end.

(** The function under the decorator, [_consolidate_sources.__func__]:
    [def _consolidate_sources(weights_per_source,
    rate_changes_per_source)]. *)
Definition _consolidate_sources_func (weights_per_source : list float)
    (rate_changes_per_source : list rate_changes)
  : list float * list rate_changes * list nat :=
  consolidate_loop (combine weights_per_source rate_changes_per_source)
    [] [] [].

(** What a Python call comes to: a value, or the [TypeError] raised while
    binding the arguments. *)
Inductive call_outcome (A : Type) : Type :=
| Returned (a : A)
| TypeErrorRaised.

Arguments Returned {A} a.
Arguments TypeErrorRaised {A}.

(** A call of a function that declares [parameters] positional parameters
    (no defaults, no [*args]) with [given] positional arguments. *)
Definition call_positional {A} (parameters given : nat) (body : A)
  : call_outcome A :=
  if given =? parameters then Returned body else TypeErrorRaised.

(** [@classmethod]: the class is passed in front of the arguments of the
    caller. *)
Definition classmethod_call {A} (parameters given : nat) (body : A)
  : call_outcome A :=
  call_positional parameters (S given) body.

(** [cls._consolidate_sources(weights_per_source,
    rate_changes_per_source)]: the function is decorated with
    [@classmethod] and declares the two parameters only, without [cls]. *)
Definition _consolidate_sources (weights_per_source : list float)
    (rate_changes_per_source : list rate_changes)
  : call_outcome (list float * list rate_changes * list nat) :=
  classmethod_call 2 2
    (_consolidate_sources_func weights_per_source rate_changes_per_source).

(** *** The contract of a deduplicator on float arrays *)

Lemma all_equal_refl a : all_equal a a = true.
Proof.
  induction a as [|x t IH]; simpl; [reflexivity|].
  rewrite IH, andb_true_r. apply Qeq_bool_iff. reflexivity.
Qed.

Lemma array_equal_refl a : array_equal a a = true.
Proof. unfold array_equal. now rewrite Nat.eqb_refl, all_equal_refl. Qed.

Lemma find_spike_times_spec all_spike_times spike_times : forall i k,
  find_spike_times i all_spike_times spike_times = Some k ->
  i <= k /\
  exists st, nth_error all_spike_times (k - i) = Some st /\
             array_equal st spike_times = true.
Proof.
  induction all_spike_times as [|st rest IH]; intros i k H; simpl in H.
  - discriminate.
  - destruct (array_equal st spike_times) eqn:E.
    + injection H as <-. split; [lia|]. exists st.
      now rewrite Nat.sub_diag.
    + apply IH in H. destruct H as (Hle & st' & Hn & He). split; [lia|].
      exists st'. replace (k - i) with (S (k - S i)) by lia. now simpl.
Qed.

(** A deduplicated table [unique] answers index [k] for the array [x]. *)
Definition answers (unique : list (list float)) (k : nat) (x : list float)
  : Prop :=
  exists st, nth_error unique k = Some st /\ array_equal st x = true.

Lemma answers_extend unique ext k x :
  answers unique k x -> answers (unique ++ ext) k x.
Proof.
  intros (st & Hn & He). exists st. split; [|exact He].
  rewrite nth_error_app1; [exact Hn|].
  apply nth_error_Some. congruence.
Qed.

Lemma get_index_spec all_spike_times spike_times k all' :
  get_index all_spike_times spike_times = (k, all') ->
  answers all' k spike_times /\ exists ext, all' = all_spike_times ++ ext.
Proof.
  unfold get_index.
  destruct (find_spike_times 0 all_spike_times spike_times) as [i|] eqn:E;
    intro H; injection H as <- <-.
  - apply find_spike_times_spec in E. destruct E as (_ & st & Hn & He).
    rewrite Nat.sub_0_r in Hn. split.
    + exists st. now split.
    + exists []. now rewrite app_nil_r.
  - split.
    + exists spike_times. split; [|apply array_equal_refl].
      rewrite length_app. simpl.
      replace (length all_spike_times + 1 - 1) with
        (length all_spike_times + 0) by lia.
      now rewrite nth_error_app2, Nat.add_0_r, Nat.sub_diag by lia.
    + now exists [spike_times].
Qed.

(** First-occurrence deduplication meets the contract: after any run of
    [get_index] calls, the table entry at the index handed out for the
    [i]-th train equals that train. *)
Lemma get_indices_spec trains : forall all_spike_times ks all',
  get_indices all_spike_times trains = (ks, all') ->
  (exists ext, all' = all_spike_times ++ ext) /\
  length ks = length trains /\
  forall i k x, nth_error ks i = Some k -> nth_error trains i = Some x ->
                answers all' k x.
Proof.
  induction trains as [|st rest IH]; intros all0 ks all' H; simpl in H.
  - injection H as <- <-. split; [exists []; now rewrite app_nil_r|].
    split; [reflexivity|]. intros i k x Hk. destruct i; discriminate.
  - destruct (get_index all0 st) as [k0 all1] eqn:E0.
    destruct (get_indices all1 rest) as [js all2] eqn:E1.
    injection H as <- <-.
    apply get_index_spec in E0. destruct E0 as (Hans & ext0 & ->).
    apply IH in E1. destruct E1 as ((ext1 & ->) & Hlen & Hall).
    split; [exists (ext0 ++ ext1); now rewrite app_assoc|].
    split; [simpl; now rewrite Hlen|].
    intros i k x Hk Hx. destruct i as [|i]; simpl in Hk, Hx.
    + injection Hk as <-. injection Hx as <-. now apply answers_extend.
    + eapply Hall; eassumption.
Qed.

(** *** [np.unique] meets the contract *)

Lemma insert_sorted_perm x l : Permutation (insert_sorted x l) (x :: l).
Proof.
  induction l as [|y t IH]; simpl; [constructor; constructor|].
  destruct (Qle_bool (snd x) (snd y)); [apply Permutation_refl|].
  eapply perm_trans; [apply perm_skip, IH | apply perm_swap].
Qed.

Lemma sort_pairs_perm l : Permutation (sort_pairs l) l.
Proof.
  induction l as [|x t IH]; simpl; [constructor|].
  eapply perm_trans; [apply insert_sorted_perm | now apply perm_skip].
Qed.

Lemma map_fst_enumerate {A} (l : list A) : forall s,
  map fst (combine (seq s (length l)) l) = seq s (length l).
Proof. induction l as [|x t IH]; intro s; simpl; [|rewrite IH]; reflexivity. Qed.

Lemma in_enumerate {A} (l : list A) : forall s p v,
  In (p, v) (combine (seq s (length l)) l) ->
  s <= p /\ nth_error l (p - s) = Some v.
Proof.
  induction l as [|x t IH]; intros s p v H; simpl in H; [contradiction|].
  destruct H as [H | H].
  - injection H as <- <-. rewrite Nat.sub_diag. split; [lia | reflexivity].
  - apply IH in H. destruct H as (Hle & Hn). split; [lia|].
    replace (p - s) with (S (p - S s)) by lia. exact Hn.
Qed.

Lemma set_item_length {A} (l : list A) : forall i v,
  length (set_item l i v) = length l.
Proof.
  induction l as [|x t IH]; intros [|i] v; simpl; try reflexivity.
  now rewrite IH.
Qed.

Lemma set_item_same {A} (l : list A) : forall i v,
  i < length l -> nth_error (set_item l i v) i = Some v.
Proof.
  induction l as [|x t IH]; intros [|i] v H; simpl in *; try lia.
  - reflexivity.
  - apply IH. lia.
Qed.

Lemma set_item_other {A} (l : list A) : forall i j v,
  i <> j -> nth_error (set_item l i v) j = nth_error l j.
Proof.
  induction l as [|x t IH]; intros [|i] [|j] v H; simpl; try reflexivity.
  - contradiction.
  - apply IH. congruence.
Qed.

Lemma scatter_length {A} (perm : list nat) : forall (a values : list A),
  length (scatter a perm values) = length a.
Proof.
  induction perm as [|p pt IH]; intros a [|v vt]; simpl; try reflexivity.
  now rewrite IH, set_item_length.
Qed.

Lemma scatter_other {A} (perm : list nat) : forall (a values : list A) p,
  ~ In p perm -> nth_error (scatter a perm values) p = nth_error a p.
Proof.
  induction perm as [|q pt IH]; intros a [|v vt] p Hnin; simpl;
    try reflexivity.
  rewrite IH by (intro; apply Hnin; now right).
  apply set_item_other. intro; apply Hnin; now left.
Qed.

Lemma scatter_spec {A} (perm : list nat) : forall (a values : list A) k p v,
  NoDup perm ->
  (forall q, In q perm -> q < length a) ->
  nth_error perm k = Some p -> nth_error values k = Some v ->
  nth_error (scatter a perm values) p = Some v.
Proof.
  induction perm as [|q pt IH]; intros a values k p v Hnd Hlt Hp Hv.
  - destruct k; discriminate.
  - destruct values as [|v0 vt]; [destruct k; discriminate|].
    inversion Hnd as [|? ? Hnin Hnd']; subst. simpl.
    destruct k as [|k]; simpl in Hp, Hv.
    + injection Hp as ->. injection Hv as ->.
      rewrite scatter_other by exact Hnin.
      apply set_item_same. apply Hlt. now left.
    + eapply IH; try eassumption.
      intros q' Hq'. rewrite set_item_length. apply Hlt. now right.
Qed.

Lemma run_index_length mask : forall c,
  length (run_index c mask) = length mask.
Proof. induction mask as [|b t IH]; intro c; simpl; [|rewrite IH]; reflexivity. Qed.

Lemma run_starts_spec t : forall prev c k v,
  1 <= c ->
  nth_error t k = Some v ->
  exists j,
    nth_error (run_index c (run_starts prev t)) k = Some j /\
    ((j = c - 1 /\ (v == prev)%Q) \/
     (c <= j /\ exists u, nth_error (masked (run_starts prev t) t) (j - c)
                            = Some u /\ (u == v)%Q)).
Proof.
  induction t as [|x t IH]; intros prev c k v Hc Hk.
  - destruct k; discriminate.
  - simpl. destruct (Qeq_bool x prev) eqn:E; simpl.
    + apply Qeq_bool_iff in E. destruct k as [|k]; simpl in Hk |- *.
      * injection Hk as <-. exists (c - 1). split; [reflexivity|]. now left.
      * destruct (IH x c k v Hc Hk) as (j & Hj & [[-> Hv] | Hr]).
        -- exists (c - 1). split; [exact Hj|]. left. split; [reflexivity|].
           now rewrite Hv.
        -- exists j. split; [exact Hj|]. now right.
    + destruct k as [|k]; simpl in Hk |- *.
      * injection Hk as <-. exists (S c - 1). split; [reflexivity|]. right.
        split; [lia|]. exists x. replace (S c - 1 - c) with 0 by lia.
        split; reflexivity.
      * destruct (IH x (S c) k v ltac:(lia) Hk)
          as (j & Hj & [[-> Hv] | (Hle & u & Hu & Huv)]).
        -- exists (S c - 1). split; [exact Hj|]. right. split; [lia|].
           exists x. replace (S c - 1 - c) with 0 by lia.
           split; [reflexivity | now symmetry].
        -- exists j. split; [exact Hj|]. right. split; [lia|]. exists u.
           replace (j - c) with (S (j - S c)) by lia. now split.
Qed.

Lemma unique_mask_spec aux k v :
  nth_error aux k = Some v ->
  exists j u,
    nth_error (run_index 0 (unique_mask aux)) k = Some j /\
    nth_error (masked (unique_mask aux) aux) j = Some u /\ (u == v)%Q.
Proof.
  destruct aux as [|x t]; [destruct k; discriminate|]. intro Hk. simpl.
  destruct k as [|k]; simpl in Hk |- *.
  - injection Hk as <-. exists 0, x. repeat split; reflexivity.
  - destruct (run_starts_spec t x 1 k v ltac:(lia) Hk)
      as (j & Hj & [[-> Hv] | (Hle & u & Hu & Huv)]).
    + exists 0, x. repeat split; [exact Hj | now symmetry].
    + exists j, u. repeat split; [exact Hj | | exact Huv].
      replace j with (S (j - 1)) by lia. exact Hu.
Qed.

(** Sorted-unique deduplication meets the contract:
    [uniq_rates[idx_parrot_to_generator[i]] == rates[i]] for every [i]. *)
Lemma np_unique_spec (ar : list float) i x :
  nth_error ar i = Some x ->
  exists j u,
    nth_error (snd (np_unique ar)) i = Some j /\
    nth_error (fst (np_unique ar)) j = Some u /\ (u == x)%Q.
Proof.
  intro Hx. unfold np_unique. simpl.
  set (sorted := sort_pairs (combine (seq 0 (length ar)) ar)).
  assert (Hperm : Permutation (map fst sorted) (seq 0 (length ar))).
  { rewrite <- (map_fst_enumerate ar 0). apply Permutation_map.
    apply sort_pairs_perm. }
  assert (Hi : i < length ar) by (apply nth_error_Some; congruence).
  assert (Hin : In i (map fst sorted)).
  { eapply Permutation_in; [apply Permutation_sym, Hperm|].
    apply in_seq. lia. }
  apply In_nth_error in Hin. destruct Hin as (k & Hk).
  destruct (nth_error sorted k) as [[p v]|] eqn:Hs;
    [|rewrite nth_error_map, Hs in Hk; discriminate].
  rewrite nth_error_map, Hs in Hk. simpl in Hk. injection Hk as ->.
  assert (Hv : v = x).
  { apply nth_error_In in Hs.
    eapply Permutation_in in Hs; [|apply sort_pairs_perm].
    apply in_enumerate in Hs. rewrite Nat.sub_0_r in Hs.
    destruct Hs as (_ & Hs). congruence. }
  subst v.
  assert (Haux : nth_error (map snd sorted) k = Some x)
    by now rewrite nth_error_map, Hs.
  destruct (unique_mask_spec (map snd sorted) k x Haux) as (j & u & Hj & Hu & Hux).
  exists j, u. repeat split; [|exact Hu | exact Hux].
  eapply scatter_spec with (k := k).
  - eapply Permutation_NoDup; [apply Permutation_sym, Hperm | apply seq_NoDup].
  - intros q Hq. rewrite repeat_length.
    eapply Permutation_in in Hq; [|exact Hperm]. apply in_seq in Hq. lia.
  - now rewrite nth_error_map, Hs.
  - exact Hj.
Qed.

(** The inverse index array has one entry per input value. *)
Lemma np_unique_inverse_length ar :
  length (snd (np_unique ar)) = length ar.
Proof. unfold np_unique. simpl. now rewrite scatter_length, repeat_length. Qed.

(** The rate-change array of the class docstring. *)
Definition rc0 : rate_changes := [(0%Q, 1000%Q); (2000%Q, 100%Q)].

(** C3: a deduplicator returns [(unique_tuples, spec_to_generator_index)]
    with [unique_tuples[spec_to_generator_index[i]]] equal to the [i]-th
    parameters.  [_consolidate_sources] returns nothing at all: it is a
    [@classmethod] whose signature has no [cls], so a call with the two
    documented arguments passes three and raises [TypeError], whatever the
    sources are.  The function under the decorator would not keep the
    contract either: on three sources with weights [0.5, 0.5, 2] and one
    shared rate-change array it returns four indices for three sources,
    and the index at position 2 points at a consolidated source of weight
    [0.5] although source 2 has weight [2]. *)
Theorem C3_consolidate_sources_never_returns :
  (forall weights_per_source rate_changes_per_source,
     _consolidate_sources weights_per_source rate_changes_per_source
     = TypeErrorRaised) /\
  (forall weights_per_source rate_changes_per_source,
     ~ exists unique_weights unique_rate_changes idx,
         _consolidate_sources weights_per_source rate_changes_per_source
         = Returned (unique_weights, unique_rate_changes, idx)) /\
  let weights := [(1#2)%Q; (1#2)%Q; 2%Q] in
  let result := _consolidate_sources_func weights [rc0; rc0; rc0] in
  result = ([(1#2)%Q; (1#2)%Q; 2%Q], [rc0; rc0; rc0], [0; 0; 1; 2]) /\
  (exists k w_cons w,
      nth_error (snd result) 2 = Some k /\
      nth_error (fst (fst result)) k = Some w_cons /\
      nth_error weights 2 = Some w /\
      Qeq_bool w_cons w = false) /\
  length (snd result) <> length weights.
Proof.
  split; [reflexivity|]. split.
  - intros w rc (uw & urc & idx & H). discriminate.
  - cbv zeta. split; [reflexivity|]. split.
    + exists 1, (1#2)%Q, 2%Q. repeat split; reflexivity.
    + vm_compute. discriminate.
Qed.

(** ** The NEST kernel as seen by the build functions *)

Module Nest.

Definition gid := nat.

Record connection : Type := mkConnection {
  conn_pre : gid;
  conn_post : gid;
  conn_weight : option float
}.

Record state : Type := mkState {
  Models : list string;                   (* [nest.Models()] *)
  nodes : list string;                    (* model of gid [i+1] at [i] *)
  status : list (gid * string * float);   (* [SetStatus] entries *)
  connections : list connection
}.

Definition has_model (s : state) (model : string) : bool :=
  existsb (String.eqb model) (Models s).

(** The nodes of a given model. *)
Definition count_nodes (s : state) (model : string) : nat :=
  length (filter (String.eqb model) (nodes s)).

(** The connections made with a synaptic weight: in the build functions
    these are the rows from a parrot to its sampler. *)
Definition has_weight (c : connection) : bool :=
  match conn_weight c with
  | Some _ => true
  | None => false
  end.

Definition wiring_rows (s : state) : list connection :=
  filter has_weight (connections s).

End Nest.

(** State and exception: the kernel state is kept when a call raises. *)
Definition M (A : Type) : Type := Nest.state -> Nest.state * res A.

Definition ret {A} (a : A) : M A := fun s => (s, Ok a).

Definition bind {A B} (m : M A) (k : A -> M B) : M B :=
  fun s => match m s with
           | (s', Ok a) => k a s'
           | (s', Raise e) => (s', Raise e)
           end.

Definition lift {A} (r : res A) : M A := fun s => (s, r).

Notation "x <- m ;; k" := (bind m (fun x => k))
  (at level 61, m at next level, right associativity).
Notation "m ;;; k" := (bind m (fun _ => k))
  (at level 61, right associativity).

(** [nest.Models()]. *)
Definition nest_Models : M (list string) := fun s => (s, Ok (Nest.Models s)).

(** [nest.Create(model, n)]: [n] fresh consecutive gids, or NEST's error for
    a model name it does not know. *)
Definition nest_Create (model : string) (n : nat) : M (list Nest.gid) :=
  fun s =>
    if Nest.has_model s model
    then (Nest.mkState (Nest.Models s) (Nest.nodes s ++ repeat model n)
            (Nest.status s) (Nest.connections s),
          Ok (seq (S (length (Nest.nodes s))) n))
    else (s, Raise (NESTError ("UnknownModelName: " ++ model))).

(** [nest.SetStatus(gids, params)] with one dictionary for all nodes. *)
Definition nest_SetStatus (gids : list Nest.gid)
    (params : list (string * float)) : M unit :=
  fun s =>
    (Nest.mkState (Nest.Models s) (Nest.nodes s)
       (Nest.status s ++
        flat_map (fun g => map (fun kv => (g, fst kv, snd kv)) params) gids)
       (Nest.connections s),
     Ok tt).

(** [nest.SetStatus(gids, [params, ...])] with one dictionary per node. *)
Definition nest_SetStatus_each (gids : list Nest.gid)
    (params : list (list (string * float))) : M unit :=
  fun s =>
    if length gids =? length params
    then (Nest.mkState (Nest.Models s) (Nest.nodes s)
            (Nest.status s ++
             flat_map (fun gp => map (fun kv => (fst gp, fst kv, snd kv))
                                     (snd gp))
                      (combine gids params))
            (Nest.connections s),
          Ok tt)
    else (s, Raise (NESTError "BadProperty: array sizes do not match")).

(** [nest.Connect(pre, post, "one_to_one"[, {"weight": w}])]. *)
Definition nest_Connect_one_to_one (pre post : list Nest.gid)
    (weight : option (list float)) : M unit :=
  fun s =>
    let sized := (length pre =? length post) &&
                 match weight with
                 | Some w => length w =? length pre
                 | None => true
                 end in
    if sized
    then let rows :=
           match weight with
           | Some w => map (fun c => Nest.mkConnection (fst (fst c))
                                        (snd (fst c)) (Some (snd c)))
                           (combine (combine pre post) w)
           | None => map (fun c => Nest.mkConnection (fst c) (snd c) None)
                         (combine pre post)
           end in
         (Nest.mkState (Nest.Models s) (Nest.nodes s) (Nest.status s)
            (Nest.connections s ++ rows),
          Ok tt)
    else (s, Raise (NESTError "DimensionMismatch")).

Lemma bind_Ok_inv {A B} (m : M A) (k : A -> M B) s s' b :
  bind m k s = (s', Ok b) ->
  exists a s1, m s = (s1, Ok a) /\ k a s1 = (s', Ok b).
Proof.
  unfold bind. destruct (m s) as [s1 [a|e]]; intro H; [|discriminate].
  now exists a, s1.
Qed.

Lemma bind_Raise_inv {A B} (m : M A) (k : A -> M B) s s' e :
  bind m k s = (s', Raise e) ->
  m s = (s', Raise e) \/ exists a s1, m s = (s1, Ok a) /\ k a s1 = (s', Raise e).
Proof.
  unfold bind. destruct (m s) as [s1 [a|e1]]; intro H.
  - right. now exists a, s1.
  - left. injection H as <- <-. reflexivity.
Qed.

Lemma lift_inv {A} (r : res A) s s' r' :
  lift r s = (s', r') -> s' = s /\ r' = r.
Proof. unfold lift. intro H. now injection H as <- <-. Qed.

Lemma nest_Create_Ok model n s s' g :
  nest_Create model n s = (s', Ok g) ->
  Nest.has_model s model = true /\
  g = seq (S (length (Nest.nodes s))) n /\
  s' = Nest.mkState (Nest.Models s) (Nest.nodes s ++ repeat model n)
         (Nest.status s) (Nest.connections s).
Proof.
  unfold nest_Create. destruct (Nest.has_model s model); intro H;
    [|discriminate].
  injection H as <- <-. auto.
Qed.

Lemma nest_Create_Raise model n s s' e :
  nest_Create model n s = (s', Raise e) ->
  s' = s /\ is_validation_error e = false /\ Nest.has_model s model = false.
Proof.
  unfold nest_Create. destruct (Nest.has_model s model); intro H;
    [discriminate|].
  injection H as <- <-. auto.
Qed.

Lemma nest_SetStatus_Ok gids params s s' u :
  nest_SetStatus gids params s = (s', Ok u) ->
  Nest.Models s' = Nest.Models s /\ Nest.nodes s' = Nest.nodes s /\
  Nest.connections s' = Nest.connections s.
Proof. unfold nest_SetStatus. intro H. injection H as <- _. auto. Qed.

Lemma nest_SetStatus_each_Ok gids params s s' u :
  nest_SetStatus_each gids params s = (s', Ok u) ->
  Nest.Models s' = Nest.Models s /\ Nest.nodes s' = Nest.nodes s /\
  Nest.connections s' = Nest.connections s.
Proof.
  unfold nest_SetStatus_each. destruct (length gids =? length params);
    intro H; [|discriminate].
  injection H as <- _. auto.
Qed.

Lemma combine_map_fst {A B} (a : list A) : forall (b : list B),
  length a = length b -> map fst (combine a b) = a.
Proof.
  induction a as [|x a IH]; intros [|y b] E; simpl in *; try discriminate;
    [reflexivity|].
  f_equal. apply IH. lia.
Qed.

Lemma combine_map_snd {A B} (a : list A) : forall (b : list B),
  length a = length b -> map snd (combine a b) = b.
Proof.
  induction a as [|x a IH]; intros [|y b] E; simpl in *; try discriminate;
    [reflexivity|].
  f_equal. apply IH. lia.
Qed.

Lemma filter_map_all {A B} (p : B -> bool) (f : A -> B) (l : list A) :
  (forall x, p (f x) = true) -> filter p (map f l) = map f l.
Proof.
  intro H. induction l as [|x t IH]; simpl; [reflexivity|].
  now rewrite H, IH.
Qed.

Lemma filter_map_none {A B} (p : B -> bool) (f : A -> B) (l : list A) :
  (forall x, p (f x) = false) -> filter p (map f l) = [].
Proof.
  intro H. induction l as [|x t IH]; simpl; [reflexivity|].
  now rewrite H, IH.
Qed.

Lemma nest_Connect_one_to_one_Ok pre post weight s s' u :
  nest_Connect_one_to_one pre post weight s = (s', Ok u) ->
  Nest.Models s' = Nest.Models s /\ Nest.nodes s' = Nest.nodes s /\
  length pre = length post /\
  exists rows,
    Nest.connections s' = Nest.connections s ++ rows /\
    map Nest.conn_pre rows = pre /\ map Nest.conn_post rows = post /\
    filter Nest.has_weight rows
      = match weight with Some _ => rows | None => [] end.
Proof.
  unfold nest_Connect_one_to_one.
  destruct (length pre =? length post) eqn:E; simpl; [|discriminate].
  apply Nat.eqb_eq in E.
  pose proof (combine_map_fst pre post E) as Hpre.
  pose proof (combine_map_snd pre post E) as Hpost.
  destruct weight as [w|].
  - destruct (length w =? length pre) eqn:Ew; intro H; [|discriminate].
    apply Nat.eqb_eq in Ew. injection H as <- _. simpl.
    repeat split; auto. eexists. split; [reflexivity|].
    assert (Hcw : map fst (combine (combine pre post) w) = combine pre post).
    { apply combine_map_fst. rewrite length_combine. lia. }
    rewrite !map_map. simpl. split; [|split].
    + rewrite <- Hpre at 2. rewrite <- Hcw at 2. now rewrite map_map.
    + rewrite <- Hpost at 2. rewrite <- Hcw at 2. now rewrite map_map.
    + now apply filter_map_all.
  - intro H. injection H as <- _. simpl. repeat split; auto.
    eexists. split; [reflexivity|]. rewrite !map_map. simpl.
    split; [exact Hpre|]. split; [exact Hpost|]. now apply filter_map_none.
Qed.

Lemma nest_Connect_one_to_one_Raise pre post weight s s' e :
  nest_Connect_one_to_one pre post weight s = (s', Raise e) ->
  is_validation_error e = false.
Proof.
  unfold nest_Connect_one_to_one.
  destruct ((length pre =? length post) && _); intro H; [discriminate|].
  now injection H as _ <-.
Qed.

(** Sequencing in [res] over a list. *)
Fixpoint res_map {A B} (f : A -> res B) (l : list A) : res (list B) :=
  match l with
  | [] => Ok []
  | x :: t => res_bind (f x) (fun y =>
              res_bind (res_map f t) (fun ys => Ok (y :: ys)))
  end.

Lemma take_length {A} (l : list A) : forall idx r,
  take l idx = Ok r -> length r = length idx.
Proof.
  induction idx as [|i rest IH]; intros r H; simpl in H.
  - now injection H as <-.
  - destruct (getitem l i); [|discriminate]. simpl in H.
    destruct (take l rest) eqn:E; [|discriminate]. simpl in H.
    injection H as <-. simpl. f_equal. now apply IH.
Qed.

Lemma take_Raise {A} (l : list A) : forall idx e,
  take l idx = Raise e -> e = IndexError.
Proof.
  induction idx as [|i rest IH]; intros e H; simpl in H; [discriminate|].
  unfold getitem in H. destruct (nth_error l i); simpl in H.
  - destruct (take l rest) eqn:E; simpl in H; [discriminate|].
    injection H as <-. now apply IH.
  - now injection H as <-.
Qed.

Lemma take_Ok {A} (l : list A) : forall idx,
  (forall i, In i idx -> i < length l) -> exists r, take l idx = Ok r.
Proof.
  induction idx as [|i rest IH]; intro H; simpl; [now eexists|].
  unfold getitem. destruct (nth_error l i) eqn:E.
  - simpl. destruct IH as (r & ->); [intros; apply H; now right|].
    simpl. now eexists.
  - apply nth_error_None in E. specialize (H i (or_introl eq_refl)). lia.
Qed.

Lemma res_map_length {A B} (f : A -> res B) : forall l r,
  res_map f l = Ok r -> length r = length l.
Proof.
  induction l as [|x t IH]; intros r H; simpl in H.
  - now injection H as <-.
  - destruct (f x); [|discriminate]. simpl in H.
    destruct (res_map f t) eqn:E; [|discriminate]. simpl in H.
    injection H as <-. simpl. f_equal. now apply IH.
Qed.

Lemma idx_parrot_to_sampler_Raise offsets i e :
  idx_parrot_to_sampler offsets i = Raise e -> e = IndexError.
Proof.
  unfold idx_parrot_to_sampler, first_item.
  destruct (np_where _); intro H; [|discriminate]. now injection H as <-.
Qed.

Lemma res_map_idx_Raise offsets : forall l e,
  res_map (idx_parrot_to_sampler offsets) l = Raise e -> e = IndexError.
Proof.
  induction l as [|x t IH]; intros e H; simpl in H; [discriminate|].
  destruct (idx_parrot_to_sampler offsets x) eqn:E; simpl in H.
  - destruct (res_map _ t) eqn:E'; simpl in H; [discriminate|].
    injection H as <-. now apply IH.
  - injection H as <-. now apply idx_parrot_to_sampler_Raise in E.
Qed.

(** ** Poisson sources: [PoissonSourceConfiguration] *)

Record PoissonSourceConfiguration : Type := mkPoisson {
  rates : list float;
  weights : list float
}.

(** What a build function is handed as [samplers]: one PyNN population of
    [n] neurons that all take the configuration at hand, or a list of
    samplers, each with a source configuration of its own. *)
Inductive samplers_of (C : Type) : Type :=
| Population (n : nat)
| Samplers (cfgs : list C).
Arguments Population {C} n.
Arguments Samplers {C} cfgs.

Record sources : Type := mkSources {
  generators : list Nest.gid;
  parrots : list Nest.gid
}.

Definition all_excitatory : exn :=
  ValueError "Noise weights are all excitatory. Aborting.".
Definition all_inhibitory : exn :=
  ValueError "Noise weights are all inhibitory. Aborting.".

(** [if np.all(weights > 0): raise ...; if np.all(weights < 0): raise ...]. *)
Definition check_noise_signs (weights : list float) : res unit :=
  if forallb gt0 weights then Raise all_excitatory
  else if forallb lt0 weights then Raise all_inhibitory
  else Ok tt.

(** The first block of [create_nest_optimized]: the per-sampler source
    counts and the flattened rates and weights.  The arrays of the
    configurations are one-dimensional here, so that [np.hstack] joins
    them end to end; [np_hstack] below is the function for arrays of any
    rank. *)
Definition poisson_gather (self : PoissonSourceConfiguration)
    (samplers : samplers_of PoissonSourceConfiguration)
  : res (list nat * list float * list float) :=
  match samplers with
  | Samplers cfgs =>
      let num_sources_per_sampler := map (fun c => length (rates c)) cfgs in
      res_bind (hstack (map rates cfgs)) (fun rates =>
      res_bind (hstack (map weights cfgs)) (fun weights =>
      Ok (num_sources_per_sampler, rates, weights)))
  | Population n =>
      let num_sources_per_sampler := repeat (length (rates self)) n in
      res_bind (hstack (repeat (rates self) n)) (fun rates =>
      res_bind (hstack (repeat (weights self) n)) (fun weights =>
      res_bind (check_noise_signs weights) (fun _ =>
      Ok (num_sources_per_sampler, rates, weights))))
  end.

Section NestBuild.

(** Modelled from the spec: [weight_pynn_to_nest] of [sbs.conversion] is
    not under [src/]; the spec has it as a pure, order-preserving unit
    transform applied to the weight array as a whole. *)
Variable weight_pynn_to_nest : float -> float.

(** The part of [create_nest_optimized] after the flattening. *)
Definition poisson_build (source_model : string)
    (source_model_kwargs : list (string * float))
    (num_sources_per_sampler : list nat) (rates weights : list float)
    (gid_samplers : list Nest.gid) (duration : float) : M sources :=
  let offset_per_sampler := cumsum num_sources_per_sampler in
  let uniq_rates := fst (np_unique rates) in
  let idx_parrot_to_generator := snd (np_unique rates) in
  gid_generators <- nest_Create source_model (length uniq_rates) ;;
  gid_parrots <- nest_Create "parrot_neuron" (length rates) ;;
  nest_SetStatus_each gid_generators
    (map (fun r => [("rate", r); ("start", 0%Q); ("stop", duration)])
         uniq_rates) ;;;
  (if 0 <? length source_model_kwargs
   then nest_SetStatus gid_generators source_model_kwargs
   else ret tt) ;;;
  pre <- lift (take gid_generators idx_parrot_to_generator) ;;
  nest_Connect_one_to_one pre gid_parrots None ;;;
  idx_samplers <- lift (res_map (idx_parrot_to_sampler offset_per_sampler)
                                (seq 0 (length gid_parrots))) ;;
  connect_gid_samplers <- lift (take gid_samplers idx_samplers) ;;
  nest_Connect_one_to_one gid_parrots connect_gid_samplers
    (Some (map weight_pynn_to_nest weights)) ;;;
  ret (mkSources gid_generators gid_parrots).

(** [PoissonSourceConfiguration.create_nest_optimized]; [gid_samplers] is
    what [get_population_from_samplers] and [all_cells] hand back for the
    samplers, which PyNN created beforehand. *)
Definition create_nest_optimized (self : PoissonSourceConfiguration)
    (samplers : samplers_of PoissonSourceConfiguration)
    (gid_samplers : list Nest.gid) (duration : float) : M sources :=
  models <- nest_Models ;;
  let lookahead :=
    existsb (String.eqb "lookahead_poisson_generator") models in
  let source_model :=
    if lookahead then "lookahead_poisson_generator"
    else "poisson_generator" in
  let source_model_kwargs :=
    if lookahead then [("steps_lookahead", 10000%Q)] else [] in
  g <- lift (poisson_gather self samplers) ;;
  poisson_build source_model source_model_kwargs
    (fst (fst g)) (snd (fst g)) (snd g) gid_samplers duration.

End NestBuild.

(** ** Sinusoidally modulated Poisson sources:
    [SinusPoissonSourceConfiguration] *)

Module Sinus.

Record configuration : Type := mkSinus {
  weights : list float;
  rates : list float;
  amplitudes : list float;
  frequencies : list float;
  phases : list float;
  individual_spike_trains : bool
}.

(** One generator's parameter dictionary. *)
Record parameters : Type := mkParameters {
  rate : float;
  amplitude : float;
  frequency : float;
  phase : float
}.

Definition parameters_eqb (a b : parameters) : bool :=
  Qeq_bool (rate a) (rate b) && Qeq_bool (amplitude a) (amplitude b) &&
  Qeq_bool (frequency a) (frequency b) && Qeq_bool (phase a) (phase b).

(** [gathered_parameters], row by row. *)
Fixpoint rows (rates amplitudes frequencies phases : list float)
  : list parameters :=
  match rates, amplitudes, frequencies, phases with
  | r :: rt, a :: at', f :: ft, p :: pt =>
      mkParameters r a f p :: rows rt at' ft pt
  | _, _, _, _ => []
  end.

Fixpoint add_to_groups (i : nat) (row : parameters)
    (groups : list (list nat * parameters))
  : list (list nat * parameters) :=
  match groups with
  | [] => [([i], row)]
  | (idx, p) :: rest =>
      if parameters_eqb p row then (idx ++ [i], p) :: rest
      else (idx, p) :: add_to_groups i row rest
  end.

Fixpoint group_rows (i : nat) (l : list parameters)
    (groups : list (list nat * parameters))
  : list (list nat * parameters) :=
  match l with
  | [] => groups
  | row :: t => group_rows (S i) t (add_to_groups i row groups)
  end.

(** Modelled from the spec: [utils.group_identical_parameters] is not
    under [src/].  The spec's deduplicator collapses identical parameter
    tuples by exact value equality, unique tuples in order of first
    appearance; the caller consumes pairs [(idx, parameters)] of the
    positions holding a tuple and the tuple. *)
Definition group_identical_parameters
    (rates amplitudes frequencies phases : list float)
  : list (list nat * parameters) :=
  group_rows 0 (rows rates amplitudes frequencies phases) [].

(** [sys.float_info.max]. *)
Definition float_info_max : float :=
  inject_Z (2 ^ 1024 - 2 ^ 971).

(** The dictionary handed to [SetStatus], with [start] and [stop] added. *)
Definition status_of (p : parameters) : list (string * float) :=
  [("rate", rate p); ("amplitude", amplitude p);
   ("frequency", frequency p); ("phase", phase p);
   ("start", 0%Q); ("stop", float_info_max)].

Record gathered : Type := mkGathered {
  num_sources_per_sampler : list nat;
  g_rates : list float;
  g_weights : list float;
  g_amplitudes : list float;
  g_frequencies : list float;
  g_phases : list float;
  g_individual_spike_trains : bool
}.

Definition mixed_settings : exn :=
  ValueError ("All SinusPoissonSourceConfigurations must have the " ++
              "same 'individual_spike_trains' setting!").

(** The first block of [create_nest], for configurations whose parameter
    arrays are one-dimensional (see [np_hstack] for other ranks). *)
Definition gather (self : configuration)
    (samplers : samplers_of configuration) : res gathered :=
  match samplers with
  | Samplers cfgs =>
      let num := map (fun c => length (rates c)) cfgs in
      res_bind (hstack (map rates cfgs)) (fun r =>
      res_bind (hstack (map weights cfgs)) (fun w =>
      res_bind (hstack (map amplitudes cfgs)) (fun a =>
      res_bind (hstack (map frequencies cfgs)) (fun f =>
      res_bind (hstack (map phases cfgs)) (fun p =>
      res_bind (first_item cfgs) (fun first =>
      let ist := individual_spike_trains first in
      if negb (forallb (fun c => Bool.eqb ist (individual_spike_trains c))
                       cfgs)
      then Raise mixed_settings
      else Ok (mkGathered num r w a f p ist)))))))
  | Population n =>
      let num := repeat (length (rates self)) n in
      res_bind (hstack (repeat (rates self) n)) (fun r =>
      res_bind (hstack (repeat (weights self) n)) (fun w =>
      res_bind (hstack (repeat (amplitudes self) n)) (fun a =>
      res_bind (hstack (repeat (frequencies self) n)) (fun f =>
      res_bind (hstack (repeat (phases self) n)) (fun p =>
      res_bind (check_noise_signs w) (fun _ =>
      Ok (mkGathered num r w a f p (individual_spike_trains self))))))))
  end.

(** [for i, (idx, parameters) in enumerate(unique_source_configurations)]:
    [idx_parrot_to_generator[idx] = i] and
    [nest.SetStatus([gid_generators[i]], parameters)]. *)
Fixpoint configure (i : nat) (unique : list (list nat * parameters))
    (gid_generators : list Nest.gid) (idx_parrot_to_generator : list nat)
  : M (list nat) :=
  match unique with
  | [] => ret idx_parrot_to_generator
  | (idx, p) :: rest =>
      let idx_parrot_to_generator :=
        scatter idx_parrot_to_generator idx (repeat i (length idx)) in
      g <- lift (getitem gid_generators i) ;;
      nest_SetStatus [g] (status_of p) ;;;
      configure (S i) rest gid_generators idx_parrot_to_generator
  end.

Definition source_model : string := "sinusoidal_poisson_generator".

Section Build.

Variable weight_pynn_to_nest : float -> float.

(** The part of [create_nest] after the flattening. *)
Definition build (g : gathered) (gid_samplers : list Nest.gid)
  : M sources :=
  let offset_per_sampler := cumsum (num_sources_per_sampler g) in
  let num_parrots := length (g_rates g) in
  let unique_source_configurations :=
    group_identical_parameters (g_rates g) (g_amplitudes g)
      (g_frequencies g) (g_phases g) in
  let num_generators := length unique_source_configurations in
  gid_generators <- nest_Create source_model num_generators ;;
  gid_generators <-
    (if negb (g_individual_spike_trains g)
     then
       let hidden_gid_generators := gid_generators in
       gid_generators <- nest_Create "parrot_neurons" num_generators ;;
       nest_Connect_one_to_one hidden_gid_generators gid_generators
         None ;;;
       ret gid_generators
     else ret gid_generators) ;;
  gid_parrots <- nest_Create "parrot_neuron" num_parrots ;;
  idx_parrot_to_generator <-
    configure 0 unique_source_configurations gid_generators
      (repeat 0 num_parrots) ;;
  pre <- lift (take gid_generators idx_parrot_to_generator) ;;
  nest_Connect_one_to_one pre gid_parrots None ;;;
  idx_samplers <- lift (res_map (idx_parrot_to_sampler offset_per_sampler)
                                (seq 0 (length gid_parrots))) ;;
  connect_gid_samplers <- lift (take gid_samplers idx_samplers) ;;
  nest_Connect_one_to_one gid_parrots connect_gid_samplers
    (Some (map weight_pynn_to_nest (g_weights g))) ;;;
  ret (mkSources gid_generators gid_parrots).

(** [SinusPoissonSourceConfiguration.create_nest]. *)
Definition create_nest (self : configuration)
    (samplers : samplers_of configuration)
    (gid_samplers : list Nest.gid) : M sources :=
  g <- lift (gather self samplers) ;;
  build g gid_samplers.

End Build.

End Sinus.

(** ** Raises of the build phase come from the backend *)

(** A computation whose raises are never validation errors. *)
Definition backend_only {A} (m : M A) : Prop :=
  forall s s' e, m s = (s', Raise e) -> is_validation_error e = false.

Lemma backend_only_ret {A} (a : A) : backend_only (ret a).
Proof. intros s s' e H. discriminate. Qed.

Lemma backend_only_bind {A B} (m : M A) (k : A -> M B) :
  backend_only m -> (forall a, backend_only (k a)) -> backend_only (bind m k).
Proof.
  intros Hm Hk s s' e H. apply bind_Raise_inv in H.
  destruct H as [H | (a & s1 & _ & H)]; [eapply Hm | eapply Hk]; eassumption.
Qed.

Lemma backend_only_lift {A} (r : res A) :
  (forall e, r = Raise e -> is_validation_error e = false) ->
  backend_only (lift r).
Proof.
  intros Hr s s' e H. apply lift_inv in H. destruct H as [_ H].
  apply Hr. now symmetry.
Qed.

Lemma backend_only_Create model n : backend_only (nest_Create model n).
Proof. intros s s' e H. now apply nest_Create_Raise in H. Qed.

Lemma backend_only_SetStatus gids params :
  backend_only (nest_SetStatus gids params).
Proof. intros s s' e H. discriminate. Qed.

Lemma backend_only_SetStatus_each gids params :
  backend_only (nest_SetStatus_each gids params).
Proof.
  intros s s' e. unfold nest_SetStatus_each.
  destruct (length gids =? length params); intro H; [discriminate|].
  now injection H as _ <-.
Qed.

Lemma backend_only_Connect pre post weight :
  backend_only (nest_Connect_one_to_one pre post weight).
Proof. intros s s' e H. now apply nest_Connect_one_to_one_Raise in H. Qed.

Lemma backend_only_take {A} (l : list A) idx : backend_only (lift (take l idx)).
Proof. apply backend_only_lift. intros e H. now apply take_Raise in H as ->. Qed.

Lemma backend_only_getitem {A} (l : list A) i :
  backend_only (lift (getitem l i)).
Proof.
  apply backend_only_lift. unfold getitem. intros e.
  destruct (nth_error l i); intro H; [discriminate|]. now injection H as <-.
Qed.

Lemma backend_only_slots offsets l :
  backend_only (lift (res_map (idx_parrot_to_sampler offsets) l)).
Proof.
  apply backend_only_lift. intros e H. now apply res_map_idx_Raise in H as ->.
Qed.

Create HintDb backend.

#[local] Hint Resolve backend_only_ret backend_only_Create
  backend_only_SetStatus backend_only_SetStatus_each backend_only_Connect
  backend_only_take backend_only_getitem backend_only_slots : backend.

Ltac backend_steps :=
  repeat (apply backend_only_bind; [auto with backend | intros]);
  auto with backend.

Lemma poisson_build_backend_only conv model kwargs num rs ws gids duration :
  backend_only (poisson_build conv model kwargs num rs ws gids duration).
Proof.
  unfold poisson_build. backend_steps.
  destruct (0 <? length kwargs); auto with backend.
Qed.

Lemma sinus_configure_backend_only unique : forall i gens idx,
  backend_only (Sinus.configure i unique gens idx).
Proof.
  induction unique as [|[idx0 p] rest IH]; intros i gens idx; simpl.
  - auto with backend.
  - backend_steps.
Qed.

Lemma sinus_build_backend_only conv g gids :
  backend_only (Sinus.build conv g gids).
Proof.
  unfold Sinus.build. backend_steps.
  - destruct (negb (Sinus.g_individual_spike_trains g)); backend_steps.
  - apply sinus_configure_backend_only.
Qed.

(** ** The flattening block *)

Definition n_samplers {C} (samplers : samplers_of C) : nat :=
  match samplers with
  | Population n => n
  | Samplers cfgs => length cfgs
  end.

(** The number of source specifications of a Poisson compile: the sum over
    the targets of the length of each target's list. *)
Definition total_specs (self : PoissonSourceConfiguration)
    (samplers : samplers_of PoissonSourceConfiguration) : nat :=
  match samplers with
  | Population n => list_sum (repeat (length (rates self)) n)
  | Samplers cfgs => list_sum (map (fun c => length (rates c)) cfgs)
  end.

Lemma forallb_concat_repeat {A} (f : A -> bool) (l : list A) n :
  0 < n -> forallb f (concat (repeat l n)) = forallb f l.
Proof.
  intro Hn. induction n as [|n IH]; [lia|].
  simpl. rewrite forallb_app. destruct n as [|n].
  - simpl. now rewrite andb_true_r.
  - rewrite IH by lia. now destruct (forallb f l).
Qed.

Lemma hstack_repeat {A} (l : list A) n :
  0 < n -> hstack (repeat l n) = Ok (concat (repeat l n)).
Proof. destruct n; [lia|reflexivity]. Qed.

Lemma length_concat_map {A B} (f : A -> list B) (l : list A) :
  length (concat (map f l)) = list_sum (map (fun x => length (f x)) l).
Proof.
  induction l as [|x t IH]; simpl; [reflexivity|].
  now rewrite length_app, IH.
Qed.

Lemma length_concat_repeat {A} (l : list A) n :
  length (concat (repeat l n)) = list_sum (repeat (length l) n).
Proof.
  induction n as [|n IH]; simpl; [reflexivity|].
  now rewrite length_app, IH.
Qed.

Lemma hstack_Ok {A} (arrays : list (list A)) r :
  hstack arrays = Ok r -> r = concat arrays /\ arrays <> [].
Proof.
  destruct arrays; simpl; intro H; [discriminate|].
  injection H as <-. split; [reflexivity | discriminate].
Qed.

Lemma poisson_gather_Ok self samplers num rs ws :
  poisson_gather self samplers = Ok (num, rs, ws) ->
  list_sum num = length rs /\
  length rs = total_specs self samplers /\
  length num = n_samplers samplers.
Proof.
  destruct samplers as [n | cfgs]; simpl.
  - destruct (hstack (repeat (rates self) n)) as [r|] eqn:Er; [|discriminate].
    simpl. destruct (hstack (repeat (weights self) n)) as [w|] eqn:Ew;
      [|discriminate].
    simpl. destruct (check_noise_signs w); [|discriminate]. simpl.
    intro H. injection H as <- <- <-.
    apply hstack_Ok in Er. destruct Er as (-> & _).
    rewrite length_concat_repeat, repeat_length. auto.
  - destruct (hstack (map rates cfgs)) as [r|] eqn:Er; [|discriminate].
    simpl. destruct (hstack (map weights cfgs)) as [w|] eqn:Ew;
      [|discriminate].
    simpl. intro H. injection H as <- <- <-.
    apply hstack_Ok in Er. destruct Er as (-> & _).
    rewrite length_concat_map, length_map. auto.
Qed.

(** Under the canonical rule a weight vector shares one sign when every
    weight is positive or every weight is non-positive. *)
Definition canonical_one_sign (ws : list float) : bool :=
  forallb gt0 ws || forallb (fun w => negb (gt0 w)) ws.

(** What the guard of the code tests. *)
Definition strictly_one_sign (ws : list float) : bool :=
  forallb gt0 ws || forallb lt0 ws.

Definition is_degenerate (e : exn) : Prop :=
  e = all_excitatory \/ e = all_inhibitory.

Lemma check_noise_signs_spec ws :
  (strictly_one_sign ws = true /\
   exists e, check_noise_signs ws = Raise e /\ is_degenerate e) \/
  (strictly_one_sign ws = false /\ check_noise_signs ws = Ok tt).
Proof.
  unfold strictly_one_sign, check_noise_signs, is_degenerate.
  destruct (forallb gt0 ws); simpl.
  - left. split; [reflexivity|]. eexists. split; [reflexivity|]. now left.
  - destruct (forallb lt0 ws).
    + left. split; [reflexivity|]. eexists. split; [reflexivity|]. now right.
    + now right.
Qed.

Lemma strictly_one_sign_repeat ws n :
  0 < n -> strictly_one_sign (concat (repeat ws n)) = strictly_one_sign ws.
Proof.
  intro Hn. unfold strictly_one_sign.
  now rewrite !forallb_concat_repeat by exact Hn.
Qed.

Lemma poisson_gather_population self n :
  0 < n ->
  (strictly_one_sign (weights self) = true /\
   exists e, poisson_gather self (Population n) = Raise e /\ is_degenerate e)
  \/
  (strictly_one_sign (weights self) = false /\
   poisson_gather self (Population n) =
     Ok (repeat (length (rates self)) n, concat (repeat (rates self) n),
         concat (repeat (weights self) n))).
Proof.
  intro Hn. simpl. rewrite !hstack_repeat by exact Hn. simpl.
  destruct (check_noise_signs_spec (concat (repeat (weights self) n)))
    as [(Hs & e & He & Hd) | (Hs & He)];
    rewrite strictly_one_sign_repeat in Hs by exact Hn; rewrite He; simpl.
  - left. split; [exact Hs|]. now exists e.
  - right. now split.
Qed.

Lemma sinus_gather_population (self : Sinus.configuration) n :
  0 < n ->
  (strictly_one_sign (Sinus.weights self) = true /\
   exists e, Sinus.gather self (Population n) = Raise e /\ is_degenerate e)
  \/
  (strictly_one_sign (Sinus.weights self) = false /\
   exists g, Sinus.gather self (Population n) = Ok g /\
             Sinus.g_weights g = concat (repeat (Sinus.weights self) n)).
Proof.
  intro Hn. simpl. rewrite !hstack_repeat by exact Hn. simpl.
  destruct (check_noise_signs_spec (concat (repeat (Sinus.weights self) n)))
    as [(Hs & e & He & Hd) | (Hs & He)];
    rewrite strictly_one_sign_repeat in Hs by exact Hn; rewrite He; simpl.
  - left. split; [exact Hs|]. now exists e.
  - right. split; [exact Hs|]. eexists. split; reflexivity.
Qed.

(** ** The Poisson build runs to completion *)

Lemma res_map_Ok {A B} (f : A -> res B) (P : B -> Prop) : forall l,
  (forall x, In x l -> exists y, f x = Ok y /\ P y) ->
  exists ys, res_map f l = Ok ys /\ Forall P ys.
Proof.
  induction l as [|x t IH]; intro H; simpl.
  - exists []. now split.
  - destruct (H x (or_introl eq_refl)) as (y & -> & Hy).
    destruct IH as (ys & -> & Hys); [intros; apply H; now right|].
    simpl. exists (y :: ys). split; [reflexivity | now constructor].
Qed.

Lemma slots_Ok (num : list nat) total :
  list_sum num = total ->
  exists idx,
    res_map (idx_parrot_to_sampler (cumsum num)) (seq 0 total) = Ok idx /\
    Forall (fun j => j < length num) idx.
Proof.
  intro Hsum. apply res_map_Ok. intros i Hi. apply in_seq in Hi.
  destruct (idx_parrot_to_sampler_from num 0 0 i) as (k & Hk & Hlen & _);
    [lia|].
  exists k. now split.
Qed.

Lemma np_unique_inverse_bound ar j :
  In j (snd (np_unique ar)) -> j < length (fst (np_unique ar)).
Proof.
  intro Hin. apply In_nth_error in Hin. destruct Hin as (i & Hi).
  assert (Hlt : i < length ar).
  { rewrite <- np_unique_inverse_length. apply nth_error_Some. congruence. }
  destruct (nth_error ar i) as [x|] eqn:Hx;
    [|apply nth_error_None in Hx; lia].
  destruct (np_unique_spec ar i x Hx) as (j' & u & Hj' & Hu & _).
  assert (j' = j) by congruence. subst j'.
  apply nth_error_Some. congruence.
Qed.

Lemma has_model_same s s' model :
  Nest.Models s' = Nest.Models s ->
  Nest.has_model s' model = Nest.has_model s model.
Proof. unfold Nest.has_model. now intros ->. Qed.

Lemma bind_step {A B} (m : M A) (k : A -> M B) s s1 a :
  m s = (s1, Ok a) -> bind m k s = k a s1.
Proof. unfold bind. now intros ->. Qed.

Lemma lift_run {A} (r : res A) s a : r = Ok a -> lift r s = (s, Ok a).
Proof. unfold lift. now intros ->. Qed.

Lemma nest_Create_run model n s :
  Nest.has_model s model = true ->
  nest_Create model n s =
    (Nest.mkState (Nest.Models s) (Nest.nodes s ++ repeat model n)
       (Nest.status s) (Nest.connections s),
     Ok (seq (S (length (Nest.nodes s))) n)).
Proof. unfold nest_Create. now intros ->. Qed.

Lemma nest_Connect_one_to_one_run pre post weight s :
  length pre = length post ->
  match weight with Some w => length w = length pre | None => True end ->
  exists s',
    nest_Connect_one_to_one pre post weight s = (s', Ok tt) /\
    Nest.Models s' = Nest.Models s.
Proof.
  intros Hl Hw. unfold nest_Connect_one_to_one.
  rewrite Hl, Nat.eqb_refl. destruct weight as [w|].
  - rewrite Hw, Hl, Nat.eqb_refl. simpl. eexists. split; reflexivity.
  - simpl. eexists. split; reflexivity.
Qed.

Lemma poisson_build_succeeds conv model kwargs num rs ws gids duration s :
  Nest.has_model s model = true ->
  Nest.has_model s "parrot_neuron" = true ->
  list_sum num = length rs ->
  length ws = length rs ->
  length num <= length gids ->
  exists s' srcs,
    poisson_build conv model kwargs num rs ws gids duration s = (s', Ok srcs).
Proof.
  intros Hmodel Hparrot Hsum Hws Hgids. unfold poisson_build.
  rewrite (bind_step _ _ _ _ _ (nest_Create_run model _ s Hmodel)).
  set (s1 := Nest.mkState _ _ _ _).
  set (gens := seq _ (length (fst (np_unique rs)))).
  assert (Hp1 : Nest.has_model s1 "parrot_neuron" = true) by exact Hparrot.
  rewrite (bind_step _ _ _ _ _ (nest_Create_run "parrot_neuron" _ s1 Hp1)).
  set (s2 := Nest.mkState _ _ _ _).
  set (prts := seq _ (length rs)).
  assert (Hlp : length prts = length rs) by (unfold prts; apply length_seq).
  assert (Hset : exists s3,
    nest_SetStatus_each gens
      (map (fun r => [("rate", r); ("start", 0%Q); ("stop", duration)])
           (fst (np_unique rs))) s2 = (s3, Ok tt)).
  { unfold nest_SetStatus_each, gens.
    rewrite length_seq, length_map, Nat.eqb_refl. eexists. reflexivity. }
  destruct Hset as (s3 & Hset). rewrite (bind_step _ _ _ _ _ Hset).
  assert (Hkw : exists s4,
    (if 0 <? length kwargs then nest_SetStatus gens kwargs else ret tt) s3
      = (s4, Ok tt)).
  { destruct (0 <? length kwargs); eexists; reflexivity. }
  destruct Hkw as (s4 & Hkw). rewrite (bind_step _ _ _ _ _ Hkw).
  destruct (take_Ok gens (snd (np_unique rs))) as (pre & Hpre).
  { intros i Hi. apply np_unique_inverse_bound in Hi.
    unfold gens. now rewrite length_seq. }
  assert (Hlpre : length pre = length prts).
  { apply take_length in Hpre.
    now rewrite Hpre, np_unique_inverse_length, Hlp. }
  rewrite (bind_step _ _ _ _ _ (lift_run _ s4 _ Hpre)).
  destruct (nest_Connect_one_to_one_run pre prts None s4 Hlpre I)
    as (s5 & Hc1 & _).
  rewrite (bind_step _ _ _ _ _ Hc1).
  destruct (slots_Ok num (length prts)) as (idx & Hidx & Hbound).
  { now rewrite Hlp. }
  rewrite (bind_step _ _ _ _ _ (lift_run _ s5 _ Hidx)).
  destruct (take_Ok gids idx) as (post & Hpost).
  { intros i Hi. rewrite Forall_forall in Hbound.
    specialize (Hbound i Hi). lia. }
  rewrite (bind_step _ _ _ _ _ (lift_run _ s5 _ Hpost)).
  assert (Hlpost : length prts = length post).
  { apply take_length in Hpost. rewrite Hpost.
    apply res_map_length in Hidx. now rewrite Hidx, length_seq. }
  destruct (nest_Connect_one_to_one_run prts post
              (Some (map conv ws)) s5 Hlpost) as (s6 & Hc2 & _).
  { simpl. rewrite length_map, Hws. symmetry. exact Hlp. }
  rewrite (bind_step _ _ _ _ _ Hc2). unfold ret. eexists. eexists.
  reflexivity.
Qed.

(** ** What a completed Poisson build leaves in the kernel *)

Tactic Notation "bind_inv" hyp(H) "as" ident(a) ident(s1) ident(H1) :=
  apply bind_Ok_inv in H; destruct H as (a & s1 & H1 & H).

Lemma lift_Ok_inv {A} (r : res A) s s' a :
  lift r s = (s', Ok a) -> s' = s /\ r = Ok a.
Proof. intro H. apply lift_inv in H. destruct H as (-> & H). now split. Qed.

Lemma poisson_build_Ok conv model kwargs num rs ws gids duration s s' srcs :
  poisson_build conv model kwargs num rs ws gids duration s = (s', Ok srcs) ->
  let k := length (fst (np_unique rs)) in
  generators srcs = seq (S (length (Nest.nodes s))) k /\
  parrots srcs = seq (S (length (Nest.nodes s ++ repeat model k))) (length rs) /\
  Nest.nodes s' =
    (Nest.nodes s ++ repeat model k) ++ repeat "parrot_neuron" (length rs) /\
  exists generator_to_parrot parrot_to_sampler,
    Nest.connections s' =
      (Nest.connections s ++ generator_to_parrot) ++ parrot_to_sampler /\
    map Nest.conn_post generator_to_parrot = parrots srcs /\
    take (generators srcs) (snd (np_unique rs))
      = Ok (map Nest.conn_pre generator_to_parrot) /\
    map Nest.conn_pre parrot_to_sampler = parrots srcs /\
    filter Nest.has_weight generator_to_parrot = [] /\
    filter Nest.has_weight parrot_to_sampler = parrot_to_sampler /\
    exists idx_samplers,
      res_map (idx_parrot_to_sampler (cumsum num)) (seq 0 (length rs))
        = Ok idx_samplers /\
      take gids idx_samplers = Ok (map Nest.conn_post parrot_to_sampler).
Proof.
  unfold poisson_build. intro H.
  bind_inv H as gens s1 Hgens. apply nest_Create_Ok in Hgens.
  destruct Hgens as (_ & -> & ->).
  bind_inv H as prts s2 Hprts. apply nest_Create_Ok in Hprts.
  destruct Hprts as (_ & -> & ->).
  cbn [Nest.nodes Nest.connections Nest.Models Nest.status] in *.
  bind_inv H as u1 s3 Hset. apply nest_SetStatus_each_Ok in Hset.
  destruct Hset as (_ & Hn1 & Hc1).
  cbn [Nest.nodes Nest.connections] in Hn1, Hc1.
  bind_inv H as u2 s4 Hkw.
  assert (Hkw' : Nest.nodes s4 = Nest.nodes s3 /\
                 Nest.connections s4 = Nest.connections s3).
  { destruct (0 <? length kwargs).
    - apply nest_SetStatus_Ok in Hkw. tauto.
    - unfold ret in Hkw. injection Hkw as <- _. tauto. }
  destruct Hkw' as (Hn2 & Hc2). clear Hkw.
  bind_inv H as pre s5 Hpre. apply lift_Ok_inv in Hpre.
  destruct Hpre as (-> & Hpre).
  bind_inv H as u3 s6 Hconn1. apply nest_Connect_one_to_one_Ok in Hconn1.
  destruct Hconn1 as (_ & Hn3 & _ & rows1 & Hc3 & Hpre1 & Hpost1 & Hw1).
  bind_inv H as idx s7 Hidx. apply lift_Ok_inv in Hidx.
  destruct Hidx as (-> & Hidx).
  bind_inv H as post s8 Hpost. apply lift_Ok_inv in Hpost.
  destruct Hpost as (-> & Hpost).
  bind_inv H as u4 s9 Hconn2. apply nest_Connect_one_to_one_Ok in Hconn2.
  destruct Hconn2 as (_ & Hn4 & _ & rows2 & Hc4 & Hpre2 & Hpost2 & Hw2).
  unfold ret in H. injection H as <- <-.
  cbn [generators parrots]. rewrite length_seq in Hidx.
  split; [reflexivity|]. split; [reflexivity|]. split.
  - rewrite Hn4, Hn3, Hn2, Hn1. reflexivity.
  - exists rows1, rows2. rewrite Hc4, Hc3, Hc2, Hc1.
    split; [reflexivity|]. split; [exact Hpost1|].
    split; [now rewrite Hpre1|]. split; [exact Hpre2|].
    split; [exact Hw1|]. split; [exact Hw2|].
    exists idx. split; [exact Hidx|]. now rewrite Hpost2.
Qed.

Lemma create_nest_optimized_unfold conv self samplers gids duration s :
  create_nest_optimized conv self samplers gids duration s =
  match poisson_gather self samplers with
  | Ok g =>
      let lookahead := Nest.has_model s "lookahead_poisson_generator" in
      poisson_build conv
        (if lookahead then "lookahead_poisson_generator"
         else "poisson_generator")
        (if lookahead then [("steps_lookahead", 10000%Q)] else [])
        (fst (fst g)) (snd (fst g)) (snd g) gids duration s
  | Raise e => (s, Raise e)
  end.
Proof.
  unfold create_nest_optimized, bind, nest_Models, lift.
  destruct (poisson_gather self samplers); reflexivity.
Qed.

Lemma sinus_create_nest_unfold conv self samplers gids s :
  Sinus.create_nest conv self samplers gids s =
  match Sinus.gather self samplers with
  | Ok g => Sinus.build conv g gids s
  | Raise e => (s, Raise e)
  end.
Proof.
  unfold Sinus.create_nest, bind, lift.
  destruct (Sinus.gather self samplers); reflexivity.
Qed.

(** Within one build call a validation raise comes out of the flattening
    block, before the first [nest.Create]. *)
Lemma create_nest_optimized_validation_first
    conv self samplers gids duration s s' e :
  create_nest_optimized conv self samplers gids duration s = (s', Raise e) ->
  is_validation_error e = true ->
  s' = s /\ poisson_gather self samplers = Raise e.
Proof.
  rewrite create_nest_optimized_unfold.
  destruct (poisson_gather self samplers) as [g|e0]; intros H Hv.
  - apply poisson_build_backend_only in H. congruence.
  - injection H as <- <-. now split.
Qed.

Lemma sinus_create_nest_validation_first conv self samplers gids s s' e :
  Sinus.create_nest conv self samplers gids s = (s', Raise e) ->
  is_validation_error e = true ->
  s' = s /\ Sinus.gather self samplers = Raise e.
Proof.
  rewrite sinus_create_nest_unfold.
  destruct (Sinus.gather self samplers) as [g|e0]; intros H Hv.
  - apply sinus_build_backend_only in H. congruence.
  - injection H as <- <-. now split.
Qed.

Lemma is_degenerate_validation e :
  is_degenerate e -> is_validation_error e = true.
Proof. intros [-> | ->]; reflexivity. Qed.

(** ** Degeneracy guard and wiring-row count of the Poisson compile *)

Lemma strictly_one_sign_spec ws :
  strictly_one_sign ws = true <->
  Forall (fun w => (0 < w)%Q) ws \/ Forall (fun w => (w < 0)%Q) ws.
Proof.
  unfold strictly_one_sign. rewrite orb_true_iff, !forallb_forall, !Forall_forall.
  split; (intros [H | H]; [left | right]); intros w Hw;
    first [apply gt0_spec | apply lt0_spec]; now apply H.
Qed.

Lemma canonical_one_sign_spec ws :
  canonical_one_sign ws = true <->
  Forall (fun w => (0 < w)%Q) ws \/ Forall (fun w => (w <= 0)%Q) ws.
Proof.
  unfold canonical_one_sign.
  rewrite orb_true_iff, !forallb_forall, !Forall_forall.
  split; (intros [H | H]; [left | right]); intros w Hw.
  - apply gt0_spec. now apply H.
  - apply gt0_false_spec, negb_true_iff. now apply H.
  - apply gt0_spec. now apply H.
  - apply negb_true_iff, gt0_false_spec. now apply H.
Qed.

(** A stock kernel: the models the builds ask for, and [n] sampler neurons
    created beforehand (gids [1..n]). *)
Definition stock_models : list string :=
  ["iaf_cond_exp"; "parrot_neuron"; "poisson_generator";
   "sinusoidal_poisson_generator"; "multi_poisson_generator"].

Definition kernel_with_samplers (n : nat) : Nest.state :=
  Nest.mkState stock_models (repeat "iaf_cond_exp" n) [] [].

(** The unit factor used in the worked examples. *)
Definition times_1000 (w : float) : float := (w * 1000)%Q.

(** C4, as stated, fails: the weights [0, -0.001] are all inhibitory under
    the canonical rule, and the shared-generator compile goes through. *)
Lemma C4_all_nonpositive_not_rejected :
  let self := mkPoisson [2000%Q; 2000%Q] [0%Q; (-1 # 1000)%Q] in
  canonical_one_sign (weights self) = true /\
  exists s' srcs,
    create_nest_optimized times_1000 self (Population 2) [1; 2] 1000%Q
      (kernel_with_samplers 2) = (s', Ok srcs).
Proof.
  split; [reflexivity|]. eexists. eexists. vm_compute. reflexivity.
Qed.

(** C4 (amended): a shared-generator compile over a non-empty population
    raises the degenerate-configuration error exactly when all weights are
    strictly positive or all are strictly negative, in the Poisson and in the
    sinus-Poisson build alike; any other weight vector (mixed signs, or with
    a zero among weights of one sign) passes the guard, and the Poisson
    compile then completes on a kernel that offers the generator and parrot
    models and one gid per sampler. *)
Theorem C4_degeneracy_guard conv (self : PoissonSourceConfiguration)
    (sinus : Sinus.configuration) n gids duration s (Hn : 0 < n) :
  ((exists s' e,
       create_nest_optimized conv self (Population n) gids duration s
         = (s', Raise e) /\ is_degenerate e) <->
   (Forall (fun w => (0 < w)%Q) (weights self) \/
    Forall (fun w => (w < 0)%Q) (weights self))) /\
  ((exists s' e,
       Sinus.create_nest conv sinus (Population n) gids s = (s', Raise e) /\
       is_degenerate e) <->
   (Forall (fun w => (0 < w)%Q) (Sinus.weights sinus) \/
    Forall (fun w => (w < 0)%Q) (Sinus.weights sinus))) /\
  (strictly_one_sign (Sinus.weights sinus) = false ->
   exists g, Sinus.gather sinus (Population n) = Ok g) /\
  (strictly_one_sign (weights self) = false ->
   Nest.has_model s "parrot_neuron" = true ->
   Nest.has_model s "lookahead_poisson_generator"
     || Nest.has_model s "poisson_generator" = true ->
   length (weights self) = length (rates self) ->
   n <= length gids ->
   exists s' srcs,
     create_nest_optimized conv self (Population n) gids duration s
       = (s', Ok srcs)).
Proof.
  repeat split.
  - intros (s' & e & H & Hd). apply strictly_one_sign_spec.
    apply create_nest_optimized_validation_first in H;
      [|now apply is_degenerate_validation].
    destruct H as (_ & H).
    destruct (poisson_gather_population self n Hn) as [(Hs & _) | (_ & Hg)];
      [exact Hs | congruence].
  - intro Hs. apply strictly_one_sign_spec in Hs.
    destruct (poisson_gather_population self n Hn)
      as [(_ & e & He & Hd) | (Hs' & _)]; [|congruence].
    exists s, e. split; [|exact Hd].
    rewrite create_nest_optimized_unfold. now rewrite He.
  - intros (s' & e & H & Hd). apply strictly_one_sign_spec.
    apply sinus_create_nest_validation_first in H;
      [|now apply is_degenerate_validation].
    destruct H as (_ & H).
    destruct (sinus_gather_population sinus n Hn)
      as [(Hs & _) | (_ & g & Hg & _)]; [exact Hs | congruence].
  - intro Hs. apply strictly_one_sign_spec in Hs.
    destruct (sinus_gather_population sinus n Hn)
      as [(_ & e & He & Hd) | (Hs' & _)]; [|congruence].
    exists s, e. split; [|exact Hd].
    rewrite sinus_create_nest_unfold. now rewrite He.
  - intro Hs.
    destruct (sinus_gather_population sinus n Hn)
      as [(Hs' & _) | (_ & g & Hg & _)]; [congruence | now exists g].
  - intros Hs Hparrot Hmodel Hlen Hgids.
    destruct (poisson_gather_population self n Hn) as [(Hs' & _) | (_ & Hg)];
      [congruence|].
    rewrite create_nest_optimized_unfold, Hg. cbv zeta.
    cbn [fst snd]. apply poisson_build_succeeds.
    + destruct (Nest.has_model s "lookahead_poisson_generator") eqn:E;
        [exact E | exact Hmodel].
    + exact Hparrot.
    + now rewrite length_concat_repeat.
    + now rewrite !length_concat_repeat, Hlen.
    + now rewrite repeat_length.
Qed.

Lemma C4_degeneracy_guard_witness :
  0 < 2 /\
  exists s' srcs,
    create_nest_optimized times_1000
      (mkPoisson [2000%Q; 2000%Q] [(1 # 1000)%Q; (-1 # 1000)%Q])
      (Population 2) [1; 2] 1000%Q (kernel_with_samplers 2) = (s', Ok srcs).
Proof.
  split; [lia|].
  refine (proj2 (proj2 (proj2
            (C4_degeneracy_guard times_1000
               (mkPoisson [2000%Q; 2000%Q] [(1 # 1000)%Q; (-1 # 1000)%Q])
               (Sinus.mkSinus [] [] [] [] [] true) 2 [1; 2] 1000%Q
               (kernel_with_samplers 2) _))) _ _ _ _ _);
    first [reflexivity | simpl; lia].
Defined.

Lemma filter_repeat_other (m m' : string) k :
  String.eqb m m' = false -> filter (String.eqb m) (repeat m' k) = [].
Proof. intro H. induction k as [|k IH]; simpl; [|rewrite H]; auto. Qed.

Lemma filter_repeat_same (m : string) k :
  filter (String.eqb m) (repeat m k) = repeat m k.
Proof.
  induction k as [|k IH]; simpl; [reflexivity|].
  now rewrite String.eqb_refl, IH.
Qed.

(** Row [i] of the parrot-to-sampler wiring leads from parrot [i] to the
    sampler that [idx_parrot_to_sampler] finds for slot [i]. *)
Lemma create_nest_optimized_rows
    conv self samplers gids duration s s' srcs
    (H : create_nest_optimized conv self samplers gids duration s
           = (s', Ok srcs)) :
  let total := total_specs self samplers in
  length (parrots srcs) = total /\
  Nest.count_nodes s' "parrot_neuron"
    = Nest.count_nodes s "parrot_neuron" + total /\
  exists generator_to_parrot parrot_to_sampler,
    Nest.connections s' =
      (Nest.connections s ++ generator_to_parrot) ++ parrot_to_sampler /\
    length parrot_to_sampler = total /\
    map Nest.conn_pre parrot_to_sampler = parrots srcs /\
    length generator_to_parrot = total /\
    map Nest.conn_post generator_to_parrot = parrots srcs /\
    exists num idx_samplers,
      list_sum num = total /\ length num = n_samplers samplers /\
      res_map (idx_parrot_to_sampler (cumsum num)) (seq 0 total)
        = Ok idx_samplers /\
      take gids idx_samplers = Ok (map Nest.conn_post parrot_to_sampler).
Proof.
  rewrite create_nest_optimized_unfold in H.
  destruct (poisson_gather self samplers) as [[[num rs] ws]|] eqn:Hg;
    [|discriminate].
  apply poisson_gather_Ok in Hg. destruct Hg as (Hsum & Htotal & Hnum).
  cbv zeta in H. cbn [fst snd] in H.
  set (model := if Nest.has_model s "lookahead_poisson_generator"
                then "lookahead_poisson_generator"
                else "poisson_generator") in H.
  assert (Hmodel : String.eqb "parrot_neuron" model = false).
  { unfold model. now destruct (Nest.has_model s _). }
  apply poisson_build_Ok in H. cbv zeta in H.
  destruct H as (_ & Hprts & Hnodes & g2p & p2s & Hconn & Hpost1 & _ &
                 Hpre2 & _ & _ & idx & Hidx & Htake).
  cbv zeta. rewrite <- Htotal.
  assert (Hlen : length (parrots srcs) = length rs)
    by (rewrite Hprts; apply length_seq).
  split; [exact Hlen|]. split.
  - unfold Nest.count_nodes. rewrite Hnodes, !filter_app, !length_app.
    rewrite filter_repeat_other by exact Hmodel.
    rewrite filter_repeat_same, repeat_length. simpl. lia.
  - exists g2p, p2s. split; [exact Hconn|].
    split; [rewrite <- Hlen, <- Hpre2; now rewrite length_map|].
    split; [exact Hpre2|].
    split; [rewrite <- Hlen, <- Hpost1; now rewrite length_map|].
    split; [exact Hpost1|].
    exists num, idx. auto.
Qed.

(** Scenario B of the specification: two targets, weights [0.001, -0.001],
    rates [2000, 2000]. *)
Definition scenario_b : samplers_of PoissonSourceConfiguration :=
  Samplers [mkPoisson [2000%Q] [(1 # 1000)%Q];
            mkPoisson [2000%Q] [(-1 # 1000)%Q]].

(** ** The shared-spike-train mode of the sinus-Poisson build *)

(** Scenario C of the specification: three targets sharing one rate,
    [individual_spike_trains = False]. *)
Definition scenario_c_config : Sinus.configuration :=
  Sinus.mkSinus [(1 # 1000)%Q] [2000%Q] [1000%Q] [5%Q] [0%Q] false.

Definition scenario_c : samplers_of Sinus.configuration :=
  Samplers [scenario_c_config; scenario_c_config; scenario_c_config].

(** C5: with [individual_spike_trains = False] a hidden generator layer and
    a relay layer of the same size are created, and three targets sharing one
    rate get 1 hidden generator, 1 shared relay and 3 visible relays.
    Evaluated on a stock kernel: the build creates the one generator, asks
    for a relay of model ["parrot_neurons"] (every other site of the file
    creates ["parrot_neuron"]), and ends in NEST's unknown-model error with
    no relay created and nothing wired. *)
Theorem C5_shared_relay_layer_is_not_created :
  let r := Sinus.create_nest times_1000 scenario_c_config scenario_c
             [1; 2; 3] (kernel_with_samplers 3) in
  snd r = Raise (NESTError "UnknownModelName: parrot_neurons") /\
  Nest.nodes (fst r) =
    repeat "iaf_cond_exp" 3 ++ ["sinusoidal_poisson_generator"] /\
  Nest.count_nodes (fst r) "parrot_neuron" = 0 /\
  Nest.connections (fst r) = [].
Proof. cbv zeta. repeat split; vm_compute; reflexivity. Qed.

(** On a kernel that did offer a model of that name the layers would have
    the sizes of scenario C; the generator parameters, however, are then set
    on the relay (gid 5) and the hidden generator (gid 4) keeps its
    defaults, because [gid_generators] has been rebound to the relay layer
    before the [SetStatus] loop. *)
Lemma sinus_shared_layer_on_lenient_kernel :
  let kernel := Nest.mkState ("parrot_neurons" :: stock_models)
                  (repeat "iaf_cond_exp" 3) [] [] in
  let r := Sinus.create_nest times_1000 scenario_c_config scenario_c
             [1; 2; 3] kernel in
  snd r = Ok (mkSources [5] [6; 7; 8]) /\
  Nest.nodes (fst r) =
    repeat "iaf_cond_exp" 3 ++
    ["sinusoidal_poisson_generator"; "parrot_neurons";
     "parrot_neuron"; "parrot_neuron"; "parrot_neuron"] /\
  map (fun c => (Nest.conn_pre c, Nest.conn_post c)) (Nest.connections (fst r))
    = [(4, 5); (5, 6); (5, 7); (5, 8); (6, 1); (7, 2); (8, 3)] /\
  map (fun e => fst (fst e)) (Nest.status (fst r)) = [5; 5; 5; 5; 5; 5].
Proof. cbv zeta. repeat split; vm_compute; reflexivity. Qed.

(** The default mode on the same three targets: one generator, three
    parrots, each wired to its own target. *)
Lemma sinus_individual_trains_example :
  let cfg := Sinus.mkSinus [(1 # 1000)%Q] [2000%Q] [1000%Q] [5%Q] [0%Q] true in
  let r := Sinus.create_nest times_1000 cfg (Samplers [cfg; cfg; cfg])
             [1; 2; 3] (kernel_with_samplers 3) in
  snd r = Ok (mkSources [4] [5; 6; 7]) /\
  map (fun c => (Nest.conn_pre c, Nest.conn_post c)) (Nest.connections (fst r))
    = [(4, 5); (4, 6); (4, 7); (5, 1); (6, 2); (7, 3)].
Proof. cbv zeta. repeat split; vm_compute; reflexivity. Qed.

(** ** Partitioning the samplers by configuration class *)

Section Partitioner.

Context {sampler cls result : Type}.

(** [lambda s: s.source_config.__class__], and equality of classes. *)
Variable class_of : sampler -> cls.
Variable cls_eq_dec : forall a b : cls, {a = b} + {a <> b}.

(** [l_samplers[0].source_config.create_connect(sim, l_samplers, ...)]. *)
Variable create_connect : sampler -> list sampler -> M result.

(** [itertools.groupby(samplers, key)]: maximal runs of consecutive
    elements with equal key, in order. *)
Fixpoint groupby (samplers : list sampler) : list (cls * list sampler) :=
  match samplers with
  | [] => []
  | x :: t =>
      match groupby t with
      | (k, g) :: rest =>
          if cls_eq_dec (class_of x) k then (k, x :: g) :: rest
          else (class_of x, [x]) :: (k, g) :: rest
      | [] => [(class_of x, [x])]
      end
  end.

Fixpoint create_groups (groups : list (cls * list sampler))
  : M (list result) :=
  match groups with
  | [] => ret []
  | (_, l_samplers) :: rest =>
      first <- lift (first_item l_samplers) ;;
      r <- create_connect first l_samplers ;;
      results <- create_groups rest ;;
      ret (r :: results)
  end.

(** [sources_create_connect]. *)
Definition sources_create_connect (samplers : list sampler)
  : M (list result) :=
  create_groups (groupby samplers).

(** The group a flat position falls into. *)
Fixpoint group_index (groups : list (list sampler)) (i : nat) : option nat :=
  match groups with
  | [] => None
  | g :: rest =>
      if i <? length g then Some 0
      else option_map S (group_index rest (i - length g))
  end.

Fixpoint keys_alternate (keys : list cls) : Prop :=
  match keys with
  | a :: (b :: _) as t => a <> b /\ keys_alternate t
  | _ => True
  end.

Lemma groupby_concat samplers :
  concat (map snd (groupby samplers)) = samplers.
Proof.
  induction samplers as [|x t IH]; simpl; [reflexivity|].
  destruct (groupby t) as [|[k g] rest]; simpl in *.
  - now subst t.
  - destruct (cls_eq_dec (class_of x) k); simpl; now rewrite IH.
Qed.

Lemma groupby_keys samplers :
  Forall (fun kg => snd kg <> [] /\
                    Forall (fun s => class_of s = fst kg) (snd kg))
         (groupby samplers).
Proof.
  induction samplers as [|x t IH]; simpl; [constructor|].
  destruct (groupby t) as [|[k g] rest].
  - constructor; [|constructor]. simpl. split; [discriminate|].
    now repeat constructor.
  - inversion IH as [|? ? (Hne & Hk) Hrest]; subst. simpl in *.
    destruct (cls_eq_dec (class_of x) k) as [E|E].
    + constructor; [|exact Hrest]. simpl. split; [discriminate|].
      now constructor.
    + constructor; [|exact IH]. simpl. split; [discriminate|].
      now repeat constructor.
Qed.

Lemma groupby_alternate samplers :
  keys_alternate (map fst (groupby samplers)).
Proof.
  induction samplers as [|x t IH]; simpl; [exact I|].
  destruct (groupby t) as [|[k g] rest]; [exact I|].
  destruct (cls_eq_dec (class_of x) k) as [E|E].
  - exact IH.
  - simpl. split; [exact E | exact IH].
Qed.

Lemma group_index_spec groups : forall i x,
  nth_error (concat groups) i = Some x ->
  exists j g, group_index groups i = Some j /\
              nth_error groups j = Some g /\ In x g.
Proof.
  induction groups as [|g rest IH]; intros i x H; simpl in *.
  - destruct i; discriminate.
  - destruct (i <? length g) eqn:E.
    + apply Nat.ltb_lt in E. rewrite nth_error_app1 in H by exact E.
      exists 0, g. repeat split. eapply nth_error_In; eassumption.
    + apply Nat.ltb_ge in E. rewrite nth_error_app2 in H by exact E.
      destruct (IH _ _ H) as (j & g' & Hj & Hg & Hin).
      exists (S j), g'. rewrite Hj. now repeat split.
Qed.

Lemma group_index_mono groups : forall i j gi gj,
  i <= j -> group_index groups i = Some gi -> group_index groups j = Some gj ->
  gi <= gj.
Proof.
  induction groups as [|g rest IH]; intros i j gi gj Hij Hi Hj; simpl in *.
  - discriminate.
  - destruct (i <? length g) eqn:Ei.
    + injection Hi as <-. lia.
    + apply Nat.ltb_ge in Ei.
      destruct (j <? length g) eqn:Ej; [apply Nat.ltb_lt in Ej; lia|].
      destruct (group_index rest (i - length g)) as [gi'|] eqn:Hi';
        [|discriminate].
      destruct (group_index rest (j - length g)) as [gj'|] eqn:Hj';
        [|discriminate].
      simpl in Hi, Hj. injection Hi as <-. injection Hj as <-.
      apply le_n_S. eapply IH; [|eassumption..]. lia.
Qed.

End Partitioner.

Lemma groups_constant_key {sampler cls} (class_of : sampler -> cls)
    (groups : list (cls * list sampler)) j g :
  Forall (fun kg => snd kg <> [] /\
                    Forall (fun s => class_of s = fst kg) (snd kg)) groups ->
  nth_error (map snd groups) j = Some g ->
  exists k, forall s, In s g -> class_of s = k.
Proof.
  intros Hall Hj. rewrite nth_error_map in Hj.
  destruct (nth_error groups j) as [[k g']|] eqn:E; [|discriminate].
  simpl in Hj. injection Hj as <-.
  apply nth_error_In in E. rewrite Forall_forall in Hall.
  destruct (Hall _ E) as (_ & Hk). simpl in Hk. rewrite Forall_forall in Hk.
  now exists k.
Qed.

(** The calls a run makes: one [create_connect] per group, in the order
    of the groups, on the first sampler of the group with the whole group,
    each call starting from the kernel the one before has left. *)
Inductive calls_made {sampler result : Type}
    (create_connect : sampler -> list sampler -> M result)
  : list (list sampler) -> Nest.state -> Nest.state -> list result -> Prop :=
| calls_done s : calls_made create_connect [] s s []
| calls_step first l_samplers rest s s1 s' r results :
    first_item l_samplers = Ok first ->
    create_connect first l_samplers s = (s1, Ok r) ->
    calls_made create_connect rest s1 s' results ->
    calls_made create_connect (l_samplers :: rest) s s' (r :: results).

Lemma create_groups_calls {sampler cls result : Type}
    (create_connect : sampler -> list sampler -> M result)
    (groups : list (cls * list sampler)) : forall s s' results,
  create_groups create_connect groups s = (s', Ok results) <->
  calls_made create_connect (map snd groups) s s' results.
Proof.
  induction groups as [|[k l] rest IH]; intros s s' results; simpl.
  - unfold ret. split.
    + intro H. injection H as <- <-. constructor.
    + intro H. inversion H; subst. reflexivity.
  - split.
    + intro H. bind_inv H as first s1 Hf. bind_inv H as r s2 Hr.
      bind_inv H as rs s3 Hrs. unfold ret in H. injection H as <- <-.
      apply lift_Ok_inv in Hf. destruct Hf as (-> & Hf).
      apply IH in Hrs. econstructor; eassumption.
    + intro H. inversion H as [|first l' rest' s0 s1 s2 r rs Hf Hr Hrs];
        subst.
      rewrite (bind_step _ _ s s first (lift_run _ s first Hf)).
      rewrite (bind_step _ _ s s1 r Hr).
      apply IH in Hrs. rewrite (bind_step _ _ s1 s' rs Hrs). reflexivity.
Qed.

Lemma create_groups_fails {sampler cls result : Type}
    (create_connect : sampler -> list sampler -> M result)
    (groups : list (cls * list sampler)) :
  Forall (fun kg => snd kg <> []) groups ->
  forall s s' e,
  create_groups create_connect groups s = (s', Raise e) <->
  exists done l_samplers rest first s1 results,
    map snd groups = done ++ l_samplers :: rest /\
    calls_made create_connect done s s1 results /\
    first_item l_samplers = Ok first /\
    create_connect first l_samplers s1 = (s', Raise e).
Proof.
  induction groups as [|[k l] rest IH]; intros Hne s s' e; simpl.
  - split; [discriminate|].
    intros (done & l0 & rest0 & _ & _ & _ & H & _). destruct done; discriminate.
  - inversion Hne as [|? ? Hl Hrest]; subst. simpl in Hl.
    destruct l as [|first l]; [congruence|].
    rewrite (bind_step _ _ s s first (lift_run _ s first eq_refl)).
    split.
    + intro H. apply bind_Raise_inv in H.
      destruct H as [H | (r & s2 & H2 & H)].
      * exists [], (first :: l), (map snd rest), first, s, [].
        repeat split; [constructor | exact H].
      * apply bind_Raise_inv in H. destruct H as [H | (rs & s3 & _ & H)];
          [|discriminate].
        apply (IH Hrest) in H.
        destruct H as (done & l0 & rest0 & f & s1 & rs & Hg & Hdone & Hf & Hr).
        exists ((first :: l) :: done), l0, rest0, f, s1, (r :: rs).
        rewrite Hg. repeat split; auto.
        econstructor; [reflexivity | exact H2 | exact Hdone].
    + intros (done & l0 & rest0 & f & s1 & rs & Hg & Hdone & Hf & Hr).
      destruct done as [|d done]; simpl in Hg.
      * injection Hg as <- Hrest0. inversion Hdone; subst.
        simpl in Hf. injection Hf as <-.
        unfold bind at 1. now rewrite Hr.
      * injection Hg as <- Hrest0.
        inversion Hdone as [|f0 l' rest' s0 s2 s3 r rs' Hf0 Hr0 Hrs0]; subst.
        simpl in Hf0. injection Hf0 as <-.
        rewrite (bind_step _ _ s s2 r Hr0).
        assert (Hfail : create_groups create_connect rest s2 = (s', Raise e)).
        { apply (IH Hrest). exists done, l0, rest0, f, s1, rs'.
          repeat split; auto. }
        unfold bind at 1. now rewrite Hfail.
Qed.

(** C7: [sources_create_connect] groups the samplers into runs of
    consecutive equal configuration class and makes one [create_connect]
    call per run, in order: it returns exactly when every call returns,
    with the results of the calls, and it raises exactly what the first
    failing call raises, the later runs being left out.  The runs,
    concatenated in order, are the input; every run is non-empty and of
    one class; neighbouring runs differ in class; and two samplers of one
    class with a sampler of another class between them lie in two runs,
    the earlier sampler in the earlier run. *)
Theorem C7_adjacency_only_grouping {sampler cls result : Type}
    (class_of : sampler -> cls)
    (cls_eq_dec : forall a b : cls, {a = b} + {a <> b})
    (create_connect : sampler -> list sampler -> M result)
    (samplers : list sampler) :
  let groups := groupby class_of cls_eq_dec samplers in
  (forall s s' results,
      sources_create_connect class_of cls_eq_dec create_connect samplers s
        = (s', Ok results)
      <-> calls_made create_connect (map snd groups) s s' results) /\
  (forall s s' e,
      sources_create_connect class_of cls_eq_dec create_connect samplers s
        = (s', Raise e)
      <-> exists done l_samplers rest first s1 results,
            map snd groups = done ++ l_samplers :: rest /\
            calls_made create_connect done s s1 results /\
            first_item l_samplers = Ok first /\
            create_connect first l_samplers s1 = (s', Raise e)) /\
  concat (map snd groups) = samplers /\
  Forall (fun kg => snd kg <> [] /\
                    Forall (fun s => class_of s = fst kg) (snd kg)) groups /\
  keys_alternate (map fst groups) /\
  (forall i j k a c b,
      i < j < k ->
      nth_error samplers i = Some a ->
      nth_error samplers j = Some c ->
      nth_error samplers k = Some b ->
      class_of a = class_of b -> class_of c <> class_of a ->
      exists gi gk,
        group_index (map snd groups) i = Some gi /\
        group_index (map snd groups) k = Some gk /\ gi < gk).
Proof.
  cbv zeta.
  pose proof (groupby_concat class_of cls_eq_dec samplers) as Hcat.
  pose proof (groupby_keys class_of cls_eq_dec samplers) as Hkeys.
  split; [intros s s' results; apply create_groups_calls|].
  split.
  { intros s s' e. apply create_groups_fails.
    eapply Forall_impl; [|exact Hkeys]. now intros kg (Hne & _). }
  split; [exact Hcat|]. split; [exact Hkeys|].
  split; [apply groupby_alternate|].
  intros i j k a c b (Hij & Hjk) Ha Hc Hb Hab Hca.
  rewrite <- Hcat in Ha, Hc, Hb.
  destruct (group_index_spec _ _ _ Ha) as (gi & ga & Hgi & Hga & Hina).
  destruct (group_index_spec _ _ _ Hc) as (gj & gc & Hgj & Hgc & Hinc).
  destruct (group_index_spec _ _ _ Hb) as (gk & gb & Hgk & Hgb & Hinb).
  exists gi, gk. split; [exact Hgi|]. split; [exact Hgk|].
  pose proof (group_index_mono _ i j gi gj ltac:(lia) Hgi Hgj) as H1.
  pose proof (group_index_mono _ j k gj gk ltac:(lia) Hgj Hgk) as H2.
  destruct (Nat.eq_dec gi gk) as [E|E]; [|lia]. exfalso.
  assert (gj = gi) by lia. subst gj gk.
  assert (gc = ga) by congruence. subst gc.
  destruct (groups_constant_key class_of _ _ _ Hkeys Hga) as (key & Hkey).
  apply Hca. now rewrite (Hkey a Hina), (Hkey c Hinc).
Qed.

(** ** Dispatch over the configuration classes *)

Inductive source_config : Type :=
| PoissonConfig (c : PoissonSourceConfiguration)
| SinusPoissonConfig (c : Sinus.configuration).

Inductive config_class : Type :=
| PoissonSourceConfiguration_class
| SinusPoissonSourceConfiguration_class.

Definition class_of_config (c : source_config) : config_class :=
  match c with
  | PoissonConfig _ => PoissonSourceConfiguration_class
  | SinusPoissonConfig _ => SinusPoissonSourceConfiguration_class
  end.

Definition config_class_eq_dec (a b : config_class) : {a = b} + {a <> b}.
Proof. decide equality. Defined.

(** A sampler: the neuron PyNN created for it and its source
    configuration. *)
Record sampler : Type := mkSampler {
  sampler_gid : Nest.gid;
  sampler_source_config : source_config
}.

Definition sampler_class (s : sampler) : config_class :=
  class_of_config (sampler_source_config s).

(** [s.source_config.rates] and the like on a sampler of the wrong class. *)
Definition as_poisson (s : sampler) : res PoissonSourceConfiguration :=
  match sampler_source_config s with
  | PoissonConfig c => Ok c
  | _ => Raise AttributeError
  end.

Definition as_sinus (s : sampler) : res Sinus.configuration :=
  match sampler_source_config s with
  | SinusPoissonConfig c => Ok c
  | _ => Raise AttributeError
  end.

(** [create_connect] of the configuration of the group's first sampler, on
    a [sim] that has [nest] and with the default [nest_optimized=True]. *)
Definition create_connect (weight_pynn_to_nest : float -> float)
    (duration : float) (first : sampler) (l_samplers : list sampler)
  : M sources :=
  match sampler_source_config first with
  | PoissonConfig self =>
      cfgs <- lift (res_map as_poisson l_samplers) ;;
      create_nest_optimized weight_pynn_to_nest self (Samplers cfgs)
        (map sampler_gid l_samplers) duration
  | SinusPoissonConfig self =>
      cfgs <- lift (res_map as_sinus l_samplers) ;;
      Sinus.create_nest weight_pynn_to_nest self (Samplers cfgs)
        (map sampler_gid l_samplers)
  end.

Lemma res_map_as_poisson_Raise l e :
  res_map as_poisson l = Raise e -> is_validation_error e = false.
Proof.
  revert e. induction l as [|x t IH]; intros e H; simpl in H; [discriminate|].
  unfold as_poisson in H at 1. destruct (sampler_source_config x); simpl in H.
  - destruct (res_map as_poisson t); simpl in H; [discriminate|].
    injection H as <-. now apply IH.
  - now injection H as <-.
Qed.

Lemma res_map_as_sinus_Raise l e :
  res_map as_sinus l = Raise e -> is_validation_error e = false.
Proof.
  revert e. induction l as [|x t IH]; intros e H; simpl in H; [discriminate|].
  unfold as_sinus in H at 1. destruct (sampler_source_config x); simpl in H.
  - now injection H as <-.
  - destruct (res_map as_sinus t); simpl in H; [discriminate|].
    injection H as <-. now apply IH.
Qed.

Lemma create_connect_validation_first conv duration first l s s' e :
  create_connect conv duration first l s = (s', Raise e) ->
  is_validation_error e = true -> s' = s.
Proof.
  unfold create_connect. intros H Hv.
  destruct (sampler_source_config first) as [self | self];
    apply bind_Raise_inv in H;
    destruct H as [H | (cfgs & s1 & H1 & H)].
  - apply lift_inv in H. destruct H as (_ & H). symmetry in H.
    apply res_map_as_poisson_Raise in H. congruence.
  - apply lift_inv in H1. destruct H1 as (-> & _).
    now apply create_nest_optimized_validation_first in H.
  - apply lift_inv in H. destruct H as (_ & H). symmetry in H.
    apply res_map_as_sinus_Raise in H. congruence.
  - apply lift_inv in H1. destruct H1 as (-> & _).
    now apply sinus_create_nest_validation_first in H.
Qed.

(** A validation raise out of the loop over the groups comes from one
    group's own call; the groups before it have been built in full. *)
Lemma create_groups_validation {smp cls result : Type}
    (cc : smp -> list smp -> M result)
    (Hcc : forall first l s s' e, cc first l s = (s', Raise e) ->
                                   is_validation_error e = true -> s' = s)
    (groups : list (cls * list smp)) : forall s s' e,
  create_groups cc groups s = (s', Raise e) ->
  is_validation_error e = true ->
  exists done g rest results first,
    groups = done ++ g :: rest /\
    create_groups cc done s = (s', Ok results) /\
    first_item (snd g) = Ok first /\
    cc first (snd g) s' = (s', Raise e).
Proof.
  induction groups as [|[k l] rest IH]; intros s s' e H Hv; simpl in H.
  - discriminate.
  - apply bind_Raise_inv in H. destruct H as [H | (first & s1 & H1 & H)].
    + apply lift_inv in H. destruct H as (_ & H).
      destruct l; simpl in H; [|discriminate]. injection H as ->.
      discriminate.
    + apply lift_inv in H1. destruct H1 as (-> & Hfirst).
      symmetry in Hfirst.
      apply bind_Raise_inv in H. destruct H as [H | (r & s2 & H2 & H)].
      * pose proof (Hcc _ _ _ _ _ H Hv) as ->.
        exists [], (k, l), rest, [], first. simpl.
        repeat split; auto.
      * apply bind_Raise_inv in H. destruct H as [H | (rs & s3 & _ & H)];
          [|discriminate].
        destruct (IH _ _ _ H Hv)
          as (done & g & rest' & results & f & -> & Hdone & Hf & Hfail).
        exists ((k, l) :: done), g, rest', (r :: results), f.
        repeat split; auto. simpl.
        rewrite (bind_step _ _ _ _ _ (lift_run _ s _ Hfirst)).
        rewrite (bind_step _ _ _ _ _ H2).
        rewrite (bind_step _ _ _ _ _ Hdone). reflexivity.
Qed.

(** ** Relays and wiring rows added by a build *)

(** What a build adds for [n] source specifications: [n] parrots, handed
    back in the result, and [n] weighted rows, row [i] starting at parrot
    [i]. *)
Definition adds_relays (s s' : Nest.state) (srcs : sources) (n : nat) : Prop :=
  length (parrots srcs) = n /\
  Nest.count_nodes s' "parrot_neuron" = Nest.count_nodes s "parrot_neuron" + n /\
  exists parrot_to_sampler,
    Nest.wiring_rows s' = Nest.wiring_rows s ++ parrot_to_sampler /\
    length parrot_to_sampler = n /\
    map Nest.conn_pre parrot_to_sampler = parrots srcs.

Lemma create_nest_optimized_adds_relays conv self samplers gids duration
    s s' srcs :
  create_nest_optimized conv self samplers gids duration s = (s', Ok srcs) ->
  adds_relays s s' srcs (total_specs self samplers).
Proof.
  intro H. rewrite create_nest_optimized_unfold in H.
  destruct (poisson_gather self samplers) as [[[num rs] ws]|] eqn:Hg;
    [|discriminate].
  apply poisson_gather_Ok in Hg. destruct Hg as (_ & Htotal & _).
  cbv zeta in H. cbn [fst snd] in H.
  set (model := if Nest.has_model s "lookahead_poisson_generator"
                then "lookahead_poisson_generator"
                else "poisson_generator") in H.
  assert (Hmodel : String.eqb "parrot_neuron" model = false).
  { unfold model. now destruct (Nest.has_model s _). }
  apply poisson_build_Ok in H. cbv zeta in H.
  destruct H as (_ & Hprts & Hnodes & g2p & p2s & Hconn & _ & _ &
                 Hpre2 & Hw1 & Hw2 & _).
  rewrite <- Htotal.
  assert (Hlen : length (parrots srcs) = length rs)
    by (rewrite Hprts; apply length_seq).
  split; [exact Hlen|]. split.
  - unfold Nest.count_nodes. rewrite Hnodes, !filter_app, !length_app.
    rewrite filter_repeat_other by exact Hmodel.
    rewrite filter_repeat_same, repeat_length. simpl. lia.
  - exists p2s. unfold Nest.wiring_rows.
    rewrite Hconn, !filter_app, Hw1, Hw2, app_nil_r.
    split; [reflexivity|]. split; [|exact Hpre2].
    rewrite <- Hlen, <- Hpre2. now rewrite length_map.
Qed.

Lemma sinus_configure_Ok unique : forall i gens idx s s' r,
  Sinus.configure i unique gens idx s = (s', Ok r) ->
  Nest.nodes s' = Nest.nodes s /\ Nest.connections s' = Nest.connections s.
Proof.
  induction unique as [|[idx0 p] rest IH]; intros i gens idx s s' r H;
    simpl in H.
  - unfold ret in H. injection H as <- _. now split.
  - bind_inv H as gid s1 Hg. apply lift_Ok_inv in Hg. destruct Hg as (-> & _).
    bind_inv H as u s2 Hs. apply nest_SetStatus_Ok in Hs.
    destruct Hs as (_ & Hn & Hc). apply IH in H. destruct H as (Hn' & Hc').
    split; congruence.
Qed.

Lemma sinus_gather_Ok self samplers gathered :
  Sinus.gather self samplers = Ok gathered ->
  length (Sinus.g_rates gathered) =
  match samplers with
  | Population n => list_sum (repeat (length (Sinus.rates self)) n)
  | Samplers cfgs => list_sum (map (fun c => length (Sinus.rates c)) cfgs)
  end.
Proof.
  destruct samplers as [n | cfgs]; simpl.
  - destruct (hstack (repeat (Sinus.rates self) n)) as [r|] eqn:Er;
      [|discriminate].
    apply hstack_Ok in Er. destruct Er as (-> & _). simpl.
    destruct (hstack (repeat (Sinus.weights self) n)); [|discriminate]. simpl.
    destruct (hstack (repeat (Sinus.amplitudes self) n)); [|discriminate].
    simpl.
    destruct (hstack (repeat (Sinus.frequencies self) n)); [|discriminate].
    simpl. destruct (hstack (repeat (Sinus.phases self) n)); [|discriminate].
    simpl. destruct (check_noise_signs _); [|discriminate]. simpl.
    intro H. injection H as <-. simpl. apply length_concat_repeat.
  - destruct (hstack (map Sinus.rates cfgs)) as [r|] eqn:Er; [|discriminate].
    apply hstack_Ok in Er. destruct Er as (-> & _). simpl.
    destruct (hstack (map Sinus.weights cfgs)); [|discriminate]. simpl.
    destruct (hstack (map Sinus.amplitudes cfgs)); [|discriminate]. simpl.
    destruct (hstack (map Sinus.frequencies cfgs)); [|discriminate]. simpl.
    destruct (hstack (map Sinus.phases cfgs)); [|discriminate]. simpl.
    destruct (first_item cfgs); [|discriminate]. simpl.
    destruct (negb _); [discriminate|].
    intro H. injection H as <-. simpl. apply length_concat_map.
Qed.

Lemma sinus_build_adds_relays conv gathered gids s s' srcs :
  Sinus.build conv gathered gids s = (s', Ok srcs) ->
  adds_relays s s' srcs (length (Sinus.g_rates gathered)).
Proof.
  unfold Sinus.build. intro H.
  bind_inv H as hidden s1 Hgens. apply nest_Create_Ok in Hgens.
  destruct Hgens as (_ & _ & ->).
  bind_inv H as gens s2 Hlayer.
  assert (Hl : exists extra rows0,
    Nest.nodes s2 = (Nest.nodes s ++
                     repeat Sinus.source_model
                       (length (Sinus.group_identical_parameters
                                  (Sinus.g_rates gathered)
                                  (Sinus.g_amplitudes gathered)
                                  (Sinus.g_frequencies gathered)
                                  (Sinus.g_phases gathered)))) ++ extra /\
    filter (String.eqb "parrot_neuron") extra = [] /\
    Nest.connections s2 = Nest.connections s ++ rows0 /\
    filter Nest.has_weight rows0 = []).
  { destruct (negb (Sinus.g_individual_spike_trains gathered)).
    - bind_inv Hlayer as relay s3 Hrelay. apply nest_Create_Ok in Hrelay.
      destruct Hrelay as (_ & _ & ->).
      bind_inv Hlayer as u s4 Hconn. apply nest_Connect_one_to_one_Ok in Hconn.
      destruct Hconn as (_ & Hn & _ & rows0 & Hc & _ & _ & Hw).
      unfold ret in Hlayer. injection Hlayer as <- _.
      exists (repeat "parrot_neurons" (length (Sinus.group_identical_parameters
                                  (Sinus.g_rates gathered)
                                  (Sinus.g_amplitudes gathered)
                                  (Sinus.g_frequencies gathered)
                                  (Sinus.g_phases gathered)))), rows0.
      rewrite Hn, Hc. cbn [Nest.nodes Nest.connections].
      repeat split; auto. now apply filter_repeat_other.
    - unfold ret in Hlayer. injection Hlayer as <- _.
      exists [], []. cbn [Nest.nodes Nest.connections].
      now rewrite !app_nil_r. }
  destruct Hl as (extra & rows0 & Hn2 & Hextra & Hc2 & Hw0). clear Hlayer.
  bind_inv H as prts s3 Hprts. apply nest_Create_Ok in Hprts.
  destruct Hprts as (_ & -> & ->).
  bind_inv H as idx s4 Hconf. apply sinus_configure_Ok in Hconf.
  cbn [Nest.nodes Nest.connections] in Hconf. destruct Hconf as (Hn4 & Hc4).
  bind_inv H as pre s5 Hpre. apply lift_Ok_inv in Hpre.
  destruct Hpre as (-> & _).
  bind_inv H as u1 s6 Hconn1. apply nest_Connect_one_to_one_Ok in Hconn1.
  destruct Hconn1 as (_ & Hn6 & _ & rows1 & Hc6 & _ & _ & Hw1).
  bind_inv H as idxs s7 Hidx. apply lift_Ok_inv in Hidx.
  destruct Hidx as (-> & _).
  bind_inv H as post s8 Hpost. apply lift_Ok_inv in Hpost.
  destruct Hpost as (-> & _).
  bind_inv H as u2 s9 Hconn2. apply nest_Connect_one_to_one_Ok in Hconn2.
  destruct Hconn2 as (_ & Hn9 & _ & rows2 & Hc9 & Hpre2 & _ & Hw2).
  unfold ret in H. injection H as <- <-. cbn [parrots].
  split; [apply length_seq|]. split.
  - unfold Nest.count_nodes. rewrite Hn9, Hn6, Hn4, Hn2.
    rewrite !filter_app, !length_app, Hextra.
    rewrite filter_repeat_other by reflexivity.
    rewrite filter_repeat_same, repeat_length. simpl. lia.
  - exists rows2. unfold Nest.wiring_rows.
    rewrite Hc9, Hc6, Hc4, Hc2, !filter_app, Hw0, Hw1, Hw2, !app_nil_r.
    split; [reflexivity|]. split; [|exact Hpre2].
    rewrite <- (length_map Nest.conn_pre), Hpre2. apply length_seq.
Qed.

(** The compile entry point over the two NEST-built classes. *)
Definition compile (weight_pynn_to_nest : float -> float) (duration : float)
    (samplers : list sampler) : M (list sources) :=
  sources_create_connect sampler_class config_class_eq_dec
    (create_connect weight_pynn_to_nest duration) samplers.

Definition sinus_sampler (gid : Nest.gid) (individual : bool) : sampler :=
  mkSampler gid
    (SinusPoissonConfig
       (Sinus.mkSinus [(1 # 1000)%Q] [2000%Q] [1000%Q] [5%Q] [0%Q] individual)).

Definition poisson_sampler (gid : Nest.gid) : sampler :=
  mkSampler gid (PoissonConfig (mkPoisson [2000%Q] [(1 # 1000)%Q])).

Lemma C7_adjacency_only_grouping_witness :
  let samplers := [poisson_sampler 1; sinus_sampler 2 true; poisson_sampler 3] in
  map snd (groupby sampler_class config_class_eq_dec samplers)
    = [[poisson_sampler 1]; [sinus_sampler 2 true]; [poisson_sampler 3]] /\
  calls_made (create_connect times_1000 1000%Q)
    [[poisson_sampler 1]; [sinus_sampler 2 true]; [poisson_sampler 3]]
    (kernel_with_samplers 3)
    (fst (compile times_1000 1000%Q samplers (kernel_with_samplers 3)))
    [mkSources [4] [5]; mkSources [6] [7]; mkSources [8] [9]] /\
  exists gi gk,
    group_index
      (map snd (groupby sampler_class config_class_eq_dec samplers)) 0
      = Some gi /\
    group_index
      (map snd (groupby sampler_class config_class_eq_dec samplers)) 2
      = Some gk /\
    gi < gk.
Proof.
  cbv zeta. split; [reflexivity|].
  pose proof (C7_adjacency_only_grouping sampler_class config_class_eq_dec
                (create_connect times_1000 1000%Q)
                [poisson_sampler 1; sinus_sampler 2 true; poisson_sampler 3])
    as (Hcalls & _ & _ & _ & _ & Hruns).
  split.
  - apply (Hcalls (kernel_with_samplers 3)). vm_compute. reflexivity.
  - refine (Hruns 0 1 2 (poisson_sampler 1) (sinus_sampler 2 true)
              (poisson_sampler 3) _ _ _ _ _ _);
      first [lia | reflexivity | discriminate].
Defined.

(** ** One relay and one wiring row per source specification *)

(** The number of source specifications of a sampler. *)
Definition spec_count (s : sampler) : nat :=
  match sampler_source_config s with
  | PoissonConfig c => length (rates c)
  | SinusPoissonConfig c => length (Sinus.rates c)
  end.

Lemma res_map_as_poisson_Ok l : forall cfgs,
  res_map as_poisson l = Ok cfgs ->
  map (fun c => length (rates c)) cfgs = map spec_count l.
Proof.
  induction l as [|x t IH]; intros cfgs H; simpl in H.
  - now injection H as <-.
  - unfold as_poisson in H at 1. unfold spec_count at 1. simpl.
    destruct (sampler_source_config x) as [c|c]; simpl in H; [|discriminate].
    destruct (res_map as_poisson t) as [cs|]; simpl in H; [|discriminate].
    injection H as <-. simpl. f_equal. now apply IH.
Qed.

Lemma res_map_as_sinus_Ok l : forall cfgs,
  res_map as_sinus l = Ok cfgs ->
  map (fun c => length (Sinus.rates c)) cfgs = map spec_count l.
Proof.
  induction l as [|x t IH]; intros cfgs H; simpl in H.
  - now injection H as <-.
  - unfold as_sinus in H at 1. unfold spec_count at 1. simpl.
    destruct (sampler_source_config x) as [c|c]; simpl in H; [discriminate|].
    destruct (res_map as_sinus t) as [cs|]; simpl in H; [|discriminate].
    injection H as <-. simpl. f_equal. now apply IH.
Qed.

Lemma create_connect_adds_relays conv duration first l s s' srcs :
  create_connect conv duration first l s = (s', Ok srcs) ->
  adds_relays s s' srcs (list_sum (map spec_count l)).
Proof.
  unfold create_connect. intro H.
  destruct (sampler_source_config first) as [self | self].
  - bind_inv H as cfgs s1 Hc. apply lift_Ok_inv in Hc.
    destruct Hc as (-> & Hc). apply res_map_as_poisson_Ok in Hc.
    apply create_nest_optimized_adds_relays in H. simpl in H.
    now rewrite Hc in H.
  - bind_inv H as cfgs s1 Hc. apply lift_Ok_inv in Hc.
    destruct Hc as (-> & Hc). apply res_map_as_sinus_Ok in Hc.
    rewrite sinus_create_nest_unfold in H.
    destruct (Sinus.gather self (Samplers cfgs)) as [gathered|] eqn:Hg;
      [|discriminate].
    apply sinus_gather_Ok in Hg. apply sinus_build_adds_relays in H.
    now rewrite Hg, Hc in H.
Qed.

Lemma create_groups_adds_relays conv duration
    (groups : list (config_class * list sampler)) : forall s s' results,
  create_groups (create_connect conv duration) groups s = (s', Ok results) ->
  let total := list_sum (map spec_count (concat (map snd groups))) in
  length (Nest.wiring_rows s') = length (Nest.wiring_rows s) + total /\
  Nest.count_nodes s' "parrot_neuron"
    = Nest.count_nodes s "parrot_neuron" + total /\
  list_sum (map (fun r => length (parrots r)) results) = total.
Proof.
  induction groups as [|[k l] rest IH]; intros s s' results H; simpl in H.
  - unfold ret in H. injection H as <- <-. simpl. lia.
  - bind_inv H as first s1 Hf. apply lift_Ok_inv in Hf. destruct Hf as (-> & _).
    bind_inv H as r s2 Hr. apply create_connect_adds_relays in Hr.
    bind_inv H as rs s3 Hrs. apply IH in Hrs. cbv zeta in Hrs.
    unfold ret in H. injection H as <- <-.
    destruct Hr as (Hp & Hn & p2s & Hw & Hl & _).
    destruct Hrs as (Hw' & Hn' & Hp').
    cbv zeta. simpl. rewrite map_app, list_sum_app.
    rewrite Hw', Hn', Hp', Hw, Hn, Hp, length_app, Hl. lia.
Qed.

(** C6: in a completed compile there is one parrot (relay) per source
    specification, and the parrot-to-sampler wiring has one row per parrot:
    both counts equal the sum over the targets of the length of each
    target's list.  This holds for one call of [create_nest_optimized]
    (where row [i] leads from parrot [i] to the sampler that
    [idx_parrot_to_sampler] finds for slot [i]), for one call of the
    sinus-Poisson [create_nest], and for [sources_create_connect] over any
    sequence of samplers of the two classes. *)
Theorem C6_one_relay_and_one_row_per_spec conv duration :
  (forall self samplers gids s s' srcs,
      create_nest_optimized conv self samplers gids duration s
        = (s', Ok srcs) ->
      let total := total_specs self samplers in
      length (parrots srcs) = total /\
      Nest.count_nodes s' "parrot_neuron"
        = Nest.count_nodes s "parrot_neuron" + total /\
      exists generator_to_parrot parrot_to_sampler,
        Nest.connections s' =
          (Nest.connections s ++ generator_to_parrot) ++ parrot_to_sampler /\
        length parrot_to_sampler = total /\
        map Nest.conn_pre parrot_to_sampler = parrots srcs /\
        length generator_to_parrot = total /\
        map Nest.conn_post generator_to_parrot = parrots srcs /\
        exists num idx_samplers,
          list_sum num = total /\ length num = n_samplers samplers /\
          res_map (idx_parrot_to_sampler (cumsum num)) (seq 0 total)
            = Ok idx_samplers /\
          take gids idx_samplers
            = Ok (map Nest.conn_post parrot_to_sampler)) /\
  (forall self cfgs gids s s' srcs,
      Sinus.create_nest conv self (Samplers cfgs) gids s = (s', Ok srcs) ->
      adds_relays s s' srcs
        (list_sum (map (fun c => length (Sinus.rates c)) cfgs))) /\
  (forall samplers s s' results,
      compile conv duration samplers s = (s', Ok results) ->
      let total := list_sum (map spec_count samplers) in
      length (Nest.wiring_rows s') = length (Nest.wiring_rows s) + total /\
      Nest.count_nodes s' "parrot_neuron"
        = Nest.count_nodes s "parrot_neuron" + total /\
      list_sum (map (fun r => length (parrots r)) results) = total).
Proof.
  split; [|split].
  - intros self samplers gids s s' srcs H.
    now apply create_nest_optimized_rows in H.
  - intros self cfgs gids s s' srcs H.
    rewrite sinus_create_nest_unfold in H.
    destruct (Sinus.gather self (Samplers cfgs)) as [gathered|] eqn:Hg;
      [|discriminate].
    apply sinus_gather_Ok in Hg. apply sinus_build_adds_relays in H.
    now rewrite Hg in H.
  - intros samplers s s' results H. unfold compile, sources_create_connect in H.
    apply create_groups_adds_relays in H. cbv zeta in H.
    now rewrite groupby_concat in H.
Qed.

Lemma C6_one_relay_and_one_row_per_spec_witness :
  let samplers := [poisson_sampler 1; sinus_sampler 2 true;
                   poisson_sampler 3] in
  let r := compile times_1000 1000%Q samplers (kernel_with_samplers 3) in
  snd r = Ok [mkSources [4] [5]; mkSources [6] [7]; mkSources [8] [9]] /\
  length (Nest.wiring_rows (fst r)) = 3 /\
  Nest.count_nodes (fst r) "parrot_neuron" = 3.
Proof.
  cbv zeta. split; [vm_compute; reflexivity|].
  pose proof (proj2 (proj2 (C6_one_relay_and_one_row_per_spec
                              times_1000 1000%Q))
                [poisson_sampler 1; sinus_sampler 2 true; poisson_sampler 3]
                (kernel_with_samplers 3)
                (fst (compile times_1000 1000%Q
                        [poisson_sampler 1; sinus_sampler 2 true;
                         poisson_sampler 3] (kernel_with_samplers 3)))
                [mkSources [4] [5]; mkSources [6] [7]; mkSources [8] [9]]
                ltac:(vm_compute; reflexivity)) as W.
  cbv zeta in W. destruct W as (W1 & W2 & _). split; [exact W1 | exact W2].
Defined.

(** C8, as stated, fails for a compile of more than one group: a Poisson
    sampler followed by two sinus-Poisson samplers that disagree on
    [individual_spike_trains].  The second group is rejected with the
    validation error, after the generator and the parrot of the first group
    have been created and wired. *)
Lemma C8_later_group_rejected_after_creation :
  let samplers := [poisson_sampler 1; sinus_sampler 2 true;
                   sinus_sampler 3 false] in
  let r := compile times_1000 1000%Q samplers (kernel_with_samplers 3) in
  snd r = Raise Sinus.mixed_settings /\
  is_validation_error Sinus.mixed_settings = true /\
  Nest.nodes (fst r) =
    Nest.nodes (kernel_with_samplers 3) ++
    ["poisson_generator"; "parrot_neuron"] /\
  map (fun c => (Nest.conn_pre c, Nest.conn_post c))
      (Nest.connections (fst r)) = [(4, 5); (5, 1)].
Proof. cbv zeta. repeat split; vm_compute; reflexivity. Qed.

(** C8 (amended): within one build call ([create_nest_optimized], the
    sinus-Poisson [create_nest]) every validation raise comes before the
    first [nest.Create], so a call that fails validation leaves the kernel
    as it found it.  [sources_create_connect] builds group after group: when
    it ends in a validation error, the failing group's own call has touched
    nothing, and the kernel is in the state the complete builds of the
    earlier groups left it in (untouched when the first group fails). *)
Theorem C8_validation_before_creation conv duration samplers s s' e
    (H : compile conv duration samplers s = (s', Raise e))
    (Hv : is_validation_error e = true) :
  (exists done g rest results first,
      groupby sampler_class config_class_eq_dec samplers = done ++ g :: rest /\
      create_groups (create_connect conv duration) done s = (s', Ok results) /\
      first_item (snd g) = Ok first /\
      create_connect conv duration first (snd g) s' = (s', Raise e) /\
      (done = [] -> s' = s)) /\
  (forall self smp gids s0 s1 e0,
      create_nest_optimized conv self smp gids duration s0 = (s1, Raise e0) ->
      is_validation_error e0 = true -> s1 = s0) /\
  (forall self smp gids s0 s1 e0,
      Sinus.create_nest conv self smp gids s0 = (s1, Raise e0) ->
      is_validation_error e0 = true -> s1 = s0).
Proof.
  split; [|split].
  - unfold compile, sources_create_connect in H.
    destruct (create_groups_validation (create_connect conv duration)
                (create_connect_validation_first conv duration) _ _ _ _ H Hv)
      as (done & g & rest & results & first & Hg & Hdone & Hf & Hfail).
    exists done, g, rest, results, first. repeat split; auto.
    intros ->. simpl in Hdone. unfold ret in Hdone. now injection Hdone as <-.
  - intros self smp gids s0 s1 e0 H0 Hv0.
    now apply create_nest_optimized_validation_first in H0.
  - intros self smp gids s0 s1 e0 H0 Hv0.
    now apply sinus_create_nest_validation_first in H0.
Qed.

Lemma C8_validation_before_creation_witness :
  let samplers := [sinus_sampler 1 true; sinus_sampler 2 false] in
  compile times_1000 1000%Q samplers (kernel_with_samplers 2)
    = (kernel_with_samplers 2, Raise Sinus.mixed_settings) /\
  is_validation_error Sinus.mixed_settings = true /\
  exists done g rest results first,
    groupby sampler_class config_class_eq_dec samplers = done ++ g :: rest /\
    create_groups (create_connect times_1000 1000%Q) done
      (kernel_with_samplers 2) = (kernel_with_samplers 2, Ok results) /\
    first_item (snd g) = Ok first /\
    create_connect times_1000 1000%Q first (snd g) (kernel_with_samplers 2)
      = (kernel_with_samplers 2, Raise Sinus.mixed_settings) /\
    (done = [] -> kernel_with_samplers 2 = kernel_with_samplers 2).
Proof.
  cbv zeta. split; [vm_compute; reflexivity|]. split; [reflexivity|].
  exact (proj1 (C8_validation_before_creation times_1000 1000%Q
                  [sinus_sampler 1 true; sinus_sampler 2 false]
                  (kernel_with_samplers 2) (kernel_with_samplers 2)
                  Sinus.mixed_settings
                  ltac:(vm_compute; reflexivity) eq_refl)).
Defined.

(** ** Parameter verification on construction *)

Module Construction.

(** A numpy array of any rank: a zero-dimensional scalar or a sequence of
    arrays.  [np.array([a] * n)] stacks [n] copies of [a] along a new first
    axis. *)
Inductive ndarray : Type :=
| Scalar (x : float)
| Array (items : list ndarray).

(** [a.size]: the number of elements. *)
Fixpoint size (a : ndarray) : nat :=
  match a with
  | Scalar _ => 1
  | Array items => list_sum (map size items)
  end.

(** [len(a)]: the extent of the first axis; a scalar has none. *)
Definition len (a : ndarray) : option nat :=
  match a with
  | Scalar _ => None
  | Array items => Some (length items)
  end.

Definition needs_scalar_or_same_length (name : string) : exn :=
  ValueError (name ++ "-parameter needs to be either scalar " ++
              "or same length as weights-array.").

(** The test both [_verify_parameters] apply to a parameter. *)
Definition verify_parameter (name : string) (param weights : ndarray)
  : res ndarray :=
  if size param =? 1
  then Ok (Array (repeat param (size weights)))
  else if negb (size param =? size weights)
       then Raise (needs_scalar_or_same_length name)
       else Ok param.

Record poisson_data : Type := mkPoissonData {
  rates : ndarray;
  weights : ndarray
}.

(** [PoissonSourceConfiguration._verify_parameters]. *)
Definition poisson_verify_parameters (self : poisson_data)
  : res poisson_data :=
  res_bind (verify_parameter "rates" (rates self) (weights self)) (fun r =>
  Ok (mkPoissonData r (weights self))).

Record sinus_data : Type := mkSinusData {
  s_weights : ndarray;
  s_rates : ndarray;
  s_amplitudes : ndarray;
  s_frequencies : ndarray;
  s_phases : ndarray
}.

(** [SinusPoissonSourceConfiguration._verify_parameters]: the loop over
    ["rates", "amplitudes", "frequencies", "phases"]; the message is raised
    with its placeholder unfilled. *)
Definition sinus_verify_parameters (self : sinus_data) : res sinus_data :=
  let w := s_weights self in
  res_bind (verify_parameter "{}" (s_rates self) w) (fun r =>
  res_bind (verify_parameter "{}" (s_amplitudes self) w) (fun a =>
  res_bind (verify_parameter "{}" (s_frequencies self) w) (fun f =>
  res_bind (verify_parameter "{}" (s_phases self) w) (fun p =>
  Ok (mkSinusData w r a f p))))).

Lemma size_repeat (a : ndarray) n : size (Array (repeat a n)) = n * size a.
Proof.
  simpl. induction n as [|n IH]; simpl; [reflexivity|]. now rewrite IH.
Qed.

Lemma verify_parameter_scalar name param weights :
  size param = 1 ->
  verify_parameter name param weights
    = Ok (Array (repeat param (size weights))).
Proof. unfold verify_parameter. now intros ->. Qed.

Lemma verify_parameter_mismatch name param weights :
  size param <> 1 -> size param <> size weights ->
  verify_parameter name param weights
    = Raise (needs_scalar_or_same_length name).
Proof.
  intros H1 Hw. unfold verify_parameter.
  apply Nat.eqb_neq in H1, Hw. now rewrite H1, Hw.
Qed.

Lemma verify_parameter_same name param weights :
  size param <> 1 -> size param = size weights ->
  verify_parameter name param weights = Ok param.
Proof.
  intros H1 Hw. unfold verify_parameter.
  apply Nat.eqb_neq in H1. apply Nat.eqb_eq in Hw. now rewrite H1, Hw.
Qed.

(** After a successful verification a parameter has as many elements as
    the weights. *)
Lemma verify_parameter_size name param weights r :
  verify_parameter name param weights = Ok r -> size r = size weights.
Proof.
  unfold verify_parameter. destruct (size param =? 1) eqn:E1.
  - intro H. injection H as <-. apply Nat.eqb_eq in E1.
    rewrite size_repeat, E1. lia.
  - destruct (size param =? size weights) eqn:Ew; simpl; intro H;
      [|discriminate].
    injection H as <-. now apply Nat.eqb_eq in Ew.
Qed.

End Construction.

(** *** Shapes and [np.hstack]

    Arrays as nests of sequences, with the operations the build functions
    apply to the verified parameters.  A nest that is not rectangular has
    no shape and is no array. *)

Definition of_list (l : list float) : Construction.ndarray :=
  Construction.Array (map Construction.Scalar l).

(** [a.ravel()]: the elements in row-major order. *)
Fixpoint ravel (a : Construction.ndarray) : list float :=
  match a with
  | Construction.Scalar x => [x]
  | Construction.Array items => concat (map ravel items)
  end.

Definition same_shape (s : list nat) (o : option (list nat)) : bool :=
  match o with
  | Some s' => if list_eq_dec Nat.eq_dec s' s then true else false
  | None => false
  end.

(** [a.shape]. *)
Fixpoint shape (a : Construction.ndarray) : option (list nat) :=
  match a with
  | Construction.Scalar _ => Some []
  | Construction.Array items =>
      match map shape items with
      | [] => Some [0]
      | None :: _ => None
      | Some s :: rest =>
          if forallb (same_shape s) rest then Some (length items :: s)
          else None
      end
  end.

Definition atleast_1d (a : Construction.ndarray) : Construction.ndarray :=
  match a with
  | Construction.Scalar x => Construction.Array [Construction.Scalar x]
  | Construction.Array _ => a
  end.

Definition items_of (a : Construction.ndarray) : list Construction.ndarray :=
  match a with
  | Construction.Array items => items
  | Construction.Scalar _ => []
  end.

Definition dimensions_differ : exn :=
  ValueError "all the input arrays must have same number of dimensions".

Definition shapes_differ : exn :=
  ValueError ("all the input array dimensions except for the " ++
              "concatenation axis must match exactly").

Definition same_ndim (ndim : nat) (o : option (list nat)) : bool :=
  match o with
  | Some s => length s =? ndim
  | None => false
  end.

(** [np.concatenate(arrs, 0)] for arrays of one dimension or more. *)
Definition concatenate0 (arrs : list Construction.ndarray)
  : res Construction.ndarray :=
  match map shape arrs with
  | Some (_ :: t0) :: rest =>
      if negb (forallb (same_ndim (S (length t0))) rest)
      then Raise dimensions_differ
      else if negb (forallb (fun o => match o with
                                      | Some (_ :: t) => same_shape t0 (Some t)
                                      | _ => false
                                      end) rest)
      then Raise shapes_differ
      else Ok (Construction.Array (concat (map items_of arrs)))
  | _ => Raise dimensions_differ
  end.

(** [np.concatenate(arrs, 1)] for arrays of two dimensions or more: row
    [i] of the result joins the rows [i] of the arrays. *)
Definition concatenate1 (arrs : list Construction.ndarray)
  : res Construction.ndarray :=
  match map shape arrs with
  | Some (n0 :: _ :: t0) :: rest =>
      if negb (forallb (same_ndim (S (S (length t0)))) rest)
      then Raise dimensions_differ
      else if negb (forallb (fun o => match o with
                                      | Some (n :: _ :: t) =>
                                          (n =? n0) && same_shape t0 (Some t)
                                      | _ => false
                                      end) rest)
      then Raise shapes_differ
      else Ok (Construction.Array
                 (map (fun i =>
                         Construction.Array
                           (concat (map (fun a =>
                                           items_of (nth i (items_of a)
                                                       (Construction.Array [])))
                                        arrs)))
                      (seq 0 n0)))
  | _ => Raise shapes_differ
  end.

(** [np.hstack]: every array is made one-dimensional at least; they are
    joined along the first axis if the first of them is one-dimensional
    and along the second axis otherwise. *)
Definition np_hstack (tup : list Construction.ndarray)
  : res Construction.ndarray :=
  match map atleast_1d tup with
  | [] => Raise (ValueError "need at least one array to concatenate")
  | (first :: _) as arrs =>
      match shape first with
      | Some [_] => concatenate0 arrs
      | _ => concatenate1 arrs
      end
  end.

(** The array [_verify_parameters] makes of a one-element one-dimensional
    parameter: [n] rows of one element. *)
Definition column (x : float) (n : nat) : Construction.ndarray :=
  Construction.Array (repeat (of_list [x]) n).

Lemma shape_of_list (l : list float) : shape (of_list l) = Some [length l].
Proof.
  unfold of_list. cbn [shape]. rewrite map_map. cbn [shape].
  destruct l as [|x t]; [reflexivity|]. cbn [map].
  assert (H : forallb (same_shape [])
                (map (fun _ : float => Some (@nil nat)) t) = true).
  { apply forallb_forall. intros o Ho. apply in_map_iff in Ho.
    now destruct Ho as (_ & <- & _). }
  rewrite H. cbn [length]. now rewrite length_map.
Qed.

Lemma shape_column (x : float) (n : nat) :
  shape (column x (S n)) = Some [S n; 1].
Proof.
  unfold column. cbn [shape]. cbn [repeat map].
  rewrite (shape_of_list [x]). rewrite map_repeat, (shape_of_list [x]).
  assert (H : forallb (same_shape [1]) (repeat (Some [1]) n) = true).
  { apply forallb_forall. intros o Ho. now apply repeat_spec in Ho as ->. }
  cbn [length] in *. rewrite H. cbn [length]. now rewrite repeat_length.
Qed.

(** One-dimensional arrays are joined end to end. *)
Lemma np_hstack_of_lists (l : list float) (ls : list (list float)) :
  np_hstack (map of_list (l :: ls)) = Ok (of_list (concat (l :: ls))).
Proof.
  unfold np_hstack.
  assert (Hat : map atleast_1d (map of_list (l :: ls))
                = of_list l :: map of_list ls).
  { rewrite map_map. cbn [map]. f_equal. }
  rewrite Hat. rewrite shape_of_list.
  unfold concatenate0. cbn [map]. rewrite shape_of_list.
  rewrite map_map.
  assert (Hsh : map (fun x => shape (of_list x)) ls
                = map (fun x => Some [length x]) ls)
    by (apply map_ext; intro; apply shape_of_list).
  rewrite Hsh.
  assert (H1 : forallb (same_ndim 1) (map (fun x : list float =>
                                             Some [length x]) ls) = true).
  { apply forallb_forall. intros o Ho. apply in_map_iff in Ho.
    now destruct Ho as (y & <- & _). }
  assert (H2 : forallb (fun o => match o with
                                 | Some (_ :: t) => same_shape [] (Some t)
                                 | _ => false
                                 end)
                 (map (fun x : list float => Some [length x]) ls) = true).
  { apply forallb_forall. intros o Ho. apply in_map_iff in Ho.
    now destruct Ho as (y & <- & _). }
  cbn [length]. rewrite H1, H2. cbn [negb]. f_equal. unfold of_list.
  f_equal. cbn [items_of concat]. rewrite map_app. f_equal.
  rewrite map_map. cbn [items_of]. now rewrite concat_map.
Qed.

Lemma nth_repeat_lt {A} (a d : A) n i : i < n -> nth i (repeat a n) d = a.
Proof.
  revert i. induction n as [|n IH]; intros [|i] H; simpl; try lia;
    [reflexivity|]. apply IH. lia.
Qed.

Lemma map_seq_const {A} (f : nat -> A) (c : A) n : forall s,
  (forall i, s <= i < s + n -> f i = c) -> map f (seq s n) = repeat c n.
Proof.
  induction n as [|n IH]; intros s H; [reflexivity|]. simpl.
  rewrite (H s) by lia. f_equal. apply IH. intros i Hi. apply H. lia.
Qed.

(** Columns are joined side by side. *)
Lemma np_hstack_columns (x : float) (xs : list float) (n : nat) :
  np_hstack (map (fun y => column y (S n)) (x :: xs))
  = Ok (Construction.Array (repeat (of_list (x :: xs)) (S n))).
Proof.
  unfold np_hstack.
  assert (Hat : map atleast_1d (map (fun y => column y (S n)) (x :: xs))
                = map (fun y => column y (S n)) (x :: xs)).
  { rewrite map_map. apply map_ext. reflexivity. }
  rewrite Hat. cbn [map]. rewrite shape_column.
  unfold concatenate1. cbn [map]. rewrite shape_column, map_map.
  assert (Hsh : map (fun y => shape (column y (S n))) xs
                = map (fun _ => Some [S n; 1]) xs)
    by (apply map_ext; intro; apply shape_column).
  rewrite Hsh.
  assert (H1 : forallb (same_ndim 2)
                 (map (fun _ : float => Some [S n; 1]) xs) = true).
  { apply forallb_forall. intros o Ho. apply in_map_iff in Ho.
    now destruct Ho as (_ & <- & _). }
  assert (H2 : forallb (fun o => match o with
                                 | Some (k :: _ :: t) =>
                                     (k =? S n) && same_shape [] (Some t)
                                 | _ => false
                                 end)
                 (map (fun _ : float => Some [S n; 1]) xs) = true).
  { apply forallb_forall. intros o Ho. apply in_map_iff in Ho.
    destruct Ho as (_ & <- & _). now rewrite Nat.eqb_refl. }
  cbn [length]. rewrite H1, H2. cbn [negb]. f_equal. f_equal.
  apply map_seq_const. intros i Hi.
  unfold of_list. f_equal.
  assert (Hrow : forall y, items_of (nth i (items_of (column y (S n)))
                                      (Construction.Array []))
                           = [Construction.Scalar y]).
  { intro y. unfold column. cbn [items_of].
    rewrite nth_repeat_lt by lia. reflexivity. }
  change (concat (map (fun a => items_of (nth i (items_of a)
                                            (Construction.Array [])))
                      (column x (S n)
                       :: map (fun y => column y (S n)) xs))
          = map Construction.Scalar (x :: xs)).
  cbn [map concat]. rewrite Hrow, map_map. cbn [app]. f_equal.
  clear -Hrow. induction xs as [|y t IH]; [reflexivity|].
  cbn [map concat]. now rewrite Hrow, IH.
Qed.

Lemma ravel_of_list (l : list float) : ravel (of_list l) = l.
Proof.
  unfold of_list. cbn [ravel]. rewrite map_map. cbn [ravel].
  induction l as [|x t IH]; [reflexivity|]. cbn [map concat app].
  now rewrite IH.
Qed.

Lemma ravel_rows (xs : list float) (n : nat) :
  ravel (Construction.Array (repeat (of_list xs) n)) = concat (repeat xs n).
Proof.
  cbn [ravel]. rewrite map_repeat. now rewrite ravel_of_list.
Qed.

(** Arrays of different rank are not joined. *)
Lemma np_hstack_mixed_rank (x : float) (n : nat) (l : list float) :
  np_hstack [column x (S n); of_list l] = Raise dimensions_differ /\
  np_hstack [of_list l; column x (S n)] = Raise dimensions_differ.
Proof.
  unfold np_hstack. cbn [map atleast_1d of_list column].
  fold (of_list l). fold (of_list [x]). fold (column x (S n)).
  rewrite shape_column, shape_of_list. split.
  - unfold concatenate1. cbn [map]. now rewrite shape_column, shape_of_list.
  - unfold concatenate0. cbn [map]. now rewrite shape_column, shape_of_list.
Qed.

(** The cases of the test [_verify_parameters] applies to a parameter. *)
Lemma verify_parameter_cases (name : string)
    (param weights : Construction.ndarray) :
  (Construction.size param = 1 ->
   Construction.verify_parameter name param weights
     = Ok (Construction.Array (repeat param (Construction.size weights))) /\
   Construction.len
     (Construction.Array (repeat param (Construction.size weights)))
     = Some (Construction.size weights)) /\
  (Construction.size param <> 1 ->
   Construction.size param <> Construction.size weights ->
   Construction.verify_parameter name param weights
     = Raise (Construction.needs_scalar_or_same_length name)) /\
  (Construction.size param <> 1 ->
   Construction.size param = Construction.size weights ->
   Construction.verify_parameter name param weights = Ok param).
Proof.
  split; [|split].
  - intro H. split; [now apply Construction.verify_parameter_scalar|].
    simpl. now rewrite repeat_length.
  - apply Construction.verify_parameter_mismatch.
  - apply Construction.verify_parameter_same.
Qed.

Lemma size_of_list (l : list float) : Construction.size (of_list l) = length l.
Proof.
  unfold of_list. induction l as [|x t IH]; [reflexivity|].
  simpl in *. now rewrite IH.
Qed.

(** C9: [_verify_parameters] is to broadcast a scalar parameter to the
    shape of the weights.  For a parameter given as a one-element array
    [[x]] over [n >= 1] weights it does not: [np.array([param] * n)] has
    the shape [(n, 1)], not the shape [(n,)] of the weights, and so
    differs from the broadcast [[x, ..., x]]; this happens to [rates] in
    the Poisson configuration and to all four parameters in the
    sinus-Poisson one.  The build functions then join such arrays with
    [np.hstack]: two samplers with rates [[x]] and [[x']] give the
    array of rows [[x, x']], whose flat order alternates between the
    samplers, so that with two or more weights flat slot 1, which the
    offset table gives to sampler 0, carries the rate [x'] of sampler 1;
    and joined with a sampler whose rates were given in full the arrays
    are rejected with a [ValueError]. *)
Theorem C9_size_one_parameter_is_rewrapped
    (x x' w0 : float) (w : list float) :
  let rates := of_list [x] in
  let weights := of_list (w0 :: w) in
  let n := S (length w) in
  Construction.poisson_verify_parameters
    (Construction.mkPoissonData rates weights)
    = Ok (Construction.mkPoissonData (column x n) weights) /\
  Construction.sinus_verify_parameters
    (Construction.mkSinusData weights rates rates rates rates)
    = Ok (Construction.mkSinusData weights (column x n) (column x n)
            (column x n) (column x n)) /\
  shape weights = Some [n] /\
  shape (column x n) = Some [n; 1] /\
  Construction.len (column x n) = Some n /\
  column x n <> of_list (repeat x n) /\
  np_hstack [column x n; column x' n]
    = Ok (Construction.Array (repeat (of_list [x; x']) n)) /\
  ravel (Construction.Array (repeat (of_list [x; x']) n))
    = concat (repeat [x; x'] n) /\
  (w <> [] ->
   nth_error (concat (repeat [x; x'] n)) 1 = Some x' /\
   idx_parrot_to_sampler (cumsum [n; n]) 1 = Ok 0) /\
  (forall l,
     np_hstack [column x n; of_list l] = Raise dimensions_differ /\
     np_hstack [of_list l; column x n] = Raise dimensions_differ).
Proof.
  cbv zeta.
  assert (Hv : forall name,
             Construction.verify_parameter name (of_list [x])
               (of_list (w0 :: w))
             = Ok (column x (S (length w)))).
  { intro name. rewrite Construction.verify_parameter_scalar by reflexivity.
    now rewrite size_of_list. }
  split.
  { unfold Construction.poisson_verify_parameters.
    cbn [Construction.rates Construction.weights]. now rewrite Hv. }
  split.
  { unfold Construction.sinus_verify_parameters.
    cbn [Construction.s_weights Construction.s_rates
         Construction.s_amplitudes Construction.s_frequencies
         Construction.s_phases].
    rewrite !Hv. reflexivity. }
  split; [apply (shape_of_list (w0 :: w))|].
  split; [apply shape_column|].
  split; [unfold column; simpl; now rewrite repeat_length|].
  split; [discriminate|].
  split; [apply (np_hstack_columns x [x'] (length w))|].
  split; [apply ravel_rows|].
  split; [|intro l; apply np_hstack_mixed_rank].
  intro Hw. destruct w as [|w1 w]; [congruence|]. split; [reflexivity|].
  unfold idx_parrot_to_sampler. reflexivity.
Qed.

(** ** Excitatory and inhibitory slices of a noise population *)

(** [l[:k]] and [l[k:]] for any integer [k]: a negative bound counts from
    the end, and bounds beyond either end are clipped. *)
Definition slice_to {A} (l : list A) (k : Z) : list A :=
  if (0 <=? k)%Z then firstn (Z.to_nat k) l
  else firstn (length l - Z.to_nat (- k)) l.

Definition slice_from {A} (l : list A) (k : Z) : list A :=
  if (0 <=? k)%Z then skipn (Z.to_nat k) l
  else skipn (length l - Z.to_nat (- k)) l.

(** [int(np.around(x))]: rounding to the nearest integer, halves to the
    even neighbour. *)
Definition around (x : float) : Z :=
  let f := Qfloor x in
  match Qcompare (x - inject_Z f) (1 # 2) with
  | Lt => f
  | Gt => (f + 1)%Z
  | Eq => if Z.even f then f else (f + 1)%Z
  end.

(** *** Binary64 products

    The counts below round a product of an [int] and a [float]; the
    product is the binary64 number nearest to the exact one. *)

(** [floor(log2(x))] for a positive rational. *)
Definition floor_log2 (x : Q) : Z :=
  let e0 := (Z.log2 (Qnum x) - Z.log2 (Z.pos (Qden x)))%Z in
  if Qle_bool (2 ^ e0) x then e0 else (e0 - 1)%Z.

(** The binary64 number nearest to [x], ties to the even significand: 53
    significant bits, subnormal numbers below [2 ** -1022].  Overflow to
    infinity is left out; no product below comes near [2 ** 1024]. *)
Definition round_binary64 (x : float) : float :=
  if Qeq_bool x 0 then 0%Q
  else
    let u := (Z.max (floor_log2 (Qabs x)) (-1022) - 52)%Z in
    (inject_Z (around (x / 2 ^ u)) * 2 ^ u)%Q.

(** [float(n)], as the product converts its [int] operand, and the
    product [x * y] of two floats. *)
Definition float_of_int (n : Z) : float := round_binary64 (inject_Z n).

Definition fmul (x y : float) : float := round_binary64 (x * y)%Q.

(** The attributes of [NoiseNetworkSourceConfiguration] and
    [PoissonPoolSourceConfiguration] that the slices and the external
    indegrees are computed from, with the properties both classes define
    alike. *)
Record NoiseConfiguration : Type := mkNoise {
  N : Z;
  gamma : float;
  epsilon_external : float
}.

(** [int(np.around(self.N * self.gamma))]. *)
Definition num_exc (cfg : NoiseConfiguration) : Z :=
  around (fmul (float_of_int (N cfg)) (gamma cfg)).

Definition num_inh (cfg : NoiseConfiguration) : Z :=
  (N cfg - num_exc cfg)%Z.

(** [int(np.around(self.num_exc * self.epsilon_external))] and its
    inhibitory twin. *)
Definition indegree_external_exc (cfg : NoiseConfiguration) : Z :=
  around (fmul (float_of_int (num_exc cfg)) (epsilon_external cfg)).

Definition indegree_external_inh (cfg : NoiseConfiguration) : Z :=
  around (fmul (float_of_int (num_inh cfg)) (epsilon_external cfg)).

(** [source[:cfg.num_exc]] and [source[-cfg.num_inh:]]. *)
Definition src_exc {A} (cfg : NoiseConfiguration) (source : list A) : list A :=
  slice_to source (num_exc cfg).

Definition src_inh {A} (cfg : NoiseConfiguration) (source : list A) : list A :=
  slice_from source (- num_inh cfg).

(** A connection request with a fixed indegree: every target is to
    receive [indegree] connections from distinct members of the pool
    ([FixedNumberPreConnector(n=..., with_replacement=False)],
    [rule: fixed_indegree] without multapses).  Weight and delay of the
    synapses play no part in which sources are wired and are left out. *)
Record indegree_request : Type := mkRequest {
  req_pool : list Nest.gid;
  req_targets : list Nest.gid;
  req_indegree : Z;
  req_receptor : receptor
}.

(** The two external projections [NoiseNetworkSourceConfiguration.
    create_connect] makes onto one target population: the population
    [source] has [cfg.N] neurons, and slices and indegrees are all read
    from the group's [cfg]. *)
Definition noise_network_requests (cfg : NoiseConfiguration)
    (source gids : list Nest.gid) : indegree_request * indegree_request :=
  (mkRequest (src_exc cfg source) gids (indegree_external_exc cfg)
     excitatory,
   mkRequest (src_inh cfg source) gids (indegree_external_inh cfg)
     inhibitory).

(** The two [nest.Connect] calls [PoissonPoolSourceConfiguration.
    create_connect] makes for one target population: [gid_parrots] are the
    [self.N] parrots, the slices are cut with the counts of the group's
    [cfg], and the indegrees are those of [self]. *)
Definition poisson_pool_requests (self cfg : NoiseConfiguration)
    (gid_parrots gids : list Nest.gid)
  : indegree_request * indegree_request :=
  (mkRequest (src_exc cfg gid_parrots) gids (indegree_external_exc self)
     excitatory,
   mkRequest (src_inh cfg gid_parrots) gids (indegree_external_inh self)
     inhibitory).

(** The wirings the simulator may draw for a request. *)
Definition realises (req : indegree_request)
    (conns : list (Nest.gid * Nest.gid)) : Prop :=
  (forall s t, In (s, t) conns -> In t (req_targets req)) /\
  forall t, In t (req_targets req) ->
    exists presynaptic,
      NoDup presynaptic /\ incl presynaptic (req_pool req) /\
      Z.of_nat (length presynaptic) = req_indegree req /\
      forall s, In (s, t) conns <-> In s presynaptic.

(** Source [s] can come out wired by the request. *)
Definition wired (req : indegree_request) (s : Nest.gid) : Prop :=
  exists conns t, realises req conns /\ In (s, t) conns.

(** Every target wired from the same chosen sources. *)
Definition wiring_from (chosen targets : list Nest.gid)
  : list (Nest.gid * Nest.gid) :=
  flat_map (fun t => map (fun s => (s, t)) chosen) targets.

Lemma around_inject_Z (z : Z) : around (inject_Z z) = z.
Proof.
  unfold around. rewrite Qfloor_Z.
  assert (H : (inject_Z z - inject_Z z == 0)%Q) by ring.
  assert (Hc : Qcompare (inject_Z z - inject_Z z) (1 # 2) = Lt).
  { rewrite <- Qlt_alt. rewrite H. reflexivity. }
  now rewrite Hc.
Qed.

Lemma around_bounds (a b : Z) (x : float) :
  (inject_Z a <= x)%Q -> (x <= inject_Z b)%Q -> (a <= around x <= b)%Z.
Proof.
  intros Ha Hb. unfold around.
  pose proof (Qfloor_le x) as Hfl. pose proof (Qlt_floor x) as Hfu.
  assert (Haf : (a <= Qfloor x)%Z).
  { rewrite <- (Qfloor_Z a). now apply Qfloor_resp_le. }
  assert (Hfb : (Qfloor x <= b)%Z).
  { rewrite <- (Qfloor_Z b). now apply Qfloor_resp_le. }
  assert (Hup : (0 < x - inject_Z (Qfloor x))%Q -> (Qfloor x + 1 <= b)%Z).
  { intro Hpos. assert (Hlt : (inject_Z (Qfloor x) < inject_Z b)%Q) by lra.
    rewrite <- Zlt_Qlt in Hlt. lia. }
  destruct (Qcompare (x - inject_Z (Qfloor x)) (1 # 2)) eqn:E.
  - apply Qeq_alt in E. destruct (Z.even (Qfloor x)); [lia|].
    split; [lia|]. apply Hup. rewrite E. reflexivity.
  - lia.
  - apply Qgt_alt in E. split; [lia|]. apply Hup. lra.
Qed.

Lemma around_comp (x y : float) : (x == y)%Q -> around x = around y.
Proof.
  intro H. unfold around. rewrite (Qfloor_comp x y H).
  assert (Hd : (x - inject_Z (Qfloor y) == y - inject_Z (Qfloor y))%Q)
    by (rewrite H; reflexivity).
  now rewrite (Qcompare_comp _ _ Hd (1 # 2)%Q (1 # 2)%Q (Qeq_refl _)).
Qed.

Lemma around_zero (x : float) : (x == 0)%Q -> around x = 0%Z.
Proof.
  intro H. rewrite (around_comp x (inject_Z 0) H). apply around_inject_Z.
Qed.

Lemma around_ge (a : Z) (x : float) :
  (inject_Z a <= x)%Q -> (a <= around x)%Z.
Proof.
  intro H. apply (around_bounds a (Qceiling x) x H). apply Qle_ceiling.
Qed.

Lemma around_le (b : Z) (x : float) :
  (x <= inject_Z b)%Q -> (around x <= b)%Z.
Proof.
  intro H. apply (around_bounds (Qfloor x) b x (Qfloor_le x) H).
Qed.

Lemma Qpower2_pos (e : Z) : (0 < 2 ^ e)%Q.
Proof. apply Qpower_0_lt. reflexivity. Qed.

Lemma Qpower2_inject (e : Z) : (0 <= e)%Z -> (inject_Z (2 ^ e) == 2 ^ e)%Q.
Proof. intro H. now rewrite Zpower_Qpower. Qed.

Lemma floor_log2_le (x : Q) : (0 < x)%Q -> (2 ^ floor_log2 x <= x)%Q.
Proof.
  intro Hx. unfold floor_log2. cbv zeta.
  set (e0 := (Z.log2 (Qnum x) - Z.log2 (Z.pos (Qden x)))%Z).
  destruct (Qle_bool (2 ^ e0) x) eqn:E; [now apply Qle_bool_iff|].
  destruct x as [a b]. unfold e0. simpl Qnum. simpl Qden.
  assert (Ha : (0 < a)%Z) by (unfold Qlt in Hx; simpl in Hx; lia).
  destruct (Z.log2_spec a Ha) as (Hla & _).
  destruct (Z.log2_spec (Z.pos b) eq_refl) as (_ & Hlb).
  pose proof (Z.log2_nonneg a) as Hla0.
  pose proof (Z.log2_nonneg (Z.pos b)) as Hlb0.
  set (la := Z.log2 a) in *. set (lb := Z.log2 (Z.pos b)) in *.
  rewrite (Qmake_Qdiv a b).
  assert (HA : (2 ^ la <= inject_Z a)%Q).
  { rewrite <- Qpower2_inject by exact Hla0. now rewrite <- Zle_Qle. }
  assert (HB : (inject_Z (Z.pos b) <= 2 * 2 ^ lb)%Q).
  { assert (H2 : (2 * 2 ^ lb == inject_Z (2 ^ Z.succ lb))%Q).
    { rewrite Qpower2_inject by lia. unfold Z.succ.
      rewrite Qpower_plus by discriminate. simpl. ring. }
    rewrite H2, <- Zle_Qle. lia. }
  assert (Hb : (0 < inject_Z (Z.pos b))%Q) by reflexivity.
  pose proof (Qpower2_pos la) as HPA. pose proof (Qpower2_pos lb) as HPB.
  assert (Hr : (2 ^ (la - lb - 1) * (2 * 2 ^ lb) == 2 ^ la)%Q).
  { rewrite !Qpower_minus by discriminate. simpl (2 ^ 1)%Q. field.
    intro H0. rewrite H0 in HPB. discriminate. }
  pose proof (Qpower2_pos (la - lb - 1)) as Hr0.
  apply Qle_shift_div_l; [exact Hb|].
  set (r := (2 ^ (la - lb - 1))%Q) in *.
  set (qa := inject_Z a) in *. set (qb := inject_Z (Z.pos b)) in *.
  set (A := (2 ^ la)%Q) in *. set (B := (2 ^ lb)%Q) in *.
  nra.
Qed.

Lemma floor_log2_lt (x : Q) : (0 < x)%Q -> (x < 2 ^ (floor_log2 x + 1))%Q.
Proof.
  intro Hx. unfold floor_log2. cbv zeta.
  set (e0 := (Z.log2 (Qnum x) - Z.log2 (Z.pos (Qden x)))%Z).
  destruct (Qle_bool (2 ^ e0) x) eqn:E.
  - destruct x as [a b]. unfold e0. simpl Qnum. simpl Qden.
    assert (Ha : (0 < a)%Z) by (unfold Qlt in Hx; simpl in Hx; lia).
    destruct (Z.log2_spec a Ha) as (_ & Hla).
    destruct (Z.log2_spec (Z.pos b) eq_refl) as (Hlb & _).
    pose proof (Z.log2_nonneg a) as Hla0.
    pose proof (Z.log2_nonneg (Z.pos b)) as Hlb0.
    set (la := Z.log2 a) in *. set (lb := Z.log2 (Z.pos b)) in *.
    rewrite (Qmake_Qdiv a b).
    assert (HA : (inject_Z a < 2 * 2 ^ la)%Q).
    { assert (H2 : (2 * 2 ^ la == inject_Z (2 ^ Z.succ la))%Q).
      { rewrite Qpower2_inject by lia. unfold Z.succ.
        rewrite Qpower_plus by discriminate. simpl. ring. }
      rewrite H2, <- Zlt_Qlt. lia. }
    assert (HB : (2 ^ lb <= inject_Z (Z.pos b))%Q).
    { rewrite <- Qpower2_inject by exact Hlb0. now rewrite <- Zle_Qle. }
    assert (Hb : (0 < inject_Z (Z.pos b))%Q) by reflexivity.
    pose proof (Qpower2_pos la) as HPA. pose proof (Qpower2_pos lb) as HPB.
    assert (Hr : (2 ^ (la - lb + 1) * 2 ^ lb == 2 * 2 ^ la)%Q).
    { rewrite Qpower_plus, Qpower_minus by discriminate. simpl (2 ^ 1)%Q.
      field. intro H0. rewrite H0 in HPB. discriminate. }
    pose proof (Qpower2_pos (la - lb + 1)) as Hr0.
    apply Qlt_shift_div_r; [exact Hb|].
    set (r := (2 ^ (la - lb + 1))%Q) in *.
    set (qa := inject_Z a) in *. set (qb := inject_Z (Z.pos b)) in *.
    set (A := (2 ^ la)%Q) in *. set (B := (2 ^ lb)%Q) in *.
    nra.
  - replace (e0 - 1 + 1)%Z with e0 by lia.
    apply Qnot_le_lt. intro H. apply Qle_bool_iff in H. congruence.
Qed.

Lemma round_binary64_nonneg (x : float) :
  (0 <= x)%Q -> (0 <= round_binary64 x)%Q.
Proof.
  intro Hx. unfold round_binary64. destruct (Qeq_bool x 0); [apply Qle_refl|].
  cbv zeta. set (u := (Z.max _ _ - 52)%Z).
  pose proof (Qpower2_pos u) as Hu.
  assert (H0 : (0 <= around (x / 2 ^ u)%Q)%Z).
  { apply around_ge. change (inject_Z 0) with 0%Q.
    apply Qle_shift_div_l; [exact Hu|]. lra. }
  apply Qmult_le_0_compat; [|lra].
  change 0%Q with (inject_Z 0). now rewrite <- Zle_Qle.
Qed.

(** An integer is a multiple of a unit in the last place that is a
    negative power of two. *)
Lemma int_over_ulp (n u : Z) :
  (u <= 0)%Z -> (inject_Z (n * 2 ^ (- u)) * 2 ^ u == inject_Z n)%Q.
Proof.
  intro Hu. rewrite inject_Z_mult, Qpower2_inject by lia.
  rewrite Qpower_opp. field.
  intro H0. pose proof (Qpower2_pos u) as H. rewrite H0 in H. discriminate.
Qed.

(** Rounding does not cross an integer up to [2 ** 53]. *)
Lemma round_binary64_le_int (n : Z) (x : float) :
  (0 <= n <= 2 ^ 53)%Z -> (0 < x)%Q -> (x <= inject_Z n)%Q ->
  (round_binary64 x <= inject_Z n)%Q.
Proof.
  intros Hn Hx Hxn. unfold round_binary64.
  assert (E0 : Qeq_bool x 0 = false).
  { apply not_true_iff_false. intro H. apply Qeq_bool_iff in H. lra. }
  rewrite E0. cbv zeta.
  assert (Habs : Qabs x = x) by (apply Qabs_case; intros; [reflexivity|lra]).
  rewrite Habs.
  pose proof (floor_log2_le x Hx) as He.
  set (e := floor_log2 x) in *.
  set (u := (Z.max e (-1022) - 52)%Z).
  pose proof (Qpower2_pos u) as Hu.
  destruct (Z_le_gt_dec u 0) as [Hu0 | Hu0].
  - pose proof (int_over_ulp n u Hu0) as Hk.
    set (k := (n * 2 ^ (- u))%Z) in *.
    assert (Hak : (around (x / 2 ^ u)%Q <= k)%Z).
    { apply around_le. apply Qle_shift_div_r; [exact Hu|]. lra. }
    rewrite Zle_Qle in Hak. nra.
  - assert (He53 : (53 <= e)%Z) by lia.
    assert (Hp : (2 ^ 53 <= 2 ^ e)%Q)
      by (apply Qpower_le_compat_l; [exact He53 | discriminate]).
    assert (Hn53 : (inject_Z n <= 2 ^ 53)%Q).
    { rewrite <- (Qpower2_inject 53) by lia. rewrite <- Zle_Qle. lia. }
    assert (Hx53 : (x == 2 ^ 53)%Q) by lra.
    assert (Hee : (e <= 53)%Z).
    { apply (Qpower_le_compat_l_inv 2); [lra | reflexivity]. }
    assert (Hu1 : u = 1%Z) by lia.
    rewrite Hu1.
    assert (Hd : (x / 2 ^ 1 == inject_Z (2 ^ 52))%Q).
    { rewrite Hx53. reflexivity. }
    rewrite (around_comp _ _ Hd), around_inject_Z.
    assert (Hr : (inject_Z (2 ^ 52) * 2 ^ 1 == 2 ^ 53)%Q) by reflexivity.
    rewrite Hr. lra.
Qed.

Lemma round_binary64_ge_int (n : Z) (x : float) :
  (0 <= n <= 2 ^ 53)%Z -> (0 < x)%Q -> (inject_Z n <= x)%Q ->
  (inject_Z n <= round_binary64 x)%Q.
Proof.
  intros Hn Hx Hxn. unfold round_binary64.
  assert (E0 : Qeq_bool x 0 = false).
  { apply not_true_iff_false. intro H. apply Qeq_bool_iff in H. lra. }
  rewrite E0. cbv zeta.
  assert (Habs : Qabs x = x) by (apply Qabs_case; intros; [reflexivity|lra]).
  rewrite Habs.
  pose proof (floor_log2_le x Hx) as He.
  set (e := floor_log2 x) in *.
  set (u := (Z.max e (-1022) - 52)%Z).
  pose proof (Qpower2_pos u) as Hu.
  destruct (Z_le_gt_dec u 0) as [Hu0 | Hu0].
  - pose proof (int_over_ulp n u Hu0) as Hk.
    set (k := (n * 2 ^ (- u))%Z) in *.
    assert (Hak : (k <= around (x / 2 ^ u)%Q)%Z).
    { apply around_ge. apply Qle_shift_div_l; [exact Hu|]. lra. }
    rewrite Zle_Qle in Hak. nra.
  - assert (Hue : u = (e - 52)%Z) by lia.
    assert (Hm : (inject_Z (2 ^ 52) <= x / 2 ^ u)%Q).
    { apply Qle_shift_div_l; [exact Hu|].
      assert (Hs : (inject_Z (2 ^ 52) * 2 ^ u == 2 ^ e)%Q).
      { rewrite Hue, Qpower_minus by discriminate.
        rewrite (Qpower2_inject 52) by lia.
        field; intro H0; pose proof (Qpower2_pos 52) as H; rewrite H0 in H;
          discriminate. }
      rewrite Hs. exact He. }
    apply around_ge in Hm. rewrite Zle_Qle in Hm.
    assert (Hu2 : (2 ^ 1 <= 2 ^ u)%Q)
      by (apply Qpower_le_compat_l; [lia | discriminate]).
    assert (Hn53 : (inject_Z n <= inject_Z (2 ^ 52) * 2 ^ 1)%Q).
    { assert (Hr : (inject_Z (2 ^ 52) * 2 ^ 1 == inject_Z (2 ^ 53))%Q)
        by reflexivity.
      rewrite Hr, <- Zle_Qle. lia. }
    assert (H52 : (0 < inject_Z (2 ^ 52))%Q) by reflexivity.
    nra.
Qed.

(** Integers up to [2 ** 53] are binary64 numbers. *)
Lemma float_of_int_exact (n : Z) :
  (0 <= n <= 2 ^ 53)%Z -> (float_of_int n == inject_Z n)%Q.
Proof.
  intro Hn. unfold float_of_int.
  destruct (Z.eq_dec n 0) as [-> | Hne]; [reflexivity|].
  assert (Hx : (0 < inject_Z n)%Q).
  { change 0%Q with (inject_Z 0). rewrite <- Zlt_Qlt. lia. }
  apply Qle_antisym.
  - apply round_binary64_le_int; [exact Hn | exact Hx | apply Qle_refl].
  - apply round_binary64_ge_int; [exact Hn | exact Hx | apply Qle_refl].
Qed.

(** [int(np.around(n * x))] for an integer [n] up to [2 ** 53] and a float
    [x] in [[0, 1]] lies in [[0, n]]. *)
Lemma around_fmul_bounds (n : Z) (x : float) :
  (0 <= n <= 2 ^ 53)%Z -> (0 <= x)%Q -> (x <= 1)%Q ->
  (0 <= around (fmul (float_of_int n) x) <= n)%Z.
Proof.
  intros Hn H0 H1. pose proof (float_of_int_exact n Hn) as Hf.
  assert (Hq : (0 <= inject_Z n)%Q).
  { change 0%Q with (inject_Z 0). rewrite <- Zle_Qle. lia. }
  assert (Hp0 : (0 <= float_of_int n * x)%Q) by (rewrite Hf; nra).
  assert (Hpn : (float_of_int n * x <= inject_Z n)%Q) by (rewrite Hf; nra).
  unfold fmul. apply around_bounds.
  - now apply round_binary64_nonneg.
  - destruct (Qlt_le_dec 0 (float_of_int n * x)) as [Hpos | Hle].
    + now apply round_binary64_le_int.
    + assert (Hz : (float_of_int n * x == 0)%Q) by lra.
      unfold round_binary64. apply Qeq_bool_iff in Hz. now rewrite Hz.
Qed.

(** A count of zero gives an indegree of zero, whatever the
    connectivity. *)
Lemma around_fmul_zero (x : float) : around (fmul (float_of_int 0) x) = 0%Z.
Proof.
  unfold fmul, float_of_int. change (round_binary64 (inject_Z 0)) with 0%Q.
  unfold round_binary64.
  assert (Hz : Qeq_bool (0 * x) 0 = true) by (apply Qeq_bool_iff; ring).
  now rewrite Hz.
Qed.

Lemma num_exc_range (cfg : NoiseConfiguration) :
  (0 <= N cfg <= 2 ^ 53)%Z -> (0 <= gamma cfg)%Q -> (gamma cfg <= 1)%Q ->
  (0 <= num_exc cfg <= N cfg)%Z.
Proof. intros HN H0 H1. unfold num_exc. now apply around_fmul_bounds. Qed.

Lemma indegree_external_inh_zero (cfg : NoiseConfiguration) :
  num_inh cfg = 0%Z -> indegree_external_inh cfg = 0%Z.
Proof.
  intro Hz. unfold indegree_external_inh. rewrite Hz. apply around_fmul_zero.
Qed.

Lemma zero_indegree_wires_nothing (req : indegree_request) s :
  req_indegree req = 0%Z -> ~ wired req s.
Proof.
  intros H0 (conns & t & (Htargets & Hdraw) & Hin).
  destruct (Hdraw t (Htargets _ _ Hin)) as (pre & _ & _ & Hlen & Hiff).
  rewrite H0 in Hlen. destruct pre; [|discriminate].
  now apply Hiff in Hin.
Qed.

Lemma wiring_from_realises (req : indegree_request) chosen :
  NoDup chosen -> incl chosen (req_pool req) ->
  Z.of_nat (length chosen) = req_indegree req ->
  realises req (wiring_from chosen (req_targets req)).
Proof.
  intros Hnd Hincl Hlen. unfold realises, wiring_from. split.
  - intros s t Hin. apply in_flat_map in Hin. destruct Hin as (t' & Ht' & Hin).
    apply in_map_iff in Hin. destruct Hin as (s' & Heq & _).
    injection Heq as _ <-. exact Ht'.
  - intros t Ht. exists chosen.
    split; [exact Hnd|]. split; [exact Hincl|]. split; [exact Hlen|].
    intro s. split.
    + intro Hin. apply in_flat_map in Hin.
      destruct Hin as (t' & _ & Hin). apply in_map_iff in Hin.
      destruct Hin as (s' & Heq & Hs'). now injection Heq as <- _.
    + intro Hs. apply in_flat_map. exists t. split; [exact Ht|].
      apply in_map_iff. now exists s.
Qed.

Lemma NoDup_firstn {A} (l : list A) k : NoDup l -> NoDup (firstn k l).
Proof.
  intro H. rewrite <- (firstn_skipn k l) in H.
  now apply NoDup_app_remove_r in H.
Qed.

Lemma NoDup_skipn {A} (l : list A) k : NoDup l -> NoDup (skipn k l).
Proof.
  intro H. rewrite <- (firstn_skipn k l) in H.
  now apply NoDup_app_remove_l in H.
Qed.

Lemma incl_firstn {A} (l : list A) k : incl (firstn k l) l.
Proof.
  intros x Hx. rewrite <- (firstn_skipn k l). apply in_or_app. now left.
Qed.

Lemma length_filter_other (l : list Nest.gid) s :
  NoDup l -> In s l ->
  S (length (filter (fun x => negb (x =? s)) l)) = length l.
Proof.
  induction l as [|a l IH]; intros Hnd Hin; [contradiction|].
  inversion Hnd as [|? ? Hnotin Hnd']; subst. simpl.
  destruct Hin as [-> | Hin].
  - rewrite Nat.eqb_refl. simpl. f_equal.
    clear IH Hnd Hnd'. induction l as [|b l IHl]; [reflexivity|]. simpl.
    destruct (b =? s) eqn:E.
    + apply Nat.eqb_eq in E. subst. exfalso. apply Hnotin. now left.
    + simpl. f_equal. apply IHl. intro H. apply Hnotin. now right.
  - destruct (a =? s) eqn:E.
    + apply Nat.eqb_eq in E. subst. contradiction.
    + simpl. f_equal. now apply IH.
Qed.

(** With a positive indegree that the pool can serve, any member of the
    pool can come out wired. *)
Lemma member_can_be_wired (req : indegree_request) s t :
  NoDup (req_pool req) -> In s (req_pool req) -> In t (req_targets req) ->
  (0 < req_indegree req <= Z.of_nat (length (req_pool req)))%Z ->
  wired req s.
Proof.
  intros Hnd Hs Ht Hd.
  set (others := filter (fun x => negb (x =? s)) (req_pool req)).
  set (chosen := s :: firstn (Z.to_nat (req_indegree req) - 1) others).
  pose proof (length_filter_other _ s Hnd Hs) as Hlen. fold others in Hlen.
  exists (wiring_from chosen (req_targets req)), t. split.
  - apply wiring_from_realises.
    + unfold chosen. constructor.
      * intro Hin. apply incl_firstn in Hin. unfold others in Hin.
        apply filter_In in Hin. destruct Hin as (_ & Hne).
        now rewrite Nat.eqb_refl in Hne.
      * apply NoDup_firstn. unfold others. now apply NoDup_filter.
    + intros x [<- | Hx]; [exact Hs|]. apply incl_firstn in Hx.
      unfold others in Hx. apply filter_In in Hx. tauto.
    + unfold chosen. simpl length. rewrite length_firstn. lia.
  - unfold wiring_from. apply in_flat_map. exists t. split; [exact Ht|].
    apply in_map_iff. exists s. split; [reflexivity | now left].
Qed.

Lemma slices_partition {A} (cfg : NoiseConfiguration) (source : list A) :
  (0 <= num_exc cfg)%Z -> (0 < num_inh cfg)%Z ->
  Z.of_nat (length source) = N cfg ->
  src_exc cfg source = firstn (Z.to_nat (num_exc cfg)) source /\
  src_inh cfg source = skipn (Z.to_nat (num_exc cfg)) source.
Proof.
  intros Hk Hinh Hlen. unfold src_exc, src_inh, slice_to, slice_from.
  assert (E1 : (0 <=? num_exc cfg)%Z = true) by (apply Z.leb_le; lia).
  assert (E2 : (0 <=? - num_inh cfg)%Z = false) by (apply Z.leb_gt; lia).
  rewrite E1, E2. split; [reflexivity|]. f_equal.
  unfold num_inh in *. lia.
Qed.

Lemma slices_coincide {A} (cfg : NoiseConfiguration) (source : list A) :
  num_inh cfg = 0%Z -> Z.of_nat (length source) = N cfg ->
  src_exc cfg source = source /\ src_inh cfg source = source.
Proof.
  intros Hinh Hlen. unfold src_exc, src_inh, slice_to, slice_from.
  rewrite Hinh. simpl.
  assert (Hk : num_exc cfg = N cfg) by (unfold num_inh in Hinh; lia).
  assert (E1 : (0 <=? num_exc cfg)%Z = true) by (apply Z.leb_le; lia).
  rewrite E1, Hk, <- Hlen, Nat2Z.id. split; [apply firstn_all | reflexivity].
Qed.

Lemma NoDup_app_disjoint {A} (l1 l2 : list A) x :
  NoDup (l1 ++ l2) -> In x l1 -> ~ In x l2.
Proof.
  induction l1 as [|a l1 IH]; simpl; intros Hnd Hin; [contradiction|].
  inversion Hnd as [|? ? Hnotin Hnd']; subst.
  destruct Hin as [-> | Hin].
  - intro H2. apply Hnotin. apply in_or_app. now right.
  - now apply IH.
Qed.

(** A pool of two sources, all of them excitatory ([gamma = 1]), feeding
    one sampler. *)
Definition all_excitatory_pool : NoiseConfiguration :=
  mkNoise 2 1%Q (1 # 2)%Q.

(** C10, as stated, fails in its last clause: with [num_inh = 0] the
    inhibitory slice is the whole population, but the indegree the
    inhibitory request is issued with is [round(0 * epsilon_external) = 0],
    in the noise network and in a Poisson pool built for its own
    configuration alike, so no source can come out wired inhibitorily. *)
Lemma C10_no_inhibitory_wiring_when_num_inh_zero :
  let cfg := all_excitatory_pool in
  let source := [1; 2] in
  num_inh cfg = 0%Z /\
  src_inh cfg source = source /\
  ~ (forall s, In s source ->
       wired (fst (noise_network_requests cfg source [3])) s /\
       wired (snd (noise_network_requests cfg source [3])) s) /\
  ~ (forall s, In s source ->
       wired (fst (poisson_pool_requests cfg cfg source [3])) s /\
       wired (snd (poisson_pool_requests cfg cfg source [3])) s).
Proof.
  cbv zeta. split; [reflexivity|]. split; [reflexivity|]. split.
  - intro H. destruct (H 1 (or_introl eq_refl)) as (_ & Hw).
    revert Hw. apply zero_indegree_wires_nothing. reflexivity.
  - intro H. destruct (H 1 (or_introl eq_refl)) as (_ & Hw).
    revert Hw. apply zero_indegree_wires_nothing. reflexivity.
Qed.

(** C10 (amended): for a population of [0 < N <= 2 ** 53] distinct
    sources, [N] being that of the configuration [cfg] the slices are cut
    with, and [gamma] in [[0, 1]], the slices [source[:num_exc]] and
    [source[-num_inh:]] are disjoint and together cover the population if
    and only if [num_inh > 0] (they are then the two halves of the
    population, in order); when [num_inh = 0] both slices are the entire
    population, so every source is in the excitatory and in the inhibitory
    pool.  The inhibitory request is issued with
    [indegree_external_inh] of [cfg] in the noise network, which is then
    [0] and wires no source; in the Poisson pool it is issued with that of
    [self]: it wires no source when [self] has [num_inh = 0] too (as when
    [self] is [cfg]), and otherwise any source of the whole pool can come
    out wired inhibitorily, if the pool can serve the indegree. *)
Theorem C10_noise_population_slices
    (cfg : NoiseConfiguration) (source gids : list Nest.gid)
    (HN : (0 < N cfg <= 2 ^ 53)%Z)
    (Hgamma : (0 <= gamma cfg)%Q /\ (gamma cfg <= 1)%Q)
    (Hlen : Z.of_nat (length source) = N cfg)
    (Hnd : NoDup source) :
  let exc := src_exc cfg source in
  let inh := src_inh cfg source in
  (((forall x, In x exc -> ~ In x inh) /\
    (forall x, In x source -> In x exc \/ In x inh)) <->
   (0 < num_inh cfg)%Z) /\
  ((0 < num_inh cfg)%Z -> exc ++ inh = source) /\
  (num_inh cfg = 0%Z ->
   inh = source /\ exc = source /\
   indegree_external_inh cfg = 0%Z /\
   (forall s, ~ wired (snd (noise_network_requests cfg source gids)) s) /\
   (forall self,
      num_inh self = 0%Z ->
      forall s, ~ wired (snd (poisson_pool_requests self cfg source gids)) s)
   /\
   (forall self,
      (0 < indegree_external_inh self <= N cfg)%Z -> gids <> [] ->
      forall s, In s source ->
        wired (snd (poisson_pool_requests self cfg source gids)) s)).
Proof.
  cbv zeta. destruct Hgamma as (Hg0 & Hg1).
  pose proof (num_exc_range cfg ltac:(lia) Hg0 Hg1) as Hk.
  assert (Hinh0 : (0 <= num_inh cfg)%Z) by (unfold num_inh; lia).
  split; [split|split].
  - intros (Hdisj & _).
    destruct (Z.eq_dec (num_inh cfg) 0) as [Hz|Hnz]; [|lia]. exfalso.
    destruct (slices_coincide cfg source Hz Hlen) as (He & Hi).
    rewrite He, Hi in Hdisj.
    destruct source as [|x t]; [simpl in Hlen; lia|].
    apply (Hdisj x); now left.
  - intro Hpos.
    destruct (slices_partition cfg source (proj1 Hk) Hpos Hlen) as (-> & ->).
    split.
    + intros x Hx.
      apply NoDup_app_disjoint
        with (l1 := firstn (Z.to_nat (num_exc cfg)) source);
        [now rewrite firstn_skipn | exact Hx].
    + intros x Hx.
      rewrite <- (firstn_skipn (Z.to_nat (num_exc cfg)) source) in Hx.
      now apply in_app_or in Hx.
  - intro Hpos.
    destruct (slices_partition cfg source (proj1 Hk) Hpos Hlen) as (-> & ->).
    apply firstn_skipn.
  - intro Hz. destruct (slices_coincide cfg source Hz Hlen) as (He & Hi).
    split; [exact Hi|]. split; [exact He|].
    split; [now apply indegree_external_inh_zero|]. split; [|split].
    + intro s. apply zero_indegree_wires_nothing. simpl.
      now apply indegree_external_inh_zero.
    + intros self Hself s. apply zero_indegree_wires_nothing. simpl.
      now apply indegree_external_inh_zero.
    + intros self Hd Hg s Hs. destruct gids as [|t gids']; [congruence|].
      apply member_can_be_wired with (t := t); simpl.
      * now rewrite Hi.
      * now rewrite Hi.
      * now left.
      * rewrite Hi. lia.
Qed.

Lemma C10_noise_population_slices_witness :
  let cfg := mkNoise 4 (3 # 4)%Q (1 # 2)%Q in
  (0 < N cfg <= 2 ^ 53)%Z /\ ((0 <= gamma cfg)%Q /\ (gamma cfg <= 1)%Q) /\
  num_inh cfg = 1%Z /\
  src_exc cfg [1; 2; 3; 4] ++ src_inh cfg [1; 2; 3; 4] = [1; 2; 3; 4].
Proof.
  cbv zeta.
  assert (HN : (0 < N (mkNoise 4 (3 # 4)%Q (1 # 2)%Q) <= 2 ^ 53)%Z)
    by (simpl; lia).
  assert (Hg : (0 <= gamma (mkNoise 4 (3 # 4)%Q (1 # 2)%Q))%Q
               /\ (gamma (mkNoise 4 (3 # 4)%Q (1 # 2)%Q) <= 1)%Q)
    by (simpl; split; lra).
  assert (Hnd : NoDup [1; 2; 3; 4])
    by (repeat constructor; simpl; intuition lia).
  split; [exact HN|]. split; [exact Hg|]. split; [reflexivity|].
  apply (proj1 (proj2 (C10_noise_population_slices
                         (mkNoise 4 (3 # 4)%Q (1 # 2)%Q)
                         [1; 2; 3; 4] [5] HN Hg eq_refl Hnd))).
  vm_compute. reflexivity.
Defined.

(** * Further properties of the wiring helpers *)

(** ** [connect_one_to_one]: every source lands in one projection *)

Fixpoint count_true (mask : list bool) : nat :=
  match mask with
  | [] => 0
  | b :: t => (if b then 1 else 0) + count_true t
  end.

Lemma where_from_length mask : forall j,
  length (where_from j mask) = count_true mask.
Proof.
  induction mask as [|b t IH]; intro j; simpl; [reflexivity|].
  destruct b; simpl; now rewrite IH.
Qed.

Lemma masked_length {A} mask : forall (l : list A),
  length mask = length l -> length (masked mask l) = count_true mask.
Proof.
  induction mask as [|b t IH]; intros [|x l] H; simpl in *;
    try discriminate; [reflexivity|].
  destruct b; simpl; rewrite IH by lia; reflexivity.
Qed.

Lemma count_true_split (m : list bool) :
  count_true (map (Bool.eqb false) m) + count_true (map (Bool.eqb true) m)
  = length m.
Proof.
  induction m as [|b t IH]; simpl; [reflexivity|]. destruct b; simpl; lia.
Qed.

Lemma one_to_one_conn_list_length i_r j cb s_weights :
  length (one_to_one_conn_list i_r j cb s_weights)
  = count_true (map (Bool.eqb i_r) (map gt0 s_weights)).
Proof.
  unfold one_to_one_conn_list, np_where.
  rewrite length_map, length_combine, where_from_length.
  rewrite masked_length by now rewrite !length_map. apply Nat.min_id.
Qed.

(** The projections [connect_one_to_one_from] appends, one pair per
    (weights, sources) pair, in order. *)
Lemma connect_one_to_one_from_spec pairs : forall j0 population acc projs,
  connect_one_to_one_from j0 population pairs acc = Ok projs ->
  length (proj_inh projs) = length (proj_inh acc) + length pairs /\
  length (proj_exc projs) = length (proj_exc acc) + length pairs /\
  (forall k p, nth_error (proj_inh acc) k = Some p ->
               nth_error (proj_inh projs) k = Some p) /\
  (forall k p, nth_error (proj_exc acc) k = Some p ->
               nth_error (proj_exc projs) k = Some p) /\
  forall k ws src, nth_error pairs k = Some (ws, src) ->
    exists cb,
      pop_conductance_based population (j0 + k) = Ok cb /\
      nth_error (proj_inh projs) (length (proj_inh acc) + k)
        = Some (mkProjection src (j0 + k) inhibitory
                  (one_to_one_conn_list false (j0 + k) cb ws)) /\
      nth_error (proj_exc projs) (length (proj_exc acc) + k)
        = Some (mkProjection src (j0 + k) excitatory
                  (one_to_one_conn_list true (j0 + k) cb ws)).
Proof.
  induction pairs as [|[ws0 src0] rest IH]; intros j0 population acc projs H;
    simpl in H.
  - injection H as <-. repeat split; try (simpl; lia); auto.
    intros k ws src Hk. destruct k; discriminate.
  - destruct (pop_conductance_based population j0) as [cb|] eqn:Ecb;
      simpl in H; [|discriminate].
    apply IH in H. cbn [proj_inh proj_exc] in H.
    destruct H as (Hli & Hle & Hki & Hke & Hnew).
    rewrite !length_app in Hli, Hle. simpl in Hli, Hle.
    split; [simpl; lia|]. split; [simpl; lia|]. split; [|split].
    + intros k p Hk. apply Hki. rewrite nth_error_app1; [exact Hk|].
      apply nth_error_Some. congruence.
    + intros k p Hk. apply Hke. rewrite nth_error_app1; [exact Hk|].
      apply nth_error_Some. congruence.
    + intros k ws src Hk. destruct k as [|k]; simpl in Hk.
      * injection Hk as <- <-. exists cb. rewrite !Nat.add_0_r.
        split; [exact Ecb|]. split.
        -- apply Hki. rewrite nth_error_app2 by lia.
           now rewrite Nat.sub_diag.
        -- apply Hke. rewrite nth_error_app2 by lia.
           now rewrite Nat.sub_diag.
      * destruct (Hnew k ws src Hk) as (cb' & Hcb' & Hi & He).
        rewrite length_app in Hi, He. cbn [length] in Hi, He.
        exists cb'. replace (j0 + S k) with (S j0 + k) by lia.
        split; [exact Hcb'|].
        replace (length (proj_inh acc) + S k)
          with (length (proj_inh acc) + 1 + k) by lia.
        replace (length (proj_exc acc) + S k)
          with (length (proj_exc acc) + 1 + k) by lia.
        now split.
Qed.

(** X1: in a completed [connect_one_to_one] sampler [j] gets one inhibitory
    and one excitatory projection from its own sources, whose connection
    lists together hold one row per weight of the sampler: source [i] is in
    the excitatory list when its weight is positive and in the inhibitory
    list otherwise, never in both. *)
Theorem X1_one_to_one_partitions_sources sources population weights projs
    (H : connect_one_to_one sources population weights = Ok projs) :
  length (proj_inh projs) = Nat.min (length weights) (length sources) /\
  length (proj_exc projs) = Nat.min (length weights) (length sources) /\
  forall j ws src,
    nth_error weights j = Some ws -> nth_error sources j = Some src ->
    exists cb p_inh p_exc,
      pop_conductance_based population j = Ok cb /\
      nth_error (proj_inh projs) j = Some p_inh /\
      nth_error (proj_exc projs) j = Some p_exc /\
      proj_receptor p_inh = inhibitory /\ proj_receptor p_exc = excitatory /\
      proj_sources p_inh = src /\ proj_sources p_exc = src /\
      length (proj_conn_list p_inh) + length (proj_conn_list p_exc)
        = length ws /\
      forall i w, nth_error ws i = Some w ->
        (gt0 w = true ->
         In (i, j, trans cb w) (proj_conn_list p_exc) /\
         forall w', ~ In (i, j, w') (proj_conn_list p_inh)) /\
        (gt0 w = false ->
         In (i, j, trans cb w) (proj_conn_list p_inh) /\
         forall w', ~ In (i, j, w') (proj_conn_list p_exc)).
Proof.
  unfold connect_one_to_one in H. apply connect_one_to_one_from_spec in H.
  cbn [proj_inh proj_exc length] in H.
  destruct H as (Hli & Hle & _ & _ & Hnew).
  rewrite length_combine in Hli, Hle.
  split; [exact Hli|]. split; [exact Hle|].
  intros j ws src Hw Hs.
  assert (Hp : nth_error (combine weights sources) j = Some (ws, src)).
  { clear - Hw Hs. revert j sources Hw Hs.
    induction weights as [|w0 wt IH]; intros [|j] [|s0 st] Hw Hs;
      simpl in *; try discriminate.
    - now injection Hw as <-; injection Hs as <-.
    - now apply IH. }
  destruct (Hnew j ws src Hp) as (cb & Hcb & Hi & He). simpl in Hi, He, Hcb.
  exists cb. eexists. eexists. split; [exact Hcb|].
  split; [exact Hi|]. split; [exact He|]. cbn [proj_receptor proj_sources
    proj_conn_list]. repeat split.
  - rewrite !one_to_one_conn_list_length, count_true_split.
    apply length_map.
  - apply one_to_one_conn_list_spec. exists w. auto.
  - intros w' Hin. apply one_to_one_conn_list_spec in Hin.
    destruct Hin as (w0 & Hw0 & _ & _ & Hg). congruence.
  - apply one_to_one_conn_list_spec. exists w. auto.
  - intros w' Hin. apply one_to_one_conn_list_spec in Hin.
    destruct Hin as (w0 & Hw0 & _ & _ & Hg). congruence.
Qed.

Lemma X1_one_to_one_partitions_sources_witness :
  connect_one_to_one [7; 8] (PopulationList [false; true])
    [[(1 # 2)%Q; (-1 # 2)%Q]; [0%Q]]
  = Ok (mkProjections
          [mkProjection 7 0 inhibitory [(1, 0, (-1 # 2)%Q)];
           mkProjection 8 1 inhibitory [(0, 1, 0%Q)]]
          [mkProjection 7 0 excitatory [(0, 0, (1 # 2)%Q)];
           mkProjection 8 1 excitatory []]) /\
  length [mkProjection 7 0 inhibitory [(1, 0, (-1 # 2)%Q)];
          mkProjection 8 1 inhibitory [(0, 1, 0%Q)]] = 2.
Proof.
  split; [reflexivity|].
  exact (proj1 (X1_one_to_one_partitions_sources [7; 8]
                  (PopulationList [false; true])
                  [[(1 # 2)%Q; (-1 # 2)%Q]; [0%Q]] _ eq_refl)).
Defined.

Lemma in_projection_index (l : list Projection) p :
  In p l -> exists k, k < length l /\ nth_error l k = Some p.
Proof.
  intro H. apply In_nth_error in H. destruct H as (k & Hk).
  exists k. split; [|exact Hk]. apply nth_error_Some. congruence.
Qed.

Lemma nth_error_combine_Some {A B} (a : list A) (b : list B) k :
  k < Nat.min (length a) (length b) ->
  exists x y, nth_error (combine a b) k = Some (x, y) /\
              nth_error a k = Some x /\ nth_error b k = Some y.
Proof.
  revert b k. induction a as [|x a IH]; intros [|y b] k Hk; simpl in Hk;
    try lia.
  destruct k as [|k]; simpl.
  - now exists x, y.
  - apply IH. lia.
Qed.

Lemma trans_positive cb w : (0 < w)%Q -> (0 < trans cb w)%Q.
Proof.
  intro H. destruct cb; simpl; [|exact H].
  rewrite Qabs_pos; [exact H | lra].
Qed.

Lemma trans_nonpositive (cb : bool) w :
  (w <= 0)%Q -> if cb then (0 <= trans cb w)%Q else (trans cb w <= 0)%Q.
Proof. intro H. destruct cb; simpl; [apply Qabs_nonneg | exact H]. Qed.

(** X2: in a completed [connect_one_to_one] every row of an excitatory
    projection carries a positive weight; a row of an inhibitory projection
    carries the absolute value of its weight (so a weight [>= 0]) when the
    target population is conductance based, and the weight itself ([<= 0])
    when it is current based. *)
Theorem X2_one_to_one_row_weights sources population weights projs
    (H : connect_one_to_one sources population weights = Ok projs) :
  (forall p i j w', In p (proj_exc projs) -> In (i, j, w') (proj_conn_list p) ->
     (0 < w')%Q) /\
  (forall p i j w', In p (proj_inh projs) -> In (i, j, w') (proj_conn_list p) ->
     exists cb, pop_conductance_based population (proj_target p) = Ok cb /\
                if cb then (0 <= w')%Q else (w' <= 0)%Q).
Proof.
  unfold connect_one_to_one in H. apply connect_one_to_one_from_spec in H.
  cbn [proj_inh proj_exc length] in H.
  destruct H as (Hli & Hle & _ & _ & Hnew).
  rewrite length_combine in Hli, Hle. simpl in Hli, Hle. split.
  - intros p i j w' Hp Hrow. apply in_projection_index in Hp.
    destruct Hp as (k & Hk & Hpk). rewrite Hle in Hk.
    destruct (nth_error_combine_Some weights sources k Hk)
      as (ws & src & Hc & _ & _).
    destruct (Hnew k ws src Hc) as (cb & _ & _ & He). simpl in He.
    rewrite Hpk in He. injection He as ->. cbn [proj_conn_list] in Hrow.
    apply one_to_one_conn_list_spec in Hrow.
    destruct Hrow as (w & _ & _ & -> & Hg).
    apply trans_positive. now apply gt0_spec.
  - intros p i j w' Hp Hrow. apply in_projection_index in Hp.
    destruct Hp as (k & Hk & Hpk). rewrite Hli in Hk.
    destruct (nth_error_combine_Some weights sources k Hk)
      as (ws & src & Hc & _ & _).
    destruct (Hnew k ws src Hc) as (cb & Hcb & Hi & _). simpl in Hi, Hcb.
    rewrite Hpk in Hi. injection Hi as ->.
    cbn [proj_conn_list proj_target] in *.
    apply one_to_one_conn_list_spec in Hrow.
    destruct Hrow as (w & _ & _ & -> & Hg).
    exists cb. split; [exact Hcb|].
    apply trans_nonpositive. now apply gt0_false_spec.
Qed.

Lemma X2_one_to_one_row_weights_witness :
  connect_one_to_one [7] (BasePopulation true 1) [[(1 # 2)%Q; (-1 # 2)%Q]]
  = Ok (mkProjections
          [mkProjection 7 0 inhibitory [(1, 0, (1 # 2)%Q)]]
          [mkProjection 7 0 excitatory [(0, 0, (1 # 2)%Q)]]) /\
  (0 < 1 # 2)%Q.
Proof.
  split; [reflexivity|].
  refine (proj1 (X2_one_to_one_row_weights [7] (BasePopulation true 1)
                   [[(1 # 2)%Q; (-1 # 2)%Q]] _ eq_refl)
            (mkProjection 7 0 excitatory [(0, 0, (1 # 2)%Q)]) 0 0 (1 # 2)%Q
            _ _); simpl; auto.
Defined.

Lemma connect_one_to_one_from_Raise pairs : forall j0 population acc e,
  connect_one_to_one_from j0 population pairs acc = Raise e ->
  e = IndexError /\
  exists l k, population = PopulationList l /\ k < length pairs /\
              length l <= j0 + k.
Proof.
  induction pairs as [|[ws src] rest IH]; intros j0 population acc e H;
    simpl in H; [discriminate|].
  destruct (pop_conductance_based population j0) as [cb|e0] eqn:Ecb;
    simpl in H.
  - apply IH in H. destruct H as (-> & l & k & -> & Hk & Hl).
    split; [reflexivity|]. exists l, (S k). split; [reflexivity|].
    simpl. split; lia.
  - injection H as <-. destruct population as [cb n | l]; simpl in Ecb;
      [discriminate|].
    unfold getitem in Ecb. destruct (nth_error l j0) eqn:E; [discriminate|].
    injection Ecb as <-. split; [reflexivity|].
    exists l, 0. split; [reflexivity|]. apply nth_error_None in E.
    simpl. split; lia.
Qed.

(** X3: over a list of populations [connect_one_to_one] looks up
    [population[j]] for the [j]-th (weights, sources) pair, so it can
    complete only if the list has an entry for every pair it walks, their
    number being the shorter of the two lengths.  With a shorter list the
    lookup at [j = len(population)] is reached, the PyNN constructors of
    the pairs before taken to accept their arguments, and raises
    [IndexError]. *)
Theorem X3_one_to_one_population_bounds sources weights l :
  (forall projs,
      connect_one_to_one sources (PopulationList l) weights = Ok projs ->
      Nat.min (length weights) (length sources) <= length l) /\
  (connect_one_to_one sources (PopulationList l) weights = Raise IndexError
   <-> length l < Nat.min (length weights) (length sources)).
Proof.
  unfold connect_one_to_one.
  assert (Hok : forall projs,
            connect_one_to_one_from 0 (PopulationList l)
              (combine weights sources) (mkProjections [] []) = Ok projs ->
            Nat.min (length weights) (length sources) <= length l).
  { intros projs E.
    destruct (Nat.lt_ge_cases (length l)
                (Nat.min (length weights) (length sources))) as [Hk | Hk];
      [exfalso | exact Hk].
    apply connect_one_to_one_from_spec in E.
    destruct E as (_ & _ & _ & _ & Hnew).
    destruct (nth_error_combine_Some weights sources (length l) Hk)
      as (ws & src & Hc & _ & _).
    destruct (Hnew _ _ _ Hc) as (cb & Hcb & _). simpl in Hcb.
    unfold getitem in Hcb.
    destruct (nth_error l (length l)) eqn:En; [|discriminate].
    assert (length l < length l) by (apply nth_error_Some; congruence).
    lia. }
  split; [exact Hok|]. split.
  - intro H. apply connect_one_to_one_from_Raise in H.
    destruct H as (_ & l' & k & Hl & Hk & Hlen). injection Hl as <-.
    rewrite length_combine in Hk. simpl in Hlen. lia.
  - intro Hlt.
    destruct (connect_one_to_one_from 0 (PopulationList l)
                (combine weights sources) (mkProjections [] []))
      as [projs|e] eqn:E.
    + specialize (Hok projs eq_refl). lia.
    + apply connect_one_to_one_from_Raise in E. now destruct E as (-> & _).
Qed.

(** ** [connect_sources_regular] *)

Lemma filter_split_length {A} (p q : A -> bool) (l : list A) :
  (forall x, q x = negb (p x)) ->
  length (filter p l) + length (filter q l) = length l.
Proof.
  intro H. induction l as [|x t IH]; simpl; [reflexivity|].
  rewrite H. destruct (p x); simpl; lia.
Qed.

Lemma ge0_negb_lt0 w : ge0 w = negb (lt0 w).
Proof. unfold lt0. now rewrite negb_involutive. Qed.

(** X4: for a single target population [connect_sources_regular] builds one
    inhibitory and one excitatory projection whose connection lists together
    hold one row per row of [conn_list]: a row of negative weight goes to the
    inhibitory list, any other row to the excitatory one, each with its
    [pre] and [post] kept and its weight passed through [trans]. *)
Theorem X4_regular_single_population sources cb n conn_list :
  exists rows_inh rows_exc,
    connect_sources_regular sources (BasePopulation cb n) conn_list
      = mkProjections [mkProjection sources 0 inhibitory rows_inh]
                      [mkProjection sources 0 excitatory rows_exc] /\
    length rows_inh + length rows_exc = length conn_list /\
    (forall pre post w',
        In (pre, post, w') rows_inh <->
        exists w, In (pre, post, w) conn_list /\ w' = trans cb w /\ (w < 0)%Q) /\
    (forall pre post w',
        In (pre, post, w') rows_exc <->
        exists w, In (pre, post, w) conn_list /\ w' = trans cb w /\ (0 <= w)%Q).
Proof.
  exists (regular_rows_inh cb conn_list), (regular_rows_exc cb conn_list).
  split; [reflexivity|]. split; [|split].
  - unfold regular_rows_inh, regular_rows_exc. rewrite !length_map.
    apply filter_split_length. intros [[pre post] w]. apply ge0_negb_lt0.
  - intros. apply regular_rows_inh_spec.
  - intros. apply regular_rows_exc_spec.
Qed.

Lemma connect_sources_regular_list_spec sources conn_list pops :
  forall j0 acc,
  let projs := connect_sources_regular_list sources j0 pops conn_list acc in
  length (proj_inh projs) = length (proj_inh acc) + length pops /\
  length (proj_exc projs) = length (proj_exc acc) + length pops /\
  (forall k p, nth_error (proj_inh acc) k = Some p ->
               nth_error (proj_inh projs) k = Some p) /\
  (forall k p, nth_error (proj_exc acc) k = Some p ->
               nth_error (proj_exc projs) k = Some p) /\
  forall k cb, nth_error pops k = Some cb ->
    nth_error (proj_inh projs) (length (proj_inh acc) + k)
      = Some (mkProjection sources (j0 + k) inhibitory
                (regular_rows_inh_at (j0 + k) cb conn_list)) /\
    nth_error (proj_exc projs) (length (proj_exc acc) + k)
      = Some (mkProjection sources (j0 + k) excitatory
                (regular_rows_exc_at (j0 + k) cb conn_list)).
Proof.
  induction pops as [|cb0 rest IH]; intros j0 acc; cbv zeta; simpl.
  - split; [lia|]. split; [lia|]. split; [auto|]. split; [auto|].
    intros k cb Hk. destruct k; discriminate.
  - specialize (IH (S j0)
      (mkProjections
         (proj_inh acc ++ [mkProjection sources j0 inhibitory
                             (regular_rows_inh_at j0 cb0 conn_list)])
         (proj_exc acc ++ [mkProjection sources j0 excitatory
                             (regular_rows_exc_at j0 cb0 conn_list)]))).
    cbv zeta in IH. cbn [proj_inh proj_exc] in IH.
    destruct IH as (Hli & Hle & Hki & Hke & Hnew).
    rewrite !length_app in Hli, Hle. simpl in Hli, Hle.
    split; [lia|]. split; [lia|]. split; [|split].
    + intros k p Hk. apply Hki. rewrite nth_error_app1; [exact Hk|].
      apply nth_error_Some. congruence.
    + intros k p Hk. apply Hke. rewrite nth_error_app1; [exact Hk|].
      apply nth_error_Some. congruence.
    + intros k cb Hk. destruct k as [|k]; simpl in Hk.
      * injection Hk as <-. rewrite !Nat.add_0_r. split.
        -- apply Hki. rewrite nth_error_app2 by lia.
           now rewrite Nat.sub_diag.
        -- apply Hke. rewrite nth_error_app2 by lia.
           now rewrite Nat.sub_diag.
      * destruct (Hnew k cb Hk) as (Hi & He).
        rewrite length_app in Hi, He. cbn [length] in Hi, He.
        replace (j0 + S k) with (S j0 + k) by lia.
        replace (length (proj_inh acc) + S k)
          with (length (proj_inh acc) + 1 + k) by lia.
        replace (length (proj_exc acc) + S k)
          with (length (proj_exc acc) + 1 + k) by lia.
        now split.
Qed.

Lemma regular_rows_exc_at_spec j cb conn_list pre post w' :
  In (pre, post, w') (regular_rows_exc_at j cb conn_list) <->
  post = 0 /\
  exists w, In (pre, j, w) conn_list /\ w' = trans cb w /\ (0 <= w)%Q.
Proof.
  unfold regular_rows_exc_at. rewrite in_map_iff. split.
  - intros ([[p q] w] & Heq & Hin). simpl in Heq.
    injection Heq as Hp Hq Hw. subst p post w'.
    apply filter_In in Hin. destruct Hin as (Hin & Hc). simpl in Hc.
    apply andb_true_iff in Hc. destruct Hc as (Hge & Hj).
    apply Nat.eqb_eq in Hj. subst q. split; [reflexivity|].
    exists w. repeat split; auto. now apply ge0_spec.
  - intros (-> & w & Hin & -> & Hge). exists (pre, j, w).
    split; [reflexivity|]. apply filter_In. split; [exact Hin|]. simpl.
    apply andb_true_iff. split; [now apply ge0_spec | apply Nat.eqb_refl].
Qed.

Lemma regular_rows_inh_at_spec j cb conn_list pre post w' :
  In (pre, post, w') (regular_rows_inh_at j cb conn_list) <->
  post = 0 /\
  exists w, In (pre, j, w) conn_list /\ w' = trans cb w /\ (w < 0)%Q.
Proof.
  unfold regular_rows_inh_at. rewrite in_map_iff. split.
  - intros ([[p q] w] & Heq & Hin). simpl in Heq.
    injection Heq as Hp Hq Hw. subst p post w'.
    apply filter_In in Hin. destruct Hin as (Hin & Hc). simpl in Hc.
    apply andb_true_iff in Hc. destruct Hc as (Hlt & Hj).
    apply Nat.eqb_eq in Hj. subst q. split; [reflexivity|].
    exists w. repeat split; auto. now apply lt0_spec.
  - intros (-> & w & Hin & -> & Hlt). exists (pre, j, w).
    split; [reflexivity|]. apply filter_In. split; [exact Hin|]. simpl.
    apply andb_true_iff. split; [now apply lt0_spec | apply Nat.eqb_refl].
Qed.

Lemma filter_and_split_length {A} (p q r : A -> bool) (l : list A) :
  (forall x, q x = negb (p x)) ->
  length (filter (fun x => p x && r x) l) +
  length (filter (fun x => q x && r x) l) = length (filter r l).
Proof.
  intro H. induction l as [|x t IH]; simpl; [reflexivity|].
  rewrite H. destruct (p x), (r x); simpl; lia.
Qed.

(** X5: for a list of target populations [connect_sources_regular] builds,
    for every population [j] of the list, one inhibitory and one excitatory
    projection; the two hold exactly the rows of [conn_list] addressed to
    [j], split by [weight < 0], each re-addressed to neuron [0] of that
    population.  A row addressed to an index beyond the list is in no
    projection. *)
Theorem X5_regular_population_list sources pops conn_list :
  let projs := connect_sources_regular sources (PopulationList pops)
                 conn_list in
  length (proj_inh projs) = length pops /\
  length (proj_exc projs) = length pops /\
  (forall j cb, nth_error pops j = Some cb ->
     exists rows_inh rows_exc,
       nth_error (proj_inh projs) j
         = Some (mkProjection sources j inhibitory rows_inh) /\
       nth_error (proj_exc projs) j
         = Some (mkProjection sources j excitatory rows_exc) /\
       length rows_inh + length rows_exc
         = length (filter (fun r => snd (fst r) =? j) conn_list) /\
       (forall pre post w',
           In (pre, post, w') rows_inh <->
           post = 0 /\
           exists w, In (pre, j, w) conn_list /\ w' = trans cb w /\
                     (w < 0)%Q) /\
       (forall pre post w',
           In (pre, post, w') rows_exc <->
           post = 0 /\
           exists w, In (pre, j, w) conn_list /\ w' = trans cb w /\
                     (0 <= w)%Q)) /\
  (forall p pre post w',
     In p (proj_inh projs ++ proj_exc projs) ->
     In (pre, post, w') (proj_conn_list p) ->
     proj_target p < length pops /\
     exists w, In (pre, proj_target p, w) conn_list).
Proof.
  cbv zeta. unfold connect_sources_regular.
  pose proof (connect_sources_regular_list_spec sources conn_list pops 0
                (mkProjections [] [])) as Hs.
  cbv zeta in Hs. cbn [proj_inh proj_exc length] in Hs.
  destruct Hs as (Hli & Hle & _ & _ & Hnew).
  split; [exact Hli|]. split; [exact Hle|]. split.
  - intros j cb Hj. destruct (Hnew j cb Hj) as (Hi & He). simpl in Hi, He.
    eexists. eexists. split; [exact Hi|]. split; [exact He|]. split; [|split].
    + unfold regular_rows_inh_at, regular_rows_exc_at. rewrite !length_map.
      apply (filter_and_split_length
               (fun r : nat * nat * float => lt0 (snd r))
               (fun r => ge0 (snd r)) (fun r => snd (fst r) =? j)).
      intros [[pre post] w]. apply ge0_negb_lt0.
    + intros. apply regular_rows_inh_at_spec.
    + intros. apply regular_rows_exc_at_spec.
  - intros p pre post w' Hp Hrow. apply in_app_or in Hp.
    destruct Hp as [Hp | Hp]; apply in_projection_index in Hp;
      destruct Hp as (k & Hk & Hpk).
    + rewrite Hli in Hk. simpl in Hk.
      destruct (nth_error pops k) as [cb|] eqn:Ecb;
        [|apply nth_error_None in Ecb; lia].
      destruct (Hnew k cb Ecb) as (Hi & _). simpl in Hi.
      rewrite Hpk in Hi. injection Hi as ->.
      cbn [proj_target proj_conn_list] in *. split; [exact Hk|].
      apply regular_rows_inh_at_spec in Hrow.
      destruct Hrow as (_ & w & Hin & _). now exists w.
    + rewrite Hle in Hk. simpl in Hk.
      destruct (nth_error pops k) as [cb|] eqn:Ecb;
        [|apply nth_error_None in Ecb; lia].
      destruct (Hnew k cb Ecb) as (_ & He). simpl in He.
      rewrite Hpk in He. injection He as ->.
      cbn [proj_target proj_conn_list] in *. split; [exact Hk|].
      apply regular_rows_exc_at_spec in Hrow.
      destruct Hrow as (_ & w & Hin & _). now exists w.
Qed.

(** ** [get_distribution_parameters] *)

Lemma masked_map_filter {A} (f : A -> bool) (l : list A) :
  masked (map f l) l = filter f l.
Proof.
  induction l as [|x t IH]; simpl; [reflexivity|].
  destruct (f x); now rewrite IH.
Qed.

Lemma masked_combine {A B} (mask : list bool) : forall (a : list A) (b : list B),
  masked mask (combine a b) = combine (masked mask a) (masked mask b).
Proof.
  induction mask as [|m mt IH]; intros [|x a] [|y b]; simpl;
    try reflexivity.
  - destruct m; simpl; [reflexivity | now destruct (masked mt a)].
  - destruct m; simpl; now rewrite IH.
Qed.

Lemma masked_map_snd_combine {A B} (f : B -> bool) :
  forall (a : list A) (b : list B),
  masked (map f b) (combine a b) = filter (fun ab => f (snd ab)) (combine a b).
Proof.
  induction a as [|x a IH]; intros [|y b]; simpl; try reflexivity.
  destruct (f y); now rewrite IH.
Qed.

Lemma count_true_negb (m : list bool) :
  count_true m + count_true (map negb m) = length m.
Proof. induction m as [|b t IH]; simpl; [reflexivity|]. destruct b; simpl; lia. Qed.

(** X6: [get_distribution_parameters] splits the sources of a
    configuration whose rates and weights have equal length into an
    excitatory and an inhibitory part without losing or duplicating any: the
    excitatory weights are the positive ones, the inhibitory weights all
    others (zero included), each rate stays paired with its weight, and in
    both parts the order of the configuration is kept. *)
Theorem X6_distribution_parameters_partition rates weights
    (Hlen : length rates = length weights) :
  let d := get_distribution_parameters rates weights in
  weights_exc d = filter gt0 weights /\
  weights_inh d = filter (fun w => negb (gt0 w)) weights /\
  Forall (fun w => (0 < w)%Q) (weights_exc d) /\
  Forall (fun w => (w <= 0)%Q) (weights_inh d) /\
  combine (rates_exc d) (weights_exc d)
    = filter (fun rw => gt0 (snd rw)) (combine rates weights) /\
  combine (rates_inh d) (weights_inh d)
    = filter (fun rw => negb (gt0 (snd rw))) (combine rates weights) /\
  length (rates_exc d) = length (weights_exc d) /\
  length (rates_inh d) = length (weights_inh d) /\
  length (rates_exc d) + length (rates_inh d) = length rates.
Proof.
  cbv zeta. unfold get_distribution_parameters.
  cbn [rates_exc rates_inh weights_exc weights_inh].
  rewrite !map_map.
  assert (Hm1 : length (map gt0 weights) = length rates)
    by now rewrite length_map.
  assert (Hm2 : length (map (fun x => negb (gt0 x)) weights) = length rates)
    by now rewrite length_map.
  assert (Hm3 : length (map gt0 weights) = length weights)
    by now rewrite length_map.
  assert (Hm4 : length (map (fun x => negb (gt0 x)) weights) = length weights)
    by now rewrite length_map.
  split; [apply masked_map_filter|].
  split; [apply (masked_map_filter (fun w => negb (gt0 w)))|].
  split.
  { rewrite masked_map_filter. apply Forall_forall. intros w Hw.
    apply filter_In in Hw. now apply gt0_spec. }
  split.
  { rewrite (masked_map_filter (fun w => negb (gt0 w))).
    apply Forall_forall. intros w Hw. apply filter_In in Hw.
    destruct Hw as (_ & Hw). apply negb_true_iff in Hw.
    now apply gt0_false_spec. }
  split; [rewrite <- masked_combine; apply masked_map_snd_combine|].
  split.
  { rewrite <- masked_combine.
    apply (masked_map_snd_combine (fun w => negb (gt0 w))). }
  rewrite !masked_length by assumption.
  split; [reflexivity|]. split; [reflexivity|].
  rewrite <- (map_map gt0 negb), count_true_negb. now rewrite length_map.
Qed.

Lemma X6_distribution_parameters_partition_witness :
  length [2000%Q; 1000%Q; 500%Q] = length [(1 # 2)%Q; 0%Q; (-1 # 2)%Q] /\
  weights_inh (get_distribution_parameters [2000%Q; 1000%Q; 500%Q]
                 [(1 # 2)%Q; 0%Q; (-1 # 2)%Q])
  = filter (fun w => negb (gt0 w)) [(1 # 2)%Q; 0%Q; (-1 # 2)%Q].
Proof.
  split; [reflexivity|].
  exact (proj1 (proj2 (X6_distribution_parameters_partition
                         [2000%Q; 1000%Q; 500%Q]
                         [(1 # 2)%Q; 0%Q; (-1 # 2)%Q] eq_refl))).
Defined.

(** ** [np.unique]: the order of the generators *)

Fixpoint ascending (l : list float) : Prop :=
  match l with
  | a :: (b :: _) as t => (a <= b)%Q /\ ascending t
  | _ => True
  end.

Fixpoint strictly_ascending (l : list float) : Prop :=
  match l with
  | a :: (b :: _) as t => (a < b)%Q /\ strictly_ascending t
  | _ => True
  end.

Lemma insert_sorted_ascending x l :
  ascending (map snd l) -> ascending (map snd (insert_sorted x l)).
Proof.
  induction l as [|y t IH]; intro H; simpl; [exact I|].
  destruct (Qle_bool (snd x) (snd y)) eqn:E.
  - simpl. split; [now apply Qle_bool_iff | exact H].
  - assert (Hyx : (snd y <= snd x)%Q).
    { apply Qlt_le_weak, Qnot_le_lt. intro Hle.
      apply Qle_bool_iff in Hle. congruence. }
    destruct t as [|z t'].
    + simpl. split; [exact Hyx | exact I].
    + simpl in H. destruct H as (Hyz & Ht).
      specialize (IH Ht). simpl in IH. simpl.
      destruct (Qle_bool (snd x) (snd z)); simpl in *; split; auto.
Qed.

Lemma sort_pairs_ascending l : ascending (map snd (sort_pairs l)).
Proof.
  induction l as [|x t IH]; simpl; [exact I|].
  now apply insert_sorted_ascending.
Qed.

Lemma strictly_ascending_head a b t :
  (a == b)%Q -> strictly_ascending (b :: t) -> strictly_ascending (a :: t).
Proof.
  intros Hab H. destruct t as [|c t']; [exact I|].
  simpl in *. destruct H as (Hbc & Ht). split; [|exact Ht].
  now rewrite Hab.
Qed.

Lemma run_starts_strict t : forall prev,
  ascending (prev :: t) ->
  strictly_ascending (prev :: masked (run_starts prev t) t).
Proof.
  induction t as [|x t IH]; intros prev H; [exact I|].
  destruct H as (Hpx & Ht). specialize (IH x Ht).
  cbn [run_starts masked]. destruct (Qeq_bool x prev) eqn:E; cbn [negb].
  - apply Qeq_bool_iff in E.
    apply strictly_ascending_head with (b := x); [now symmetry | exact IH].
  - split; [|exact IH].
    apply Qle_lt_or_eq in Hpx. destruct Hpx as [Hlt | Heq]; [exact Hlt|].
    exfalso. apply Qeq_bool_neq in E. apply E. now symmetry.
Qed.

Lemma masked_incl {A} (mask : list bool) : forall (l : list A) x,
  In x (masked mask l) -> In x l.
Proof.
  induction mask as [|b mt IH]; intros [|y t] x H; simpl in H;
    try contradiction.
  destruct b; simpl in *; [destruct H as [-> | H]|]; auto.
Qed.

(** X7: [np.unique(rates, return_inverse=True)], as used for the Poisson
    generators, returns the distinct rates in strictly ascending order, each
    of them a rate of the input; the inverse array has one entry per input
    rate, and the unique rate at that entry equals the input rate. *)
Theorem X7_unique_rates_sorted_and_inverse (ar : list float) :
  strictly_ascending (fst (np_unique ar)) /\
  (forall u, In u (fst (np_unique ar)) -> In u ar) /\
  length (fst (np_unique ar)) <= length ar /\
  length (snd (np_unique ar)) = length ar /\
  forall i x, nth_error ar i = Some x ->
    exists j u, nth_error (snd (np_unique ar)) i = Some j /\
                nth_error (fst (np_unique ar)) j = Some u /\ (u == x)%Q.
Proof.
  split; [|split; [|split; [|split]]].
  - unfold np_unique. cbn [fst].
    pose proof (sort_pairs_ascending (combine (seq 0 (length ar)) ar)) as Hs.
    destruct (map snd (sort_pairs (combine (seq 0 (length ar)) ar)))
      as [|x t]; [exact I|].
    cbn [unique_mask masked]. now apply run_starts_strict.
  - intros u Hu. unfold np_unique in Hu. cbn [fst] in Hu.
    apply masked_incl in Hu. apply in_map_iff in Hu.
    destruct Hu as ([p v] & <- & Hin).
    eapply Permutation_in in Hin; [|apply sort_pairs_perm].
    apply in_enumerate in Hin. destruct Hin as (_ & Hin).
    eapply nth_error_In. exact Hin.
  - unfold np_unique. cbn [fst].
    set (aux := map snd (sort_pairs (combine (seq 0 (length ar)) ar))).
    assert (Haux : length aux = length ar).
    { unfold aux. rewrite length_map.
      rewrite (Permutation_length (sort_pairs_perm _)).
      rewrite length_combine, length_seq. apply Nat.min_id. }
    rewrite <- Haux. clear Haux. generalize (unique_mask aux) as mask.
    induction aux as [|x t IH]; intros [|b mt]; simpl; try lia.
    destruct b; simpl; specialize (IH mt); lia.
  - apply np_unique_inverse_length.
  - apply np_unique_spec.
Qed.

(** ** The table of spike trains of [create_connect_regular] *)

(** No entry of the table equals an earlier one. *)
Definition pairwise_distinct (table : list (list float)) : Prop :=
  forall i j a b, i < j ->
    nth_error table i = Some a -> nth_error table j = Some b ->
    array_equal a b = false.

Lemma find_spike_times_None table x : forall i,
  find_spike_times i table x = None ->
  forall st, In st table -> array_equal st x = false.
Proof.
  induction table as [|st0 rest IH]; intros i H st Hin; simpl in *;
    [contradiction|].
  destruct (array_equal st0 x) eqn:E; [discriminate|].
  destruct Hin as [<- | Hin]; [exact E | eapply IH; eassumption].
Qed.

Lemma find_spike_times_first table x : forall i k,
  find_spike_times i table x = Some k ->
  forall m st, m < k - i -> nth_error table m = Some st ->
               array_equal st x = false.
Proof.
  induction table as [|st0 rest IH]; intros i k H m st Hm Hn; simpl in H;
    [discriminate|].
  destruct (array_equal st0 x) eqn:E.
  - injection H as <-. lia.
  - destruct m as [|m]; simpl in Hn.
    + now injection Hn as <-.
    + apply (IH (S i) k H m st); [|exact Hn].
      apply find_spike_times_spec in H. lia.
Qed.

Lemma find_spike_times_app table x ext : forall i k,
  find_spike_times i table x = Some k ->
  find_spike_times i (table ++ ext) x = Some k.
Proof.
  induction table as [|st0 rest IH]; intros i k H; simpl in *; [discriminate|].
  destruct (array_equal st0 x); [exact H | now apply IH].
Qed.

Lemma find_spike_times_appended table x : forall i,
  find_spike_times i table x = None ->
  find_spike_times i (table ++ [x]) x = Some (i + length table).
Proof.
  induction table as [|st0 rest IH]; intros i H; simpl in *.
  - rewrite array_equal_refl. f_equal. lia.
  - destruct (array_equal st0 x); [discriminate|].
    rewrite IH by exact H. f_equal. lia.
Qed.

Lemma get_index_distinct table x k table' :
  pairwise_distinct table -> get_index table x = (k, table') ->
  pairwise_distinct table'.
Proof.
  unfold get_index. intros Hd H.
  destruct (find_spike_times 0 table x) eqn:E; injection H as <- <-;
    [exact Hd|].
  intros i j a b Hij Ha Hb.
  destruct (Nat.lt_ge_cases j (length table)) as [Hj | Hj].
  - rewrite nth_error_app1 in Ha, Hb by lia. exact (Hd i j a b Hij Ha Hb).
  - rewrite nth_error_app2 in Hb by exact Hj.
    destruct (j - length table) as [|m] eqn:Em;
      [|destruct m; discriminate].
    simpl in Hb. injection Hb as <-.
    rewrite nth_error_app1 in Ha by lia.
    eapply find_spike_times_None; [exact E|]. eapply nth_error_In. exact Ha.
Qed.

Lemma get_indices_distinct trains : forall table ks table',
  pairwise_distinct table -> get_indices table trains = (ks, table') ->
  pairwise_distinct table'.
Proof.
  induction trains as [|st rest IH]; intros table ks table' Hd H; simpl in H.
  - now injection H as _ <-.
  - destruct (get_index table st) as [k0 t1] eqn:E0.
    destruct (get_indices t1 rest) as [js t2] eqn:E1.
    injection H as _ <-.
    eapply IH; [|exact E1]. eapply get_index_distinct; eassumption.
Qed.

(** X8: [get_index] hands out the index of the first stored train equal to
    the one asked for and stores the train when there is none.  A table
    without two equal entries stays so, entries already stored keep their
    index, and asking again for the same train returns the same index
    without growing the table. *)
Theorem X8_get_index_lookup_after_insert table x k table'
    (Hd : pairwise_distinct table)
    (H : get_index table x = (k, table')) :
  pairwise_distinct table' /\
  answers table' k x /\
  (exists ext, table' = table ++ ext /\ length ext <= 1) /\
  (forall m st, m < k -> nth_error table' m = Some st ->
                array_equal st x = false) /\
  get_index table' x = (k, table').
Proof.
  split; [eapply get_index_distinct; eassumption|].
  split; [now apply (get_index_spec table x k table')|].
  unfold get_index in *.
  destruct (find_spike_times 0 table x) as [i|] eqn:E; injection H as <- <-.
  - split; [exists []; rewrite app_nil_r; split; [reflexivity | simpl; lia]|].
    split; [|now rewrite E].
    intros m st Hm Hn. eapply find_spike_times_first; [exact E | | exact Hn].
    lia.
  - split; [exists [x]; split; [reflexivity | simpl; lia]|].
    rewrite length_app. simpl.
    replace (length table + 1 - 1) with (length table) by lia.
    split.
    + intros m st Hm Hn. rewrite nth_error_app1 in Hn by exact Hm.
      eapply find_spike_times_None; [exact E|]. eapply nth_error_In. exact Hn.
    + rewrite (find_spike_times_appended table x 0 E). reflexivity.
Qed.

Lemma X8_get_index_lookup_after_insert_witness :
  get_index [[1%Q; 2%Q]] [3%Q] = (1, [[1%Q; 2%Q]; [3%Q]]) /\
  get_index [[1%Q; 2%Q]; [3%Q]] [3%Q] = (1, [[1%Q; 2%Q]; [3%Q]]).
Proof.
  split; [reflexivity|].
  refine (proj2 (proj2 (proj2 (proj2
            (X8_get_index_lookup_after_insert [[1%Q; 2%Q]] [3%Q] 1
               [[1%Q; 2%Q]; [3%Q]] _ eq_refl))))).
  intros i j a b Hij Ha Hb. destruct i as [|i]; [|destruct i; discriminate].
  destruct j as [|j]; [lia|]. destruct j; discriminate.
Defined.

Lemma regular_conn_rows_spec trains : forall j table rows table',
  regular_conn_rows j table trains = (rows, table') ->
  get_indices table (map snd trains) = (map (fun r => fst (fst r)) rows, table')
  /\ map (fun r => (snd (fst r), snd r)) rows
     = map (fun t => (j, fst t)) trains.
Proof.
  induction trains as [|[w st] rest IH]; intros j table rows table' H;
    simpl in H.
  - injection H as <- <-. now split.
  - simpl. destruct (get_index table st) as [k0 t1] eqn:E0.
    destruct (regular_conn_rows j t1 rest) as [rs t2] eqn:E1.
    injection H as <- <-. apply IH in E1. destruct E1 as (E1 & Hrows).
    rewrite E1. simpl. split; [reflexivity|]. f_equal. exact Hrows.
Qed.

Lemma nth_error_enumerate {A} (l : list A) : forall s i x,
  nth_error l i = Some x ->
  nth_error (combine (seq s (length l)) l) i = Some (s + i, x).
Proof.
  induction l as [|y t IH]; intros s [|i] x H; simpl in *; try discriminate.
  - injection H as <-. now rewrite Nat.add_0_r.
  - rewrite (IH (S s) i x H). f_equal. f_equal. lia.
Qed.

Lemma trains_of_nth sc i w :
  nth_error (fst_weights sc) i = Some w ->
  nth_error (trains_of sc) i
  = Some (w, select_train (fst_spike_times sc) (fst_spike_ids sc) i).
Proof.
  unfold trains_of. intro H. rewrite nth_error_map.
  now rewrite (nth_error_enumerate _ 0 i w H).
Qed.

Lemma get_indices_table_length trains : forall table ks table',
  get_indices table trains = (ks, table') ->
  length table' <= length table + length trains.
Proof.
  induction trains as [|st rest IH]; intros table ks table' H; simpl in H.
  - injection H as _ <-. lia.
  - destruct (get_index table st) as [k0 t1] eqn:E0.
    destruct (get_indices t1 rest) as [js t2] eqn:E1.
    injection H as _ <-. apply IH in E1.
    assert (length t1 <= length table + 1).
    { unfold get_index in E0.
      destruct (find_spike_times 0 table st); injection E0 as _ <-;
        [lia | rewrite length_app; simpl; lia]. }
    simpl. lia.
Qed.

Lemma regular_conn_rows_facts trains j table rows table' :
  regular_conn_rows j table trains = (rows, table') ->
  (exists ext, table' = table ++ ext) /\
  length table' <= length table + length trains /\
  length rows = length trains /\
  (pairwise_distinct table -> pairwise_distinct table') /\
  forall i w st, nth_error trains i = Some (w, st) ->
    exists k, nth_error rows i = Some (k, j, w) /\ answers table' k st.
Proof.
  intro H. apply regular_conn_rows_spec in H. destruct H as (Hg & Hrows).
  pose proof (get_indices_spec _ _ _ _ Hg) as (Hext & Hlen & Hans).
  pose proof (get_indices_table_length _ _ _ _ Hg) as Htl.
  rewrite !length_map in Hlen. rewrite length_map in Htl.
  split; [exact Hext|]. split; [exact Htl|]. split; [exact Hlen|].
  split; [intro Hd; eapply get_indices_distinct; eassumption|].
  intros i w st Hi.
  assert (Hr : exists r, nth_error rows i = Some r).
  { destruct (nth_error rows i) eqn:E; [now eexists|].
    apply nth_error_None in E.
    assert (i < length trains) by (apply nth_error_Some; congruence). lia. }
  destruct Hr as ([[k j'] w'] & Hr).
  assert (Hjw : (j', w') = (j, w)).
  { assert (Ha : nth_error (map (fun r : nat * nat * float =>
                                   (snd (fst r), snd r)) rows) i
                 = Some (j', w')) by now rewrite nth_error_map, Hr.
    rewrite Hrows, nth_error_map, Hi in Ha. simpl in Ha. congruence. }
  injection Hjw as -> ->. exists k. split; [exact Hr|].
  apply (Hans i k st).
  - now rewrite nth_error_map, Hr.
  - now rewrite nth_error_map, Hi.
Qed.

Lemma regular_conn_list_facts samplers : forall j0 table rows table',
  regular_conn_list j0 table samplers = (rows, table') ->
  (exists ext, table' = table ++ ext) /\
  length table' <= length table
                   + list_sum (map (fun sc => length (fst_weights sc)) samplers)
  /\
  length rows = list_sum (map (fun sc => length (fst_weights sc)) samplers) /\
  (pairwise_distinct table -> pairwise_distinct table') /\
  forall k sc i w,
    nth_error samplers k = Some sc -> nth_error (fst_weights sc) i = Some w ->
    exists source_id,
      In (source_id, j0 + k, w) rows /\
      answers table' source_id
        (select_train (fst_spike_times sc) (fst_spike_ids sc) i).
Proof.
  induction samplers as [|sc0 rest IH]; intros j0 table rows table' H;
    simpl in H.
  - injection H as <- <-. split; [exists []; now rewrite app_nil_r|].
    split; [simpl; lia|]. split; [reflexivity|]. split; [auto|].
    intros k sc i w Hk. destruct k; discriminate.
  - destruct (regular_conn_rows j0 table (trains_of sc0)) as [rows0 t1] eqn:E0.
    destruct (regular_conn_list (S j0) t1 rest) as [rows1 t2] eqn:E1.
    injection H as <- <-.
    apply regular_conn_rows_facts in E0.
    destruct E0 as ((ext0 & ->) & Htl0 & Hl0 & Hd0 & Hr0).
    apply IH in E1. destruct E1 as ((ext1 & ->) & Htl1 & Hl1 & Hd1 & Hr1).
    assert (Htrains : length (trains_of sc0) = length (fst_weights sc0)).
    { unfold trains_of. rewrite length_map, length_combine, length_seq.
      apply Nat.min_id. }
    rewrite Htrains in Htl0, Hl0.
    split; [exists (ext0 ++ ext1); now rewrite app_assoc|].
    split; [simpl; lia|].
    split; [rewrite length_app; simpl; lia|].
    split; [auto|].
    intros k sc i w Hk Hw. destruct k as [|k]; simpl in Hk.
    + injection Hk as <-. apply trains_of_nth in Hw.
      destruct (Hr0 _ _ _ Hw) as (sid & Hrow & Hans).
      exists sid. rewrite Nat.add_0_r. split.
      * apply in_or_app. left. eapply nth_error_In. exact Hrow.
      * now apply answers_extend.
    + destruct (Hr1 k sc i w Hk Hw) as (sid & Hrow & Hans).
      exists sid. replace (j0 + S k) with (S j0 + k) by lia.
      split; [apply in_or_app; now right | exact Hans].
Qed.

(** [create_connect_regular] with the two things it works on kept apart:
    what it is handed as [samplers], and the [population] that
    [get_population_from_samplers] returns for them, which for a list of
    samplers is one population when they all sit in one and a list of
    populations otherwise. *)
Inductive fixed_samplers_arg : Type :=
| FixedArgPopulation (self : FixedSpikeTrainConfiguration) (n : nat)
| FixedArgList (cfgs : list FixedSpikeTrainConfiguration).

Definition fixed_conn_list (samplers : fixed_samplers_arg)
  : list (nat * nat * float) * list (list float) :=
  match samplers with
  | FixedArgPopulation self n =>
      regular_conn_rows_population n [] (trains_of self)
  | FixedArgList cfgs => regular_conn_list 0 [] cfgs
  end.

Definition create_connect_regular_on (sources : nat)
    (population : population) (samplers : fixed_samplers_arg)
  : list (list float) * projections :=
  let (conn_list, all_spike_times) := fixed_conn_list samplers in
  (all_spike_times, connect_sources_regular sources population conn_list).

Lemma empty_table_distinct : pairwise_distinct [].
Proof. intros i j a b _ Ha. destruct i; discriminate. Qed.

(** X9: [create_connect_regular] for a list of samplers creates one spike
    source per distinct spike train (no two sources hold equal trains, and
    never more sources than there are weights), and wires every weight of
    every sampler from a source whose spike train equals
    [spike_times[spike_ids == i]] of that sampler: into the inhibitory
    projection when the weight is negative and into the excitatory one
    otherwise; addressed to neuron [j] when the samplers share one
    population, and to neuron [0] of population [j] when every sampler has a
    population of its own. *)
Theorem X9_fixed_trains_sampler_list sources population cfgs
    all_spike_times projs
    (H : create_connect_regular_on sources population (FixedArgList cfgs)
           = (all_spike_times, projs)) :
  pairwise_distinct all_spike_times /\
  length all_spike_times
    <= list_sum (map (fun c => length (fst_weights c)) cfgs) /\
  forall j sc i w,
    nth_error cfgs j = Some sc ->
    nth_error (fst_weights sc) i = Some w ->
    exists source_id,
      answers all_spike_times source_id
        (select_train (fst_spike_times sc) (fst_spike_ids sc) i) /\
      match population with
      | BasePopulation cb _ =>
          exists p,
            (if lt0 w then proj_inh projs else proj_exc projs) = [p] /\
            proj_receptor p = (if lt0 w then inhibitory else excitatory) /\
            In (source_id, j, trans cb w) (proj_conn_list p)
      | PopulationList pops =>
          forall cb, nth_error pops j = Some cb ->
          exists p,
            nth_error (if lt0 w then proj_inh projs else proj_exc projs) j
              = Some p /\
            proj_receptor p = (if lt0 w then inhibitory else excitatory) /\
            In (source_id, 0, trans cb w) (proj_conn_list p)
      end.
Proof.
  unfold create_connect_regular_on, fixed_conn_list in H.
  destruct (regular_conn_list 0 [] cfgs) as [conn_list table] eqn:E.
  injection H as <- <-.
  apply regular_conn_list_facts in E.
  destruct E as (_ & Htl & _ & Hd & Hrows).
  split; [apply Hd, empty_table_distinct|]. split; [exact Htl|].
  intros j sc i w Hj Hw.
  destruct (Hrows j sc i w Hj Hw) as (sid & Hrow & Hans). simpl in Hrow.
  exists sid. split; [exact Hans|].
  destruct population as [cb n | pops].
  - unfold connect_sources_regular. cbn [proj_inh proj_exc].
    destruct (lt0 w) eqn:El; eexists; (split; [reflexivity|]);
      (split; [reflexivity|]); cbn [proj_conn_list].
    + apply regular_rows_inh_spec. exists w. repeat split; auto.
      now apply lt0_spec.
    + apply regular_rows_exc_spec. exists w. repeat split; auto.
      now apply lt0_false_spec.
  - intros cb Hcb.
    pose proof (connect_sources_regular_list_spec sources conn_list
                  pops 0 (mkProjections [] [])) as Hs.
    cbv zeta in Hs. cbn [proj_inh proj_exc length] in Hs.
    destruct Hs as (_ & _ & _ & _ & Hnew).
    destruct (Hnew j cb Hcb) as (Hi & He). simpl in Hi, He.
    unfold connect_sources_regular.
    destruct (lt0 w) eqn:El; eexists.
    + split; [exact Hi|]. split; [reflexivity|]. cbn [proj_conn_list].
      apply regular_rows_inh_at_spec. split; [reflexivity|].
      exists w. repeat split; auto. now apply lt0_spec.
    + split; [exact He|]. split; [reflexivity|]. cbn [proj_conn_list].
      apply regular_rows_exc_at_spec. split; [reflexivity|].
      exists w. repeat split; auto. now apply lt0_false_spec.
Qed.

(** Two samplers with one weight each and the same spike train. *)
Definition shared_train_samplers : list FixedSpikeTrainConfiguration :=
  [mkFixedSpikeTrain [100%Q] [(1 # 2)%Q] [1%Q; 5%Q] [0; 0];
   mkFixedSpikeTrain [100%Q] [(-1 # 2)%Q] [1%Q; 5%Q] [0; 0]].

Lemma X9_fixed_trains_sampler_list_witness :
  create_connect_regular_on 7 (PopulationList [false; false])
    (FixedArgList shared_train_samplers)
  = ([[1%Q; 5%Q]],
     mkProjections
       [mkProjection 7 0 inhibitory [];
        mkProjection 7 1 inhibitory [(0, 0, (-1 # 2)%Q)]]
       [mkProjection 7 0 excitatory [(0, 0, (1 # 2)%Q)];
        mkProjection 7 1 excitatory []]) /\
  length [[1%Q; 5%Q]]
    <= list_sum (map (fun c => length (fst_weights c)) shared_train_samplers).
Proof.
  split; [reflexivity|].
  exact (proj1 (proj2 (X9_fixed_trains_sampler_list 7
                         (PopulationList [false; false])
                         shared_train_samplers _ _ eq_refl))).
Defined.

Lemma regular_conn_rows_population_facts n trains : forall table rows table',
  regular_conn_rows_population n table trains = (rows, table') ->
  (exists ext, table' = table ++ ext) /\
  length table' <= length table + length trains /\
  length rows = n * length trains /\
  (pairwise_distinct table -> pairwise_distinct table') /\
  forall i w st, nth_error trains i = Some (w, st) ->
    exists source_id,
      answers table' source_id st /\
      forall j, j < n -> In (source_id, j, w) rows.
Proof.
  induction trains as [|[w0 st0] rest IH]; intros table rows table' H;
    simpl in H.
  - injection H as <- <-. split; [exists []; now rewrite app_nil_r|].
    split; [simpl; lia|]. split; [simpl; lia|]. split; [auto|].
    intros i w st Hi. destruct i; discriminate.
  - destruct (get_index table st0) as [k0 t1] eqn:E0.
    destruct (regular_conn_rows_population n t1 rest) as [rs t2] eqn:E1.
    injection H as <- <-.
    assert (Hl1 : length t1 <= length table + 1).
    { unfold get_index in E0.
      destruct (find_spike_times 0 table st0); injection E0 as _ <-;
        [lia | rewrite length_app; simpl; lia]. }
    assert (Hd0 : pairwise_distinct table -> pairwise_distinct t1)
      by (intro Hd; eapply get_index_distinct; eassumption).
    apply get_index_spec in E0. destruct E0 as (Hans0 & ext0 & ->).
    apply IH in E1. destruct E1 as ((ext1 & ->) & Htl & Hl & Hd1 & Hr1).
    split; [exists (ext0 ++ ext1); now rewrite app_assoc|].
    split; [simpl; lia|].
    split; [rewrite length_app, length_map, length_seq; simpl; lia|].
    split; [intro Hd; apply Hd1; now apply Hd0|].
    intros i w st Hi. destruct i as [|i]; simpl in Hi.
    + injection Hi as <- <-. exists k0.
      split; [now apply answers_extend|].
      intros j Hj. apply in_or_app. left. apply in_map_iff.
      exists j. split; [reflexivity | apply in_seq; lia].
    + destruct (Hr1 i w st Hi) as (sid & Hans & Hrows).
      exists sid. split; [exact Hans|].
      intros j Hj. apply in_or_app. right. now apply Hrows.
Qed.

(** X10: [create_connect_regular] for one population of [n] neurons
    creates one spike source per distinct spike train of the configuration
    and connects the source of every weight to each of the [n] neurons: the
    [n] rows of a negative weight are in the inhibitory projection, those of
    any other weight in the excitatory one. *)
Theorem X10_fixed_trains_population sources cb n self all_spike_times projs
    (H : create_connect_regular_on sources (BasePopulation cb n)
           (FixedArgPopulation self n) = (all_spike_times, projs)) :
  pairwise_distinct all_spike_times /\
  length all_spike_times <= length (fst_weights self) /\
  (exists rows_inh rows_exc,
      projs = mkProjections [mkProjection sources 0 inhibitory rows_inh]
                            [mkProjection sources 0 excitatory rows_exc] /\
      length rows_inh + length rows_exc = n * length (fst_weights self) /\
      forall i w, nth_error (fst_weights self) i = Some w ->
        exists source_id,
          answers all_spike_times source_id
            (select_train (fst_spike_times self) (fst_spike_ids self) i) /\
          forall j, j < n ->
            In (source_id, j, trans cb w)
               (if lt0 w then rows_inh else rows_exc)).
Proof.
  unfold create_connect_regular_on, fixed_conn_list in H.
  destruct (regular_conn_rows_population n [] (trains_of self))
    as [conn_list table] eqn:E.
  injection H as <- <-.
  apply regular_conn_rows_population_facts in E.
  destruct E as (_ & Htl & Hl & Hd & Hrows).
  assert (Htrains : length (trains_of self) = length (fst_weights self)).
  { unfold trains_of. rewrite length_map, length_combine, length_seq.
    apply Nat.min_id. }
  rewrite Htrains in Htl, Hl.
  split; [apply Hd, empty_table_distinct|]. split; [exact Htl|].
  exists (regular_rows_inh cb conn_list), (regular_rows_exc cb conn_list).
  split; [reflexivity|]. split.
  - rewrite <- Hl. unfold regular_rows_inh, regular_rows_exc.
    rewrite !length_map. apply filter_split_length.
    intros [[pre post] w]. apply ge0_negb_lt0.
  - intros i w Hw. apply trains_of_nth in Hw.
    destruct (Hrows _ _ _ Hw) as (sid & Hans & Hall).
    exists sid. split; [exact Hans|]. intros j Hj. specialize (Hall j Hj).
    destruct (lt0 w) eqn:El.
    + apply regular_rows_inh_spec. exists w. repeat split; auto.
      now apply lt0_spec.
    + apply regular_rows_exc_spec. exists w. repeat split; auto.
      now apply lt0_false_spec.
Qed.

Lemma X10_fixed_trains_population_witness :
  create_connect_regular_on 7 (BasePopulation false 2)
    (FixedArgPopulation
       (mkFixedSpikeTrain [100%Q] [(1 # 2)%Q] [1%Q; 5%Q] [0; 0]) 2)
  = ([[1%Q; 5%Q]],
     mkProjections
       [mkProjection 7 0 inhibitory []]
       [mkProjection 7 0 excitatory [(0, 0, (1 # 2)%Q); (0, 1, (1 # 2)%Q)]])
  /\ length [[1%Q; 5%Q]] <= 1.
Proof.
  split; [reflexivity|].
  exact (proj1 (proj2 (X10_fixed_trains_population 7 false 2
           (mkFixedSpikeTrain [100%Q] [(1 # 2)%Q] [1%Q; 5%Q] [0; 0])
           _ _ eq_refl))).
Defined.

(** * The topology a completed Poisson build leaves in the kernel *)

Lemma nth_error_combine {A B} (a : list A) : forall (b : list B) t x y,
  nth_error a t = Some x -> nth_error b t = Some y ->
  nth_error (combine a b) t = Some (x, y).
Proof.
  induction a as [|x0 a IH]; intros [|y0 b] [|t] x y Ha Hb; simpl in *;
    try discriminate.
  - now injection Ha as <-; injection Hb as <-.
  - now apply IH.
Qed.

Lemma take_nth {A} (l : list A) : forall idx r t k,
  take l idx = Ok r -> nth_error idx t = Some k ->
  exists x, nth_error l k = Some x /\ nth_error r t = Some x.
Proof.
  induction idx as [|i rest IH]; intros r t k H Ht; simpl in H.
  - destruct t; discriminate.
  - unfold getitem in H. destruct (nth_error l i) as [x|] eqn:E;
      simpl in H; [|discriminate].
    destruct (take l rest) as [xs|] eqn:E'; simpl in H; [|discriminate].
    injection H as <-. destruct t as [|t]; simpl in Ht |- *.
    + injection Ht as <-. now exists x.
    + eapply IH; [reflexivity | exact Ht].
Qed.

Lemma res_map_nth {A B} (f : A -> res B) : forall l ys t x,
  res_map f l = Ok ys -> nth_error l t = Some x ->
  exists y, f x = Ok y /\ nth_error ys t = Some y.
Proof.
  induction l as [|x0 l IH]; intros ys t x H Ht; simpl in H.
  - destruct t; discriminate.
  - destruct (f x0) as [y0|] eqn:E; simpl in H; [|discriminate].
    destruct (res_map f l) as [ys'|] eqn:E'; simpl in H; [|discriminate].
    injection H as <-. destruct t as [|t]; simpl in Ht |- *.
    + injection Ht as <-. now exists y0.
    + eapply IH; [reflexivity | exact Ht].
Qed.

Lemma nth_error_concat_map {A B} (f : A -> list B) (l : list A) :
  forall j c i x,
  nth_error l j = Some c -> nth_error (f c) i = Some x ->
  nth_error (concat (map f l))
            (list_sum (map (fun a => length (f a)) (firstn j l)) + i)
  = Some x.
Proof.
  induction l as [|c0 l IH]; intros j c i x Hj Hi.
  - destruct j; discriminate.
  - destruct j as [|j]; simpl in Hj |- *.
    + injection Hj as <-. rewrite nth_error_app1; [exact Hi|].
      apply nth_error_Some. congruence.
    + rewrite nth_error_app2 by lia.
      replace (length (f c0)
               + list_sum (map (fun a => length (f a)) (firstn j l)) + i
               - length (f c0))
        with (list_sum (map (fun a => length (f a)) (firstn j l)) + i)
        by lia.
      eapply IH; eassumption.
Qed.

Lemma prefix_sum_S num : forall j n,
  nth_error num j = Some n ->
  prefix_sum num (S j) = prefix_sum num j + n.
Proof.
  unfold prefix_sum. induction num as [|n0 num IH]; intros [|j] n H;
    simpl in *; try discriminate.
  - injection H as <-. lia.
  - specialize (IH j n H). simpl in IH. lia.
Qed.

Lemma prefix_sum_le_total num j : prefix_sum num j <= list_sum num.
Proof.
  rewrite <- (prefix_sum_all num (length num) (le_n _)).
  destruct (Nat.le_ge_cases j (length num)) as [H | H].
  - now apply prefix_sum_mono.
  - rewrite (prefix_sum_all num j H), (prefix_sum_all num _ (le_n _)). lia.
Qed.

(** The slot of source [i] of target [j] resolves to target [j]. *)
Lemma idx_parrot_to_sampler_of_slot num j n i :
  nth_error num j = Some n -> i < n ->
  idx_parrot_to_sampler (cumsum num) (prefix_sum num j + i) = Ok j.
Proof.
  intros Hj Hi. pose proof (prefix_sum_S num j n Hj) as HS.
  pose proof (prefix_sum_le_total num (S j)) as Htot.
  destruct (idx_parrot_to_sampler_from num 0 0 (prefix_sum num j + i))
    as (k & Hk & _ & Hlo & Hhi); [lia|].
  simpl in Hk, Hlo, Hhi. unfold idx_parrot_to_sampler, cumsum, np_where.
  rewrite Hk. f_equal.
  destruct (Nat.lt_trichotomy k j) as [Hlt | [Heq | Hgt]]; [|exact Heq|].
  - pose proof (prefix_sum_mono num (S k) j ltac:(lia)). lia.
  - pose proof (prefix_sum_mono num (S j) k ltac:(lia)). lia.
Qed.

Lemma nest_SetStatus_each_exact gids params s s' u :
  nest_SetStatus_each gids params s = (s', Ok u) ->
  length gids = length params /\
  s' = Nest.mkState (Nest.Models s) (Nest.nodes s)
         (Nest.status s ++
          flat_map (fun gp => map (fun kv => (fst gp, fst kv, snd kv))
                                  (snd gp))
                   (combine gids params))
         (Nest.connections s).
Proof.
  unfold nest_SetStatus_each. destruct (length gids =? length params) eqn:E;
    intro H; [|discriminate].
  injection H as <- _. split; [now apply Nat.eqb_eq | reflexivity].
Qed.

Lemma nest_Connect_one_to_one_exact pre post weight s s' u :
  nest_Connect_one_to_one pre post weight s = (s', Ok u) ->
  length pre = length post /\
  match weight with
  | Some w =>
      length w = length pre /\
      s' = Nest.mkState (Nest.Models s) (Nest.nodes s) (Nest.status s)
             (Nest.connections s ++
              map (fun c => Nest.mkConnection (fst (fst c)) (snd (fst c))
                              (Some (snd c)))
                  (combine (combine pre post) w))
  | None =>
      s' = Nest.mkState (Nest.Models s) (Nest.nodes s) (Nest.status s)
             (Nest.connections s ++
              map (fun c => Nest.mkConnection (fst c) (snd c) None)
                  (combine pre post))
  end.
Proof.
  unfold nest_Connect_one_to_one.
  destruct (length pre =? length post) eqn:E; simpl; [|discriminate].
  apply Nat.eqb_eq in E. destruct weight as [w|].
  - destruct (length w =? length pre) eqn:Ew; intro H; [|discriminate].
    apply Nat.eqb_eq in Ew. injection H as <- _. auto.
  - intro H. injection H as <- _. auto.
Qed.

(** The state a completed [poisson_build] ends in, as far as generators,
    parrots, status entries and connections go. *)
Lemma poisson_build_exact conv model kwargs num rs ws gids duration s s' srcs :
  poisson_build conv model kwargs num rs ws gids duration s = (s', Ok srcs) ->
  let uniq := fst (np_unique rs) in
  let gens := seq (S (length (Nest.nodes s))) (length uniq) in
  let prts := seq (S (length (Nest.nodes s ++ repeat model (length uniq))))
                  (length rs) in
  exists pre idx post extra,
    take gens (snd (np_unique rs)) = Ok pre /\
    res_map (idx_parrot_to_sampler (cumsum num)) (seq 0 (length rs)) = Ok idx /\
    take gids idx = Ok post /\
    length ws = length rs /\
    srcs = mkSources gens prts /\
    extra = flat_map (fun g => map (fun kv => (g, fst kv, snd kv)) kwargs)
              gens /\
    Nest.nodes s' =
      (Nest.nodes s ++ repeat model (length uniq)) ++
      repeat "parrot_neuron" (length rs) /\
    Nest.status s' =
      (Nest.status s ++
       flat_map (fun gp => map (fun kv => (fst gp, fst kv, snd kv)) (snd gp))
         (combine gens
            (map (fun r => [("rate", r); ("start", 0%Q); ("stop", duration)])
                 uniq))) ++ extra /\
    Nest.connections s' =
      (Nest.connections s ++
       map (fun c => Nest.mkConnection (fst c) (snd c) None)
           (combine pre prts)) ++
      map (fun c => Nest.mkConnection (fst (fst c)) (snd (fst c))
                      (Some (snd c)))
          (combine (combine prts post) (map conv ws)).
Proof.
  unfold poisson_build. intro H.
  bind_inv H as gens s1 Hgens. apply nest_Create_Ok in Hgens.
  destruct Hgens as (_ & -> & ->).
  bind_inv H as prts s2 Hprts. apply nest_Create_Ok in Hprts.
  destruct Hprts as (_ & -> & ->).
  cbn [Nest.nodes Nest.connections Nest.Models Nest.status] in *.
  bind_inv H as u1 s3 Hset. apply nest_SetStatus_each_exact in Hset.
  destruct Hset as (_ & ->).
  cbn [Nest.nodes Nest.connections Nest.Models Nest.status] in *.
  bind_inv H as u2 s4 Hkw.
  assert (Hkw' : exists extra,
    extra = flat_map (fun g => map (fun kv => (g, fst kv, snd kv)) kwargs)
              (seq (S (length (Nest.nodes s)))
                   (length (fst (np_unique rs)))) /\
    s4 = Nest.mkState (Nest.Models s)
           ((Nest.nodes s ++
             repeat model (length (fst (np_unique rs)))) ++
            repeat "parrot_neuron" (length rs))
           ((Nest.status s ++
             flat_map (fun gp => map (fun kv => (fst gp, fst kv, snd kv))
                                     (snd gp))
               (combine (seq (S (length (Nest.nodes s)))
                             (length (fst (np_unique rs))))
                  (map (fun r => [("rate", r); ("start", 0%Q);
                                  ("stop", duration)])
                       (fst (np_unique rs))))) ++ extra)
           (Nest.connections s)).
  { destruct (0 <? length kwargs) eqn:Ek.
    - unfold nest_SetStatus in Hkw. injection Hkw as <- _.
      eexists. split; reflexivity.
    - unfold ret in Hkw. injection Hkw as <- _.
      exists []. split; [|now rewrite app_nil_r].
      apply Nat.ltb_ge in Ek. destruct kwargs; [|simpl in Ek; lia].
      clear. induction (seq _ _) as [|g l IH]; simpl; auto. }
  destruct Hkw' as (extra & Hextra & ->). clear Hkw.
  bind_inv H as pre s5 Hpre. apply lift_Ok_inv in Hpre.
  destruct Hpre as (-> & Hpre).
  bind_inv H as u3 s6 Hconn1. apply nest_Connect_one_to_one_exact in Hconn1.
  destruct Hconn1 as (_ & ->).
  bind_inv H as idx s7 Hidx. apply lift_Ok_inv in Hidx.
  destruct Hidx as (-> & Hidx).
  bind_inv H as post s8 Hpost. apply lift_Ok_inv in Hpost.
  destruct Hpost as (-> & Hpost).
  bind_inv H as u4 s9 Hconn2. apply nest_Connect_one_to_one_exact in Hconn2.
  destruct Hconn2 as (_ & Hw & ->).
  unfold ret in H. injection H as <- <-.
  rewrite length_map, length_seq in Hw. rewrite length_seq in Hidx.
  cbv zeta. exists pre, idx, post, extra.
  cbn [Nest.status Nest.connections Nest.nodes]. repeat split; auto.
Qed.

(** The configurations a build flattens, one per target. *)
Definition configs_of {C} (self : C) (samplers : samplers_of C) : list C :=
  match samplers with
  | Population n => repeat self n
  | Samplers cfgs => cfgs
  end.

Lemma concat_map_repeat {A B} (f : A -> list B) (a : A) n :
  concat (map f (repeat a n)) = concat (repeat (f a) n).
Proof. induction n as [|n IH]; simpl; [|rewrite IH]; reflexivity. Qed.

Lemma poisson_gather_flat self samplers num rs ws :
  poisson_gather self samplers = Ok (num, rs, ws) ->
  num = map (fun c => length (rates c)) (configs_of self samplers) /\
  rs = concat (map rates (configs_of self samplers)) /\
  ws = concat (map weights (configs_of self samplers)).
Proof.
  destruct samplers as [n | cfgs]; simpl.
  - destruct (hstack (repeat (rates self) n)) as [r|] eqn:Er; [|discriminate].
    simpl. destruct (hstack (repeat (weights self) n)) as [w|] eqn:Ew;
      [|discriminate].
    simpl. destruct (check_noise_signs w); [|discriminate]. simpl.
    intro H. injection H as <- <- <-.
    apply hstack_Ok in Er, Ew. destruct Er as (-> & _), Ew as (-> & _).
    rewrite !concat_map_repeat, map_repeat. auto.
  - destruct (hstack (map rates cfgs)) as [r|] eqn:Er; [|discriminate].
    simpl. destruct (hstack (map weights cfgs)) as [w|] eqn:Ew;
      [|discriminate].
    simpl. intro H. injection H as <- <- <-.
    apply hstack_Ok in Er, Ew. destruct Er as (-> & _), Ew as (-> & _). auto.
Qed.

Lemma nth_error_seq_lt a n t : t < n -> nth_error (seq a n) t = Some (a + t).
Proof.
  revert a t. induction n as [|n IH]; intros a [|t] H; simpl; try lia.
  - now rewrite Nat.add_0_r.
  - rewrite IH by lia. f_equal. lia.
Qed.

Lemma lengths_agree_prefix (l : list PoissonSourceConfiguration) j :
  Forall (fun c => length (weights c) = length (rates c)) l ->
  map (fun c => length (weights c)) (firstn j l)
  = map (fun c => length (rates c)) (firstn j l).
Proof.
  intro H. revert j. induction H as [|c l Hc Hl IH]; intros [|j]; simpl;
    try reflexivity.
  now rewrite Hc, IH.
Qed.

(** The flat slot of source [i] of target [j]. *)
Definition slot_of (cfgs : list PoissonSourceConfiguration) (j i : nat) : nat :=
  list_sum (map (fun c => length (rates c)) (firstn j cfgs)) + i.

(** *** One-dimensional parameter arrays

    The build functions are embedded on flat sequences.  A configuration
    holds arrays; the relations below tie a flat configuration to one
    whose arrays are one-dimensional, which is where [np.hstack] joins the
    arrays of the samplers end to end and [len] is the number of
    elements. *)
Definition holds_arrays (d : Construction.poisson_data)
    (c : PoissonSourceConfiguration) : Prop :=
  Construction.rates d = of_list (rates c) /\
  Construction.weights d = of_list (weights c).

Definition holds_sinus_arrays (d : Construction.sinus_data)
    (c : Sinus.configuration) : Prop :=
  Construction.s_weights d = of_list (Sinus.weights c) /\
  Construction.s_rates d = of_list (Sinus.rates c) /\
  Construction.s_amplitudes d = of_list (Sinus.amplitudes c) /\
  Construction.s_frequencies d = of_list (Sinus.frequencies c) /\
  Construction.s_phases d = of_list (Sinus.phases c).

Lemma np_hstack_fields {D C} (R : D -> C -> Prop)
    (array : D -> Construction.ndarray) (field : C -> list float)
    (data : list D) (cfgs : list C) :
  (forall d c, R d c -> array d = of_list (field c)) ->
  Forall2 R data cfgs -> cfgs <> [] ->
  np_hstack (map array data) = Ok (of_list (concat (map field cfgs))) /\
  map Construction.len (map array data)
  = map (fun c => Some (length (field c))) cfgs.
Proof.
  intros HR Hall Hne.
  assert (Hmap : map array data = map of_list (map field cfgs)).
  { clear Hne. induction Hall as [|d c data cfgs Hdc _ IH]; [reflexivity|].
    simpl. rewrite (HR d c Hdc). f_equal. exact IH. }
  rewrite Hmap. split.
  - destruct cfgs as [|c cfgs]; [congruence|]. apply np_hstack_of_lists.
  - rewrite !map_map. apply map_ext. intro c. unfold of_list. simpl.
    now rewrite length_map.
Qed.



Lemma seq_NoDup_app a n m : NoDup (seq a n ++ seq (a + n) m).
Proof. rewrite <- seq_app. apply seq_NoDup. Qed.

(** X12: a completed [create_nest_optimized] has created one generator per
    distinct rate, never more generators than parrots, all of the model
    [lookahead_poisson_generator] when the kernel offers it and of
    [poisson_generator] otherwise, followed by the parrots; the gids handed
    back are fresh and pairwise different; and every generator got
    [steps_lookahead = 10000] when the lookahead model is used. *)
Theorem X12_poisson_generator_pool conv self samplers gids duration s s' srcs
    (H : create_nest_optimized conv self samplers gids duration s
           = (s', Ok srcs)) :
  let lookahead := Nest.has_model s "lookahead_poisson_generator" in
  let model := if lookahead then "lookahead_poisson_generator"
               else "poisson_generator" in
  let flat_rates := concat (map rates (configs_of self samplers)) in
  length (generators srcs) = length (fst (np_unique flat_rates)) /\
  length (generators srcs) <= length (parrots srcs) /\
  Nest.nodes s' =
    (Nest.nodes s ++ repeat model (length (generators srcs))) ++
    repeat "parrot_neuron" (length (parrots srcs)) /\
  NoDup (generators srcs ++ parrots srcs) /\
  (forall gid, In gid (generators srcs ++ parrots srcs) ->
               length (Nest.nodes s) < gid <= length (Nest.nodes s')) /\
  (lookahead = true ->
   forall gid, In gid (generators srcs) ->
               In (gid, "steps_lookahead", 10000%Q) (Nest.status s')).
Proof.
  rewrite create_nest_optimized_unfold in H.
  destruct (poisson_gather self samplers) as [[[num rs] ws]|] eqn:Hg;
    [|discriminate].
  apply poisson_gather_flat in Hg. destruct Hg as (_ & Hrs & _).
  cbv zeta in H. cbn [fst snd] in H.
  apply poisson_build_exact in H. cbv zeta in H.
  destruct H as (pre & idx & post & extra & _ & _ & _ & _ &
                 -> & Hextra & Hnodes & Hstatus & _).
  cbv zeta. cbn [generators parrots]. rewrite <- Hrs.
  rewrite !length_seq.
  pose proof (X := np_unique_inverse_length rs).
  assert (Hle : length (fst (np_unique rs)) <= length rs).
  { unfold np_unique. cbn [fst].
    set (aux := map snd (sort_pairs (combine (seq 0 (length rs)) rs))).
    assert (Haux : length aux = length rs).
    { unfold aux. rewrite length_map.
      rewrite (Permutation_length (sort_pairs_perm _)).
      rewrite length_combine, length_seq. apply Nat.min_id. }
    rewrite <- Haux. clear. generalize (unique_mask aux) as mask.
    induction aux as [|x t IH]; intros [|b mt]; simpl; try lia.
    destruct b; simpl; specialize (IH mt); lia. }
  split; [reflexivity|]. split; [exact Hle|]. split; [exact Hnodes|].
  rewrite length_app, repeat_length.
  split; [|split].
  - replace (S (length (Nest.nodes s) + length (fst (np_unique rs))))
      with (S (length (Nest.nodes s)) + length (fst (np_unique rs))) by lia.
    apply seq_NoDup_app.
  - intros gid Hin. rewrite Hnodes, !length_app, !repeat_length.
    apply in_app_or in Hin. destruct Hin as [Hin | Hin];
      apply in_seq in Hin; lia.
  - intros Hla gid Hin. rewrite Hstatus, Hextra, Hla.
    apply in_or_app. right. apply in_flat_map. exists gid.
    split; [exact Hin | simpl; now left].
Qed.

Lemma X12_poisson_generator_pool_witness :
  let r := create_nest_optimized times_1000 (mkPoisson [] []) scenario_b
             [1; 2] 1000%Q (kernel_with_samplers 2) in
  snd r = Ok (mkSources [3] [4; 5]) /\
  length (generators (mkSources [3] [4; 5])) <= 
  length (parrots (mkSources [3] [4; 5])).
Proof.
  cbv zeta. split; [vm_compute; reflexivity|].
  exact (proj1 (proj2
    (X12_poisson_generator_pool times_1000 (mkPoisson [] []) scenario_b
       [1; 2] 1000%Q (kernel_with_samplers 2)
       (fst (create_nest_optimized times_1000 (mkPoisson [] []) scenario_b
               [1; 2] 1000%Q (kernel_with_samplers 2)))
       (mkSources [3] [4; 5]) ltac:(vm_compute; reflexivity)))).
Defined.

(** ** Edge and error behaviour of the two NEST builds *)

(** X13: with nothing to build for (an empty list of samplers or a
    population of no neurons) both NEST builds raise the [ValueError] of
    [np.hstack] and leave the kernel as it was; neither ever returns from
    such a call. *)
Theorem X13_builds_reject_empty_input conv duration gids s :
  let no_arrays := ValueError "need at least one array to concatenate" in
  (forall self,
      create_nest_optimized conv self (Samplers []) gids duration s
        = (s, Raise no_arrays) /\
      create_nest_optimized conv self (Population 0) gids duration s
        = (s, Raise no_arrays)) /\
  (forall self,
      Sinus.create_nest conv self (Samplers []) gids s
        = (s, Raise no_arrays) /\
      Sinus.create_nest conv self (Population 0) gids s
        = (s, Raise no_arrays)).
Proof. cbv zeta. repeat split. Qed.

Lemma sinus_gather_list_cases (self : Sinus.configuration) first rest :
  let cfgs := first :: rest in
  let agree := forallb (fun c => Bool.eqb (Sinus.individual_spike_trains first)
                                   (Sinus.individual_spike_trains c)) cfgs in
  Sinus.gather self (Samplers cfgs) =
  if agree
  then Ok (Sinus.mkGathered (map (fun c => length (Sinus.rates c)) cfgs)
             (concat (map Sinus.rates cfgs))
             (concat (map Sinus.weights cfgs))
             (concat (map Sinus.amplitudes cfgs))
             (concat (map Sinus.frequencies cfgs))
             (concat (map Sinus.phases cfgs))
             (Sinus.individual_spike_trains first))
  else Raise Sinus.mixed_settings.
Proof.
  cbv zeta. unfold Sinus.gather.
  cbn [hstack map first_item res_bind].
  now destruct (forallb _ (first :: rest)).
Qed.

(** X14: the sinus-Poisson [create_nest] over a non-empty list of samplers
    whose five parameter arrays are one-dimensional: [np.hstack] joins
    each parameter end to end, and the call raises the mixed-settings
    [ValueError] exactly when some sampler's [individual_spike_trains]
    differs from the first sampler's, and then leaves the kernel as it
    was; the setting of [self] plays no part, and weights of one sign are
    not rejected in this mode. *)
Theorem X14_sinus_mixed_settings conv self first rest gids s
    (data : list Construction.sinus_data)
    (Hdata : Forall2 holds_sinus_arrays data (first :: rest)) :
  let cfgs := first :: rest in
  (np_hstack (map Construction.s_rates data)
     = Ok (of_list (concat (map Sinus.rates cfgs))) /\
   np_hstack (map Construction.s_weights data)
     = Ok (of_list (concat (map Sinus.weights cfgs))) /\
   np_hstack (map Construction.s_amplitudes data)
     = Ok (of_list (concat (map Sinus.amplitudes cfgs))) /\
   np_hstack (map Construction.s_frequencies data)
     = Ok (of_list (concat (map Sinus.frequencies cfgs))) /\
   np_hstack (map Construction.s_phases data)
     = Ok (of_list (concat (map Sinus.phases cfgs)))) /\
  ((exists c, In c cfgs /\
              Sinus.individual_spike_trains c
              <> Sinus.individual_spike_trains first) ->
   Sinus.create_nest conv self (Samplers cfgs) gids s
     = (s, Raise Sinus.mixed_settings)) /\
  ((forall c, In c cfgs ->
              Sinus.individual_spike_trains c
              = Sinus.individual_spike_trains first) ->
   forall s' e,
     Sinus.create_nest conv self (Samplers cfgs) gids s = (s', Raise e) ->
     is_validation_error e = false).
Proof.
  cbv zeta. split; [|split].
  - assert (Hne : first :: rest <> []) by discriminate.
    split; [|split; [|split; [|split]]].
    + apply (np_hstack_fields holds_sinus_arrays Construction.s_rates
               Sinus.rates data _
               (fun d c Hdc => proj1 (proj2 Hdc)) Hdata Hne).
    + apply (np_hstack_fields holds_sinus_arrays Construction.s_weights
               Sinus.weights data _ (fun d c Hdc => proj1 Hdc) Hdata Hne).
    + apply (np_hstack_fields holds_sinus_arrays Construction.s_amplitudes
               Sinus.amplitudes data _
               (fun d c Hdc => proj1 (proj2 (proj2 Hdc))) Hdata Hne).
    + apply (np_hstack_fields holds_sinus_arrays Construction.s_frequencies
               Sinus.frequencies data _
               (fun d c Hdc => proj1 (proj2 (proj2 (proj2 Hdc)))) Hdata Hne).
    + apply (np_hstack_fields holds_sinus_arrays Construction.s_phases
               Sinus.phases data _
               (fun d c Hdc => proj2 (proj2 (proj2 (proj2 Hdc)))) Hdata Hne).
  - intros (c & Hin & Hne). rewrite sinus_create_nest_unfold.
    rewrite sinus_gather_list_cases. cbv zeta.
    destruct (forallb _ (first :: rest)) eqn:E; [|reflexivity].
    exfalso. rewrite forallb_forall in E. specialize (E c Hin).
    apply Bool.eqb_prop in E. congruence.
  - intros Hall s' e H. rewrite sinus_create_nest_unfold in H.
    rewrite sinus_gather_list_cases in H. cbv zeta in H.
    destruct (forallb _ (first :: rest)) eqn:E.
    + now apply sinus_build_backend_only in H.
    + exfalso. apply not_true_iff_false in E. apply E.
      apply forallb_forall. intros c Hc. rewrite (Hall c Hc).
      apply Bool.eqb_reflx.
Qed.

Lemma X14_sinus_mixed_settings_witness :
  Sinus.create_nest times_1000 scenario_c_config
    (Samplers [scenario_c_config;
               Sinus.mkSinus [(1 # 1000)%Q] [2000%Q] [1000%Q] [5%Q] [0%Q] true])
    [1; 2] (kernel_with_samplers 2)
  = (kernel_with_samplers 2, Raise Sinus.mixed_settings).
Proof.
  refine (proj1 (proj2 (X14_sinus_mixed_settings times_1000 scenario_c_config
                   scenario_c_config
                   [Sinus.mkSinus [(1 # 1000)%Q] [2000%Q] [1000%Q] [5%Q]
                      [0%Q] true]
                   [1; 2] (kernel_with_samplers 2)
                   [Construction.mkSinusData (of_list [(1 # 1000)%Q])
                      (of_list [2000%Q]) (of_list [1000%Q]) (of_list [5%Q])
                      (of_list [0%Q]);
                    Construction.mkSinusData (of_list [(1 # 1000)%Q])
                      (of_list [2000%Q]) (of_list [1000%Q]) (of_list [5%Q])
                      (of_list [0%Q])]
                   ltac:(repeat constructor))) _).
  eexists. split; [right; left; reflexivity|]. simpl. discriminate.
Defined.

(** ** How [sources_create_connect] splits its work *)

Section PartitionerFacts.

Context {smp cls result : Type}.
Variable class_of : smp -> cls.
Variable cls_eq_dec : forall a b : cls, {a = b} + {a <> b}.
Variable cc : smp -> list smp -> M result.

(** The number of neighbours in the sequence that differ in class. *)
Fixpoint class_changes (l : list smp) : nat :=
  match l with
  | a :: (b :: _) as t =>
      (if cls_eq_dec (class_of a) (class_of b) then 0 else 1)
      + class_changes t
  | _ => 0
  end.

Lemma groupby_head x t :
  exists g rest,
    groupby class_of cls_eq_dec (x :: t) = (class_of x, x :: g) :: rest.
Proof.
  simpl. destruct (groupby class_of cls_eq_dec t) as [|[k g] rest].
  - now exists [], [].
  - destruct (cls_eq_dec (class_of x) k) as [<- | Hne].
    + now exists g, rest.
    + now exists [], ((k, g) :: rest).
Qed.

Lemma groupby_length l :
  length (groupby class_of cls_eq_dec l)
  = match l with [] => 0 | _ => S (class_changes l) end.
Proof.
  induction l as [|x t IH]; [reflexivity|].
  destruct t as [|y t']; [reflexivity|].
  destruct (groupby_head y t') as (g & rest & Hg).
  change (groupby class_of cls_eq_dec (x :: y :: t'))
    with (match groupby class_of cls_eq_dec (y :: t') with
          | (k, g) :: rest =>
              if cls_eq_dec (class_of x) k then (k, x :: g) :: rest
              else (class_of x, [x]) :: (k, g) :: rest
          | [] => [(class_of x, [x])]
          end).
  rewrite Hg in IH |- *. cbn [class_changes].
  destruct (cls_eq_dec (class_of x) (class_of y)); simpl in *; lia.
Qed.

Lemma create_groups_length (groups : list (cls * list smp)) :
  forall s s' results,
  create_groups cc groups s = (s', Ok results) ->
  length results = length groups.
Proof.
  induction groups as [|[k l] rest IH]; intros s s' results H; simpl in H.
  - unfold ret in H. now injection H as _ <-.
  - bind_inv H as first s1 Hf. bind_inv H as r s2 Hr.
    bind_inv H as rs s3 Hrs. unfold ret in H. injection H as _ <-.
    simpl. f_equal. eapply IH. exact Hrs.
Qed.

Lemma groupby_one_class first rest :
  (forall x, In x rest -> class_of x = class_of first) ->
  groupby class_of cls_eq_dec (first :: rest)
  = [(class_of first, first :: rest)].
Proof.
  revert first. induction rest as [|y t IH]; intros first H; [reflexivity|].
  assert (Hy : class_of y = class_of first) by (apply H; now left).
  assert (Ht : forall x, In x t -> class_of x = class_of y).
  { intros x Hx. rewrite Hy. apply H. now right. }
  specialize (IH y Ht).
  change (groupby class_of cls_eq_dec (first :: y :: t))
    with (match groupby class_of cls_eq_dec (y :: t) with
          | (k, g) :: rest =>
              if cls_eq_dec (class_of first) k then (k, first :: g) :: rest
              else (class_of first, [first]) :: (k, g) :: rest
          | [] => [(class_of first, [first])]
          end).
  rewrite IH. destruct (cls_eq_dec (class_of first) (class_of y));
    [now rewrite Hy | congruence].
Qed.

End PartitionerFacts.

(** X15: a completed [sources_create_connect] returns one result per run
    of consecutive samplers of one class, in order: none for no samplers,
    and otherwise one more than the number of places in the sequence where
    the class changes from one sampler to the next. *)
Theorem X15_one_result_per_run {smp cls result : Type}
    (class_of : smp -> cls)
    (cls_eq_dec : forall a b : cls, {a = b} + {a <> b})
    (cc : smp -> list smp -> M result) samplers s s' results
    (H : sources_create_connect class_of cls_eq_dec cc samplers s
           = (s', Ok results)) :
  length results
  = match samplers with
    | [] => 0
    | _ => S (class_changes class_of cls_eq_dec samplers)
    end.
Proof.
  unfold sources_create_connect in H. apply create_groups_length in H.
  rewrite H. apply groupby_length.
Qed.

Lemma X15_one_result_per_run_witness :
  let samplers := [poisson_sampler 1; sinus_sampler 2 true;
                   poisson_sampler 3] in
  length [mkSources [4] [5]; mkSources [6] [7]; mkSources [8] [9]]
  = S (class_changes sampler_class config_class_eq_dec samplers).
Proof.
  cbv zeta.
  exact (X15_one_result_per_run sampler_class config_class_eq_dec
           (create_connect times_1000 1000%Q)
           [poisson_sampler 1; sinus_sampler 2 true; poisson_sampler 3]
           (kernel_with_samplers 3)
           (fst (compile times_1000 1000%Q
                   [poisson_sampler 1; sinus_sampler 2 true;
                    poisson_sampler 3] (kernel_with_samplers 3)))
           [mkSources [4] [5]; mkSources [6] [7]; mkSources [8] [9]]
           ltac:(vm_compute; reflexivity)).
Defined.

(** X16: samplers that are all of one class are built in a single
    [create_connect] call, made on the configuration of the first sampler
    with the whole list; what that call returns or raises is what
    [sources_create_connect] returns (as a one-element list) or raises. *)
Theorem X16_one_class_one_call {smp cls result : Type}
    (class_of : smp -> cls)
    (cls_eq_dec : forall a b : cls, {a = b} + {a <> b})
    (cc : smp -> list smp -> M result) first rest s
    (Hclass : forall x, In x rest -> class_of x = class_of first) :
  sources_create_connect class_of cls_eq_dec cc (first :: rest) s
  = match cc first (first :: rest) s with
    | (s', Ok r) => (s', Ok [r])
    | (s', Raise e) => (s', Raise e)
    end.
Proof.
  unfold sources_create_connect.
  rewrite (groupby_one_class class_of cls_eq_dec first rest Hclass).
  simpl. unfold bind, lift, ret. simpl.
  now destruct (cc first (first :: rest) s) as [s' [r|e]].
Qed.

Lemma X16_one_class_one_call_witness :
  compile times_1000 1000%Q [poisson_sampler 1; poisson_sampler 2]
    (kernel_with_samplers 2)
  = match create_connect times_1000 1000%Q (poisson_sampler 1)
            [poisson_sampler 1; poisson_sampler 2] (kernel_with_samplers 2)
    with
    | (s', Ok r) => (s', Ok [r])
    | (s', Raise e) => (s', Raise e)
    end.
Proof.
  refine (X16_one_class_one_call sampler_class config_class_eq_dec
            (create_connect times_1000 1000%Q) (poisson_sampler 1)
            [poisson_sampler 2] (kernel_with_samplers 2) _).
  intros x [<- | []]. reflexivity.
Defined.

(** ** What [_consolidate_sources] returns *)

(** The test of the inner loop: a later pair [(w, rc)] passes both
    [continue] statements against an earlier pair. *)
Definition is_duplicate (new old : float * rate_changes) : bool :=
  Qeq_bool (fst new) (fst old) && negb (any_ne (snd new) (snd old)).

Lemma duplicate_hits_length w rc : forall consolidated i,
  length (duplicate_hits i w rc consolidated)
  = length (filter (is_duplicate (w, rc)) consolidated).
Proof.
  induction consolidated as [|[w_cons rc_cons] rest IH]; intro i; simpl;
    [reflexivity|].
  unfold is_duplicate at 1. simpl.
  destruct (Qeq_bool w w_cons); simpl; [|apply IH].
  destruct (any_ne rc rc_cons); simpl; [apply IH|]. f_equal. apply IH.
Qed.

Lemma duplicate_hits_nil w rc consolidated i :
  (forall old, In old consolidated -> is_duplicate (w, rc) old = false) ->
  duplicate_hits i w rc consolidated = [].
Proof.
  intro H. apply length_zero_iff_nil. rewrite duplicate_hits_length.
  apply length_zero_iff_nil.
  induction consolidated as [|c rest IH]; simpl; [reflexivity|].
  rewrite (H c (or_introl eq_refl)). apply IH.
  intros old Hin. apply H. now right.
Qed.

Lemma filter_hit_length {A} (f : A -> bool) (l : list A) x :
  In x l -> f x = true -> 0 < length (filter f l).
Proof.
  induction l as [|a l IH]; simpl; intros Hin Hf; [contradiction|].
  destruct Hin as [-> | Hin].
  - rewrite Hf. simpl. lia.
  - destruct (f a); simpl; [lia | now apply IH].
Qed.

Lemma combine_app_same {A B} (l1 : list A) (r1 : list B) l2 r2 :
  length l1 = length r1 ->
  combine (l1 ++ l2) (r1 ++ r2) = combine l1 r1 ++ combine l2 r2.
Proof.
  revert r1. induction l1 as [|a l1 IH]; intros [|b r1] H; simpl in *;
    try discriminate; [reflexivity|].
  f_equal. apply IH. lia.
Qed.

Lemma map_fst_combine_firstn {A B} (l : list A) : forall (r : list B),
  map fst (combine l r) = firstn (Nat.min (length l) (length r)) l.
Proof.
  induction l as [|a l IH]; intros [|b r]; simpl; try reflexivity.
  f_equal. apply IH.
Qed.

Lemma map_snd_combine_firstn {A B} (l : list A) : forall (r : list B),
  map snd (combine l r) = firstn (Nat.min (length l) (length r)) r.
Proof.
  induction l as [|a l IH]; intros [|b r]; simpl; try reflexivity.
  f_equal. apply IH.
Qed.

(** The two consolidated lists grow by every pair walked. *)
Lemma consolidate_loop_lists pairs : forall W R I,
  fst (fst (consolidate_loop pairs W R I)) = W ++ map fst pairs /\
  snd (fst (consolidate_loop pairs W R I)) = R ++ map snd pairs.
Proof.
  induction pairs as [|[w rc] rest IH]; intros W R I; simpl.
  - now rewrite !app_nil_r.
  - destruct (IH (W ++ [w]) (R ++ [rc])
                (I ++ duplicate_hits 0 w rc (combine W R) ++ [length W]))
      as (H1 & H2).
    rewrite H1, H2, <- !app_assoc. now split.
Qed.

(** The index list grows by one entry per pair and one more per hit. *)
Lemma consolidate_loop_index pairs : forall W R I,
  length W = length R ->
  let idx := snd (consolidate_loop pairs W R I) in
  length I + length pairs <= length idx /\
  ((forall i j old new, i < j ->
      nth_error (combine W R ++ pairs) i = Some old ->
      nth_error (combine W R ++ pairs) j = Some new ->
      length W <= j -> is_duplicate new old = false) ->
   idx = I ++ seq (length W) (length pairs)) /\
  ((exists i j old new, i < j /\
      nth_error (combine W R ++ pairs) i = Some old /\
      nth_error (combine W R ++ pairs) j = Some new /\
      length W <= j /\ is_duplicate new old = true) ->
   length I + length pairs < length idx).
Proof.
  induction pairs as [|[w rc] rest IH]; intros W R I HWR; cbv zeta.
  - simpl. rewrite !app_nil_r. split; [lia|].
    split; [reflexivity|].
    intros (i & j & old & new & Hij & _ & Hj & HW & _).
    assert (j < length (combine W R)) by (apply nth_error_Some; congruence).
    rewrite length_combine in H. lia.
  - cbn [consolidate_loop].
    set (hits := duplicate_hits 0 w rc (combine W R)).
    assert (HWR' : length (W ++ [w]) = length (R ++ [rc]))
      by (rewrite !length_app; simpl; lia).
    destruct (IH (W ++ [w]) (R ++ [rc]) (I ++ hits ++ [length W]) HWR')
      as (Hlen & Hid & Hdup).
    cbv zeta in Hlen, Hid, Hdup.
    assert (Hc : combine (W ++ [w]) (R ++ [rc]) ++ rest
                 = combine W R ++ (w, rc) :: rest).
    { rewrite (combine_app_same W R [w] [rc] HWR). simpl.
      now rewrite <- app_assoc. }
    rewrite Hc in Hid, Hdup.
    assert (HlenC : length (combine W R) = length W)
      by (rewrite length_combine; lia).
    rewrite !length_app in Hlen. simpl in Hlen.
    rewrite !length_app in Hid. simpl in Hid.
    split; [simpl; lia|]. split.
    + intro Hnd.
      assert (Hh : hits = []).
      { apply duplicate_hits_nil. intros old Hin.
        apply In_nth_error in Hin. destruct Hin as (i & Hi).
        assert (Hil : i < length (combine W R))
          by (apply nth_error_Some; congruence).
        apply (Hnd i (length W) old (w, rc)); [lia | | | lia].
        - now rewrite nth_error_app1.
        - rewrite nth_error_app2 by lia.
          now replace (length W - length (combine W R)) with 0 by lia. }
      rewrite Hid.
      * rewrite Hh. simpl. rewrite <- app_assoc. simpl.
        now replace (length W + 1) with (S (length W)) by lia.
      * intros i j old new Hij Hi Hj HW.
        apply (Hnd i j old new Hij Hi Hj). lia.
    + intros (i & j & old & new & Hij & Hi & Hj & HW & Hd).
      destruct (Nat.eq_dec j (length W)) as [-> | Hne].
      * assert (Hnew : new = (w, rc)).
        { rewrite nth_error_app2 in Hj by lia.
          replace (length W - length (combine W R)) with 0 in Hj by lia.
          simpl in Hj. congruence. }
        subst new. rewrite nth_error_app1 in Hi by lia.
        apply nth_error_In in Hi.
        pose proof (filter_hit_length _ _ _ Hi Hd) as Hpos.
        rewrite <- (duplicate_hits_length w rc (combine W R) 0) in Hpos.
        fold hits in Hpos. simpl. lia.
      * assert (Hx : length (I ++ hits ++ [length W]) + length rest
                < length (snd (consolidate_loop rest (W ++ [w]) (R ++ [rc])
                                 (I ++ hits ++ [length W])))).
        { apply Hdup. exists i, j, old, new. repeat split; auto.
          rewrite length_app. simpl. lia. }
        rewrite !length_app in Hx. simpl in Hx |- *. lia.
Qed.

(** X17: the function under the [@classmethod] decorator of
    [_consolidate_sources] (reached as [_consolidate_sources.__func__],
    the decorated call raising [TypeError]) never merges anything: the
    consolidated weights and rate changes it returns are the sources it
    was given (as far as both lists reach), duplicates included.  The
    index list has at least one entry per source; it is the identity
    [0, 1, ..., n-1] when no source repeats an earlier one, and it is
    longer than the list of sources as soon as one does. *)
Theorem X17_consolidate_func_never_merges
    (weights_per_source : list float)
    (rate_changes_per_source : list rate_changes) :
  let n := Nat.min (length weights_per_source)
                   (length rate_changes_per_source) in
  let pairs := combine weights_per_source rate_changes_per_source in
  let '(weight_per_consolidated_source,
        rate_changes_per_consolidated_source,
        idx_source_to_consolidated) :=
    _consolidate_sources_func weights_per_source rate_changes_per_source in
  weight_per_consolidated_source = firstn n weights_per_source /\
  rate_changes_per_consolidated_source = firstn n rate_changes_per_source /\
  n <= length idx_source_to_consolidated /\
  ((forall i j old new, i < j ->
      nth_error pairs i = Some old -> nth_error pairs j = Some new ->
      is_duplicate new old = false) ->
   idx_source_to_consolidated = seq 0 n) /\
  ((exists i j old new, i < j /\
      nth_error pairs i = Some old /\ nth_error pairs j = Some new /\
      is_duplicate new old = true) ->
   n < length idx_source_to_consolidated).
Proof.
  cbv zeta. unfold _consolidate_sources_func.
  pose proof (consolidate_loop_lists
                (combine weights_per_source rate_changes_per_source) [] [] [])
    as (HW & HR).
  pose proof (consolidate_loop_index
                (combine weights_per_source rate_changes_per_source)
                [] [] [] eq_refl) as (Hlen & Hid & Hdup).
  cbv zeta in Hlen, Hid, Hdup.
  destruct (consolidate_loop _ [] [] []) as [[W R] I].
  simpl in HW, HR, Hlen, Hid, Hdup.
  rewrite length_combine in Hlen, Hid, Hdup.
  rewrite map_fst_combine_firstn in HW. rewrite map_snd_combine_firstn in HR.
  split; [exact HW|]. split; [exact HR|]. split; [exact Hlen|]. split.
  - intro Hnd. apply Hid. intros i j old new Hij Hi Hj _.
    now apply (Hnd i j old new).
  - intros (i & j & old & new & Hij & Hi & Hj & Hd). apply Hdup.
    exists i, j, old, new. repeat split; auto. lia.
Qed.

(** ** Pool sizes and indegrees of the noise configurations *)

(** X18: for a pool of [0 <= N <= 2 ** 53] sources and [gamma],
    [epsilon_external] in [[0, 1]], the excitatory and inhibitory counts
    are non-negative and add up to [N], and neither external indegree
    exceeds the count of its own kind: [0 <= indegree_external_exc <=
    num_exc] and [0 <= indegree_external_inh <= num_inh].  The products
    under the roundings are binary64 products. *)
Theorem X18_noise_counts_and_indegrees (cfg : NoiseConfiguration)
    (HN : (0 <= N cfg <= 2 ^ 53)%Z)
    (Hgamma : (0 <= gamma cfg)%Q /\ (gamma cfg <= 1)%Q)
    (Heps : (0 <= epsilon_external cfg)%Q /\ (epsilon_external cfg <= 1)%Q) :
  (num_exc cfg + num_inh cfg = N cfg)%Z /\
  (0 <= num_exc cfg <= N cfg)%Z /\
  (0 <= num_inh cfg <= N cfg)%Z /\
  (0 <= indegree_external_exc cfg <= num_exc cfg)%Z /\
  (0 <= indegree_external_inh cfg <= num_inh cfg)%Z.
Proof.
  destruct Hgamma as (Hg0 & Hg1). destruct Heps as (He0 & He1).
  pose proof (num_exc_range cfg HN Hg0 Hg1) as Hk.
  assert (Hi : (0 <= num_inh cfg <= N cfg)%Z) by (unfold num_inh; lia).
  split; [unfold num_inh; lia|]. split; [exact Hk|]. split; [exact Hi|].
  split.
  - unfold indegree_external_exc. apply around_fmul_bounds; [lia | tauto ..].
  - unfold indegree_external_inh. apply around_fmul_bounds; [lia | tauto ..].
Qed.

(** [N = 5] with [gamma] the binary64 number next to [0.9]: the product
    is the float [4.5] and rounds to the even [4]. *)
Lemma X18_noise_counts_and_indegrees_witness :
  let cfg := mkNoise 5 (8106479329266893 # 9007199254740992)%Q (1 # 4)%Q in
  num_exc cfg = 4%Z /\ num_inh cfg = 1%Z /\
  indegree_external_exc cfg = 1%Z /\ indegree_external_inh cfg = 0%Z /\
  (0 <= indegree_external_inh cfg <= num_inh cfg)%Z.
Proof.
  cbv zeta. split; [vm_compute; reflexivity|].
  split; [vm_compute; reflexivity|]. split; [vm_compute; reflexivity|].
  split; [vm_compute; reflexivity|].
  apply (X18_noise_counts_and_indegrees
           (mkNoise 5 (8106479329266893 # 9007199254740992)%Q (1 # 4)%Q));
    simpl; [lia | split; lra | split; lra].
Defined.

(** ** The indegree requests can be served *)

Lemma slice_lengths {A} (cfg : NoiseConfiguration) (source : list A) :
  (0 <= num_exc cfg <= N cfg)%Z -> Z.of_nat (length source) = N cfg ->
  Z.of_nat (length (src_exc cfg source)) = num_exc cfg /\
  (num_inh cfg <= Z.of_nat (length (src_inh cfg source)))%Z.
Proof.
  intros Hk Hlen. unfold src_exc, src_inh, slice_to, slice_from.
  assert (E1 : (0 <=? num_exc cfg)%Z = true) by (apply Z.leb_le; lia).
  rewrite E1. split; [rewrite length_firstn; lia|].
  unfold num_inh in *.
  destruct (0 <=? - (N cfg - num_exc cfg))%Z eqn:E2; rewrite length_skipn.
  - apply Z.leb_le in E2. lia.
  - apply Z.leb_gt in E2. lia.
Qed.

Lemma request_can_be_served (req : indegree_request) :
  NoDup (req_pool req) ->
  (0 <= req_indegree req <= Z.of_nat (length (req_pool req)))%Z ->
  exists conns, realises req conns.
Proof.
  intros Hnd Hd.
  exists (wiring_from (firstn (Z.to_nat (req_indegree req)) (req_pool req))
            (req_targets req)).
  apply wiring_from_realises.
  - now apply NoDup_firstn.
  - apply incl_firstn.
  - rewrite length_firstn. lia.
Qed.

(** X19: for a population of [0 <= N <= 2 ** 53] distinct sources with
    [gamma] and [epsilon_external] in [[0, 1]], the two external requests
    of the noise network, and those of a Poisson pool built for its own
    configuration ([cfg] being [self]), never ask for more presynaptic
    partners than the slice they draw from holds, so both can be served
    without using a source twice for one target. *)
Theorem X19_indegree_requests_can_be_served
    (cfg : NoiseConfiguration) (source gids : list Nest.gid)
    (HN : (0 <= N cfg <= 2 ^ 53)%Z)
    (Hgamma : (0 <= gamma cfg)%Q /\ (gamma cfg <= 1)%Q)
    (Heps : (0 <= epsilon_external cfg)%Q /\ (epsilon_external cfg <= 1)%Q)
    (Hlen : Z.of_nat (length source) = N cfg)
    (Hnd : NoDup source) :
  let requests := noise_network_requests cfg source gids in
  poisson_pool_requests cfg cfg source gids = requests /\
  (0 <= req_indegree (fst requests)
     <= Z.of_nat (length (req_pool (fst requests))))%Z /\
  (0 <= req_indegree (snd requests)
     <= Z.of_nat (length (req_pool (snd requests))))%Z /\
  (exists conns, realises (fst requests) conns) /\
  (exists conns, realises (snd requests) conns).
Proof.
  cbv zeta. destruct Hgamma as (Hg0 & Hg1). destruct Heps as (He0 & He1).
  pose proof (num_exc_range cfg HN Hg0 Hg1) as Hk.
  assert (Hi : (0 <= num_inh cfg)%Z) by (unfold num_inh; lia).
  destruct (slice_lengths cfg source Hk Hlen) as (Hle & Hli).
  assert (Hde : (0 <= indegree_external_exc cfg <= num_exc cfg)%Z).
  { unfold indegree_external_exc. apply around_fmul_bounds; [lia | tauto ..]. }
  assert (Hdi : (0 <= indegree_external_inh cfg <= num_inh cfg)%Z).
  { unfold indegree_external_inh. apply around_fmul_bounds;
      [unfold num_inh; lia | tauto ..]. }
  assert (H1 : (0 <= req_indegree (fst (noise_network_requests cfg source
                                          gids))
                <= Z.of_nat (length (req_pool (fst (noise_network_requests
                                          cfg source gids)))))%Z)
    by (simpl; lia).
  assert (H2 : (0 <= req_indegree (snd (noise_network_requests cfg source
                                          gids))
                <= Z.of_nat (length (req_pool (snd (noise_network_requests
                                          cfg source gids)))))%Z)
    by (simpl; lia).
  split; [reflexivity|]. split; [exact H1|]. split; [exact H2|]. split.
  - apply request_can_be_served; [|exact H1].
    simpl. unfold src_exc, slice_to.
    destruct (0 <=? num_exc cfg)%Z; now apply NoDup_firstn.
  - apply request_can_be_served; [|exact H2].
    simpl. unfold src_inh, slice_from.
    destruct (0 <=? - num_inh cfg)%Z; now apply NoDup_skipn.
Qed.

Lemma X19_indegree_requests_can_be_served_witness :
  let cfg := mkNoise 4 (3 # 4)%Q (1 # 2)%Q in
  let requests := noise_network_requests cfg [1; 2; 3; 4] [5; 6] in
  req_pool (fst requests) = [1; 2; 3] /\ req_indegree (fst requests) = 2%Z /\
  req_pool (snd requests) = [4] /\ req_indegree (snd requests) = 0%Z /\
  exists conns, realises (fst requests) conns.
Proof.
  cbv zeta. split; [vm_compute; reflexivity|].
  split; [vm_compute; reflexivity|].
  split; [vm_compute; reflexivity|]. split; [vm_compute; reflexivity|].
  refine (proj1 (proj2 (proj2 (proj2
    (X19_indegree_requests_can_be_served
       (mkNoise 4 (3 # 4)%Q (1 # 2)%Q) [1; 2; 3; 4] [5; 6]
       _ _ _ eq_refl _))))).
  - simpl; lia.
  - simpl; split; lra.
  - simpl; split; lra.
  - repeat constructor; simpl; intuition lia.
Defined.

(** ** Sizes after [_verify_parameters] *)

Lemma verify_parameter_Ok_iff name param weights :
  (exists r, Construction.verify_parameter name param weights = Ok r) <->
  Construction.size param = 1 \/
  Construction.size param = Construction.size weights.
Proof.
  unfold Construction.verify_parameter.
  destruct (Construction.size param =? 1) eqn:E1.
  - apply Nat.eqb_eq in E1. split; [now left | now eexists].
  - apply Nat.eqb_neq in E1.
    destruct (Construction.size param =? Construction.size weights) eqn:Ew;
      simpl.
    + apply Nat.eqb_eq in Ew. split; [now right | now eexists].
    + apply Nat.eqb_neq in Ew. split; [intros (r & H); discriminate|].
      intros [H | H]; contradiction.
Qed.

Lemma verify_parameter_again name param weights r :
  Construction.verify_parameter name param weights = Ok r ->
  Construction.size weights <> 1 ->
  Construction.verify_parameter name r weights = Ok r.
Proof.
  intros H Hw. apply Construction.verify_parameter_size in H.
  apply Construction.verify_parameter_same; congruence.
Qed.

(** X20: when [_verify_parameters] returns, every checked parameter has
    exactly [weights.size] elements and the weights are as before; the
    sinus-Poisson check returns if and only if each of [rates],
    [amplitudes], [frequencies] and [phases] has size 1 or the size of the
    weights; and unless [weights.size] is 1, checking again changes
    nothing. *)
Theorem X20_verified_parameters_fit_the_weights :
  (forall self r,
     Construction.poisson_verify_parameters self = Ok r ->
     Construction.weights r = Construction.weights self /\
     Construction.size (Construction.rates r)
       = Construction.size (Construction.weights self)) /\
  (forall self r,
     Construction.sinus_verify_parameters self = Ok r ->
     Construction.s_weights r = Construction.s_weights self /\
     Forall (fun p => Construction.size p
                      = Construction.size (Construction.s_weights self))
       [Construction.s_rates r; Construction.s_amplitudes r;
        Construction.s_frequencies r; Construction.s_phases r]) /\
  (forall self,
     (exists r, Construction.sinus_verify_parameters self = Ok r) <->
     Forall (fun p => Construction.size p = 1 \/
                      Construction.size p
                      = Construction.size (Construction.s_weights self))
       [Construction.s_rates self; Construction.s_amplitudes self;
        Construction.s_frequencies self; Construction.s_phases self]) /\
  (forall self r,
     Construction.sinus_verify_parameters self = Ok r ->
     Construction.size (Construction.s_weights self) <> 1 ->
     Construction.sinus_verify_parameters r = Ok r) /\
  (forall self r,
     Construction.poisson_verify_parameters self = Ok r ->
     Construction.size (Construction.weights self) <> 1 ->
     Construction.poisson_verify_parameters r = Ok r).
Proof.
  split; [|split; [|split; [|split]]].
  - intros self r H. unfold Construction.poisson_verify_parameters in H.
    destruct (Construction.verify_parameter _ _ _) as [r0|] eqn:E;
      simpl in H; [|discriminate].
    injection H as <-. simpl. split; [reflexivity|].
    now apply Construction.verify_parameter_size in E.
  - intros self r H. unfold Construction.sinus_verify_parameters in H.
    destruct (Construction.verify_parameter _ (Construction.s_rates self) _)
      as [r1|] eqn:E1; simpl in H; [|discriminate].
    destruct (Construction.verify_parameter _
                (Construction.s_amplitudes self) _)
      as [r2|] eqn:E2; simpl in H; [|discriminate].
    destruct (Construction.verify_parameter _
                (Construction.s_frequencies self) _)
      as [r3|] eqn:E3; simpl in H; [|discriminate].
    destruct (Construction.verify_parameter _ (Construction.s_phases self) _)
      as [r4|] eqn:E4; simpl in H; [|discriminate].
    injection H as <-. simpl. split; [reflexivity|].
    apply Construction.verify_parameter_size in E1, E2, E3, E4.
    repeat constructor; assumption.
  - intro self. unfold Construction.sinus_verify_parameters. split.
    + intros (r & H).
      destruct (Construction.verify_parameter _ (Construction.s_rates self) _)
        as [r1|] eqn:E1; simpl in H; [|discriminate].
      destruct (Construction.verify_parameter _
                  (Construction.s_amplitudes self) _)
        as [r2|] eqn:E2; simpl in H; [|discriminate].
      destruct (Construction.verify_parameter _
                  (Construction.s_frequencies self) _)
        as [r3|] eqn:E3; simpl in H; [|discriminate].
      destruct (Construction.verify_parameter _
                  (Construction.s_phases self) _)
        as [r4|] eqn:E4; simpl in H; [|discriminate].
      assert (Hok : forall p r0,
                 Construction.verify_parameter "{}" p
                   (Construction.s_weights self) = Ok r0 ->
                 Construction.size p = 1 \/
                 Construction.size p
                 = Construction.size (Construction.s_weights self)).
      { intros p r0 Hp. apply (verify_parameter_Ok_iff "{}"). now exists r0. }
      constructor; [exact (Hok _ _ E1)|]. constructor; [exact (Hok _ _ E2)|].
      constructor; [exact (Hok _ _ E3)|]. constructor; [exact (Hok _ _ E4)|].
      constructor.
    + intro HF.
      inversion HF as [|? ? H1 HF1]; subst.
      inversion HF1 as [|? ? H2 HF2]; subst.
      inversion HF2 as [|? ? H3 HF3]; subst.
      inversion HF3 as [|? ? H4 _]; subst.
      apply (verify_parameter_Ok_iff "{}") in H1, H2, H3, H4.
      destruct H1 as (r1 & ->), H2 as (r2 & ->), H3 as (r3 & ->),
               H4 as (r4 & ->).
      simpl. now eexists.
  - intros self r H Hw. unfold Construction.sinus_verify_parameters in H.
    destruct (Construction.verify_parameter _ (Construction.s_rates self) _)
      as [r1|] eqn:E1; simpl in H; [|discriminate].
    destruct (Construction.verify_parameter _
                (Construction.s_amplitudes self) _)
      as [r2|] eqn:E2; simpl in H; [|discriminate].
    destruct (Construction.verify_parameter _
                (Construction.s_frequencies self) _)
      as [r3|] eqn:E3; simpl in H; [|discriminate].
    destruct (Construction.verify_parameter _ (Construction.s_phases self) _)
      as [r4|] eqn:E4; simpl in H; [|discriminate].
    injection H as <-. unfold Construction.sinus_verify_parameters. simpl.
    rewrite (verify_parameter_again _ _ _ _ E1 Hw). simpl.
    rewrite (verify_parameter_again _ _ _ _ E2 Hw). simpl.
    rewrite (verify_parameter_again _ _ _ _ E3 Hw). simpl.
    rewrite (verify_parameter_again _ _ _ _ E4 Hw). reflexivity.
  - intros self r H Hw. unfold Construction.poisson_verify_parameters in H.
    destruct (Construction.verify_parameter _ _ _) as [r0|] eqn:E;
      simpl in H; [|discriminate].
    injection H as <-. unfold Construction.poisson_verify_parameters. simpl.
    now rewrite (verify_parameter_again _ _ _ _ E Hw).
Qed.

(** ** The status arrays of the multi-Poisson generator *)

Record MultiPoissonVarRateSourceConfiguration : Type := mkMultiPoisson {
  weight_per_source : list float;
  rate_changes_per_source : list rate_changes
}.

(** [_assert_correct_config]: the types of the two attributes and the
    [(n, 2)] shape of every entry are carried by the record; what is left
    to check is that both have the same length. *)
Definition _assert_correct_config
    (source_config : MultiPoissonVarRateSourceConfiguration) : res unit :=
  if length (weight_per_source source_config)
     =? length (rate_changes_per_source source_config)
  then Ok tt else Raise AssertionError.

(** What [create_nest] is handed as [samplers]: a population of [n]
    neurons, or the configurations of a list of samplers. *)
Inductive multi_samplers : Type :=
| MultiPopulation (n : nat)
| MultiSamplers (cfgs : list MultiPoissonVarRateSourceConfiguration).

(** The head of [create_nest]: [all_weights] (one row per target) and the
    flat list [all_rate_changes]. *)
Definition multi_gather (self : MultiPoissonVarRateSourceConfiguration)
    (samplers : multi_samplers)
  : res (list (list float) * list rate_changes) :=
  match samplers with
  | MultiSamplers cfgs =>
      res_bind (res_map _assert_correct_config cfgs) (fun _ =>
      Ok (map weight_per_source cfgs,
          flat_map rate_changes_per_source cfgs))
  | MultiPopulation n =>
      res_bind (_assert_correct_config self) (fun _ =>
      Ok (repeat (weight_per_source self) n,
          concat (repeat (rate_changes_per_source self) n)))
  end.

(** [times, rates = np.concatenate(all_rate_changes, axis=0).T] and
    [targets = np.concatenate([[i] * len(rc) for i, rc in
    enumerate(all_rate_changes)], axis=0)]; like [np.hstack],
    [np.concatenate] refuses an empty list. *)
Definition status_arrays (all_rate_changes : list rate_changes)
  : res (list float * list float * list nat) :=
  res_bind (hstack all_rate_changes) (fun rows =>
  res_bind (hstack (map (fun irc => repeat (fst irc) (length (snd irc)))
                        (combine (seq 0 (length all_rate_changes))
                                 all_rate_changes))) (fun targets =>
  Ok (map fst rows, map snd rows, targets))).

Lemma targets_from (l : list rate_changes) : forall s,
  length (concat (map (fun irc => repeat (fst irc) (length (snd irc)))
                      (combine (seq s (length l)) l)))
  = length (concat l) /\
  forall i rc p, nth_error l i = Some rc -> p < length rc ->
    nth_error (concat (map (fun irc => repeat (fst irc) (length (snd irc)))
                           (combine (seq s (length l)) l)))
              (prefix_sum (map (@length _) l) i + p)
    = Some (s + i).
Proof.
  unfold prefix_sum.
  induction l as [|rc0 l IH]; intro s; simpl.
  - split; [reflexivity|]. intros [|i]; discriminate.
  - destruct (IH (S s)) as (Hlen & Hnth). split.
    + now rewrite !length_app, repeat_length, Hlen.
    + intros [|i] rc p Hi Hp; simpl in Hi |- *.
      * injection Hi as <-. rewrite nth_error_app1
          by (rewrite repeat_length; exact Hp).
        rewrite Nat.add_0_r. apply nth_error_repeat. exact Hp.
      * rewrite nth_error_app2 by (rewrite repeat_length; lia).
        rewrite repeat_length.
        replace (length rc0 + list_sum (firstn i (map (@length _) l)) + p
                 - length rc0)
          with (list_sum (firstn i (map (@length _) l)) + p) by lia.
        rewrite (Hnth i rc p Hi Hp). f_equal. lia.
Qed.

Lemma targets_bound (l : list rate_changes) : forall s k t,
  nth_error (concat (map (fun irc => repeat (fst irc) (length (snd irc)))
                         (combine (seq s (length l)) l))) k = Some t ->
  s <= t < s + length l.
Proof.
  induction l as [|rc0 l IH]; intros s k t H; simpl in H.
  - destruct k; discriminate.
  - apply nth_error_In in H. apply in_app_or in H. destruct H as [H | H].
    + apply repeat_spec in H. subst. simpl. lia.
    + apply In_nth_error in H. destruct H as (k' & H). apply IH in H.
      simpl. lia.
Qed.

Lemma rows_at (l : list rate_changes) :
  forall i rc p row, nth_error l i = Some rc -> nth_error rc p = Some row ->
    nth_error (concat l) (prefix_sum (map (@length _) l) i + p) = Some row.
Proof.
  unfold prefix_sum.
  induction l as [|rc0 l IH]; intros [|i] rc p row Hi Hp; simpl in *;
    try discriminate.
  - injection Hi as <-. rewrite nth_error_app1; [exact Hp|].
    apply nth_error_Some. congruence.
  - rewrite nth_error_app2 by lia.
    replace (length rc0 + list_sum (firstn i (map (@length _) l)) + p
             - length rc0)
      with (list_sum (firstn i (map (@length _) l)) + p) by lia.
    now apply (IH i rc p row).
Qed.

Lemma length_concat_sum {A} (l : list (list A)) :
  length (concat l) = list_sum (map (@length _) l).
Proof.
  induction l as [|x l IH]; simpl; [reflexivity|].
  now rewrite length_app, IH.
Qed.

Lemma res_map_assert_Ok cfgs : forall us,
  res_map _assert_correct_config cfgs = Ok us ->
  Forall (fun c => length (weight_per_source c)
                   = length (rate_changes_per_source c)) cfgs.
Proof.
  induction cfgs as [|c cfgs IH]; intros us H; simpl in H; [constructor|].
  unfold _assert_correct_config in H at 1.
  destruct (length (weight_per_source c)
            =? length (rate_changes_per_source c)) eqn:E; simpl in H;
    [|discriminate].
  destruct (res_map _assert_correct_config cfgs) as [us'|] eqn:E';
    simpl in H; [|discriminate].
  constructor; [now apply Nat.eqb_eq | now apply (IH us')].
Qed.

Lemma multi_gather_counts self samplers all_weights all_rate_changes :
  multi_gather self samplers = Ok (all_weights, all_rate_changes) ->
  length all_rate_changes = list_sum (map (@length _) all_weights).
Proof.
  destruct samplers as [n | cfgs]; simpl; intro H.
  - unfold _assert_correct_config in H.
    destruct (length (weight_per_source self)
              =? length (rate_changes_per_source self)) eqn:E; simpl in H;
      [|discriminate].
    apply Nat.eqb_eq in E. injection H as <- <-.
    rewrite length_concat_sum, !map_repeat, E. reflexivity.
  - destruct (res_map _assert_correct_config cfgs) as [us|] eqn:E;
      simpl in H; [|discriminate].
    apply res_map_assert_Ok in E. injection H as <- <-.
    rewrite flat_map_concat_map, length_concat_sum, !map_map.
    induction E as [|c cfgs Hc _ IH]; simpl; [reflexivity|].
    now rewrite Hc, IH.
Qed.

(** X21: in the multi-Poisson [create_nest], once every configuration has
    passed [_assert_correct_config] there are as many entries in
    [all_rate_changes] as virtual sources (parrots); the arrays [times],
    [rates] and [targets] of the generator's status have one entry per
    rate-change row, row [p] of source [i] stands at position
    [len(rc_0) + ... + len(rc_(i-1)) + p] of all three, with its time, its
    rate and the target [i], and every target is the index of a parrot. *)
Theorem X21_multi_poisson_status_arrays
    (self : MultiPoissonVarRateSourceConfiguration)
    (samplers : multi_samplers)
    (all_weights : list (list float)) (all_rate_changes : list rate_changes)
    (times rates : list float) (targets : list nat)
    (Hgather : multi_gather self samplers = Ok (all_weights, all_rate_changes))
    (Hstatus : status_arrays all_rate_changes = Ok (times, rates, targets)) :
  let num_virtual_sources := list_sum (map (@length _) all_weights) in
  let rows := list_sum (map (@length _) all_rate_changes) in
  length all_rate_changes = num_virtual_sources /\
  length times = rows /\ length rates = rows /\ length targets = rows /\
  (forall i rc p row,
     nth_error all_rate_changes i = Some rc -> nth_error rc p = Some row ->
     let k := prefix_sum (map (@length _) all_rate_changes) i + p in
     nth_error times k = Some (fst row) /\
     nth_error rates k = Some (snd row) /\
     nth_error targets k = Some i) /\
  (forall k t, nth_error targets k = Some t -> t < num_virtual_sources).
Proof.
  cbv zeta. pose proof (multi_gather_counts _ _ _ _ Hgather) as Hcount.
  assert (Hst : (map fst (concat all_rate_changes),
                 map snd (concat all_rate_changes),
                 concat (map (fun irc => repeat (fst irc) (length (snd irc)))
                             (combine (seq 0 (length all_rate_changes))
                                      all_rate_changes)))
                = (times, rates, targets)).
  { unfold status_arrays, hstack in Hstatus.
    destruct all_rate_changes as [|rc0 l]; [discriminate|].
    cbn [res_bind] in Hstatus. injection Hstatus as <- <- <-. reflexivity. }
  injection Hst as <- <- <-.
  destruct (targets_from all_rate_changes 0) as (Hlen & Hnth).
  split; [exact Hcount|].
  split; [now rewrite length_map, length_concat_sum|].
  split; [now rewrite length_map, length_concat_sum|].
  split; [now rewrite Hlen, length_concat_sum|]. split.
  - intros i rc p row Hi Hp.
    pose proof (rows_at all_rate_changes i rc p row Hi Hp) as Hrow.
    split; [exact (map_nth_error fst _ _ Hrow)|].
    split; [exact (map_nth_error snd _ _ Hrow)|].
    apply (Hnth i rc p Hi). apply nth_error_Some. congruence.
  - intros k t Hk. apply targets_bound in Hk. lia.
Qed.

Lemma X21_multi_poisson_status_arrays_witness :
  let rc := [(0%Q, 1000%Q); (2000%Q, 100%Q)] in
  let self := mkMultiPoisson [(1 # 1000)%Q; (-1 # 1000)%Q] [rc; rc] in
  status_arrays (concat (repeat [rc; rc] 2))
  = Ok ([0%Q; 2000%Q; 0%Q; 2000%Q; 0%Q; 2000%Q; 0%Q; 2000%Q],
        [1000%Q; 100%Q; 1000%Q; 100%Q; 1000%Q; 100%Q; 1000%Q; 100%Q],
        [0; 0; 1; 1; 2; 2; 3; 3]) /\
  length (concat (repeat [rc; rc] 2)) = 4.
Proof.
  cbv zeta. split; [reflexivity|].
  exact (proj1 (X21_multi_poisson_status_arrays
           (mkMultiPoisson [(1 # 1000)%Q; (-1 # 1000)%Q]
              [[(0%Q, 1000%Q); (2000%Q, 100%Q)];
               [(0%Q, 1000%Q); (2000%Q, 100%Q)]])
           (MultiPopulation 2) _ _ _ _ _ eq_refl eq_refl)).
Defined.

(** ** [get_population_from_samplers] *)

(** A PyNN population as the helper reads it: which population it is, its
    [len()] and its [conductance_based] flag.  Two samplers belong to the
    same population when they hold the same one. *)
Record PyNNPopulation : Type := mkPyNNPopulation {
  pop_id : nat;
  pop_len : nat;
  pop_conductance_based_flag : bool
}.

(** A population itself or the view [pop[indices]] on it. *)
Inductive pynn_object : Type :=
| Whole (pop : PyNNPopulation)
| View (pop : PyNNPopulation) (indices : list nat).

(** A sampler as the helper reads it: [s.population],
    [s.network["population"]] and [s.network["index"]]. *)
Record lif_sampler : Type := mkLifSampler {
  s_population : pynn_object;
  network_population : option PyNNPopulation;
  network_index : nat
}.

Inductive samplers_arg : Type :=
| ArgPopulation (p : pynn_object)
| ArgSamplers (samplers : list lif_sampler).

Inductive populations : Type :=
| OnePopulation (p : pynn_object)
| ListOfPopulations (l : list pynn_object).

(** What a call comes to: a return value, or the [TypeError] of
    [len(None)]. *)
Inductive population_outcome : Type :=
| Returns (r : populations)
| RaisesTypeError.

Lemma PyNNPopulation_eq_dec (a b : PyNNPopulation) : {a = b} + {a <> b}.
Proof. decide equality; [apply Bool.bool_dec | apply Nat.eq_dec ..]. Defined.

Lemma network_population_eq_dec (a b : option PyNNPopulation) :
  {a = b} + {a <> b}.
Proof. decide equality. apply PyNNPopulation_eq_dec. Defined.

(** [pop] if the group makes up the whole population, else
    [pop[np.array([s.network["index"] for s in samplers])]], the indices
    being read from all the samplers of the call. *)
Definition population_or_view (samplers pop_samplers : list lif_sampler)
    (pop : PyNNPopulation) : pynn_object :=
  if length pop_samplers =? pop_len pop then Whole pop
  else View pop (map network_index samplers).

(** The loop over the groups.  For the key [None] the group is first
    drained into [retval], so [pop_samplers] is empty afterwards; whichever
    way the comparison with [len(samplers)] goes, the next test is
    [len(pop_samplers) == len(pop)] with [pop] being [None]. *)
Fixpoint population_groups (samplers : list lif_sampler)
    (groups : list (option PyNNPopulation * list lif_sampler))
    (retval : list pynn_object) : population_outcome :=
  match groups with
  | [] => Returns (ListOfPopulations retval)
  | (None, pop_samplers) :: _ =>
      let retval := retval ++ map s_population pop_samplers in
      let pop_samplers := @nil lif_sampler in
      if length pop_samplers =? length samplers
      then RaisesTypeError
      else RaisesTypeError
  | (Some pop, pop_samplers) :: rest =>
      if length pop_samplers =? length samplers
      then Returns (OnePopulation
                      (population_or_view samplers pop_samplers pop))
      else population_groups samplers rest
             (retval ++ [population_or_view samplers pop_samplers pop])
  end.

Definition get_population_from_samplers (samplers : samplers_arg)
  : population_outcome :=
  match samplers with
  | ArgPopulation p => Returns (OnePopulation p)
  | ArgSamplers [s] => Returns (OnePopulation (s_population s))
  | ArgSamplers l =>
      population_groups l
        (groupby network_population network_population_eq_dec l) []
  end.

(** What [connect_one_to_one] reads from the returned value. *)
Definition object_conductance_based (p : pynn_object) : bool :=
  match p with
  | Whole pop | View pop _ => pop_conductance_based_flag pop
  end.

Definition object_len (p : pynn_object) : nat :=
  match p with
  | Whole pop => pop_len pop
  | View _ indices => length indices
  end.

Definition as_population (r : populations) : population :=
  match r with
  | OnePopulation p =>
      BasePopulation (object_conductance_based p) (object_len p)
  | ListOfPopulations l => PopulationList (map object_conductance_based l)
  end.

Lemma population_groups_None samplers : forall groups retval g,
  In (None, g) groups ->
  Forall (fun kg => fst kg <> None ->
                    length (snd kg) <> length samplers) groups ->
  population_groups samplers groups retval = RaisesTypeError.
Proof.
  induction groups as [|[[pop|] g0] rest IH]; intros retval g Hin Hall;
    [contradiction| |].
  - inversion Hall as [|? ? Hne Hrest]; subst. simpl in Hne.
    specialize (Hne ltac:(discriminate)).
    cbn [population_groups]. apply Nat.eqb_neq in Hne. rewrite Hne.
    destruct Hin as [Hin | Hin]; [discriminate|]. now apply (IH _ g).
  - cbn [population_groups]. cbv zeta.
    now destruct (length (@nil lif_sampler) =? length samplers).
Qed.

Lemma population_groups_raises samplers : forall groups retval,
  population_groups samplers groups retval = RaisesTypeError ->
  exists g, In (None, g) groups.
Proof.
  induction groups as [|[[pop|] g0] rest IH]; intros retval H.
  - discriminate.
  - cbn [population_groups] in H.
    destruct (length g0 =? length samplers); [discriminate|].
    apply IH in H. destruct H as (g & Hg). exists g. now right.
  - exists g0. now left.
Qed.

Lemma population_groups_list samplers : forall groups retval,
  Forall (fun kg => fst kg <> None /\
                    length (snd kg) <> length samplers) groups ->
  exists l,
    population_groups samplers groups retval
      = Returns (ListOfPopulations (retval ++ l)) /\
    length l = length groups /\
    forall j p, nth_error l j = Some p ->
      exists pop g, nth_error groups j = Some (Some pop, g) /\
                    p = population_or_view samplers g pop.
Proof.
  induction groups as [|[k g0] rest IH]; intros retval Hall.
  - exists []. simpl. rewrite app_nil_r. split; [reflexivity|].
    split; [reflexivity|]. intros [|j]; discriminate.
  - inversion Hall as [|? ? (Hk & Hne) Hrest]; subst. simpl in Hk, Hne.
    destruct k as [pop|]; [|congruence].
    cbn [population_groups]. apply Nat.eqb_neq in Hne. rewrite Hne.
    destruct (IH (retval ++ [population_or_view samplers g0 pop]) Hrest)
      as (l & Hl & Hlen & Hnth).
    exists (population_or_view samplers g0 pop :: l).
    rewrite Hl, <- app_assoc. split; [reflexivity|].
    split; [simpl; now rewrite Hlen|].
    intros [|j] p Hp; simpl in Hp |- *.
    + injection Hp as <-. now exists pop, g0.
    + now apply Hnth.
Qed.

Lemma length_concat_groups {A K} (groups : list (K * list A)) kg :
  In kg groups ->
  length (snd kg) <= length (concat (map snd groups)) /\
  (length (snd kg) = length (concat (map snd groups)) ->
   forall kg', In kg' groups -> kg' = kg \/ snd kg' = []).
Proof.
  induction groups as [|kg0 rest IH]; intro Hin; [contradiction|].
  simpl. rewrite length_app. destruct Hin as [-> | Hin].
  - split; [lia|]. intros Hlen kg' [<- | Hin']; [now left|]. right.
    assert (Hz : length (concat (map snd rest)) = 0) by lia.
    apply length_zero_iff_nil in Hz.
    apply (in_map snd) in Hin'. apply in_split in Hin'.
    destruct Hin' as (l1 & l2 & Hs). rewrite Hs, concat_app in Hz.
    simpl in Hz. apply app_eq_nil in Hz. destruct Hz as (_ & Hz).
    now apply app_eq_nil in Hz.
  - destruct (IH Hin) as (Hle & Honly). split; [lia|].
    intros Hlen kg' [<- | Hin'].
    + right. apply length_zero_iff_nil. lia.
    + apply Honly; [lia | exact Hin'].
Qed.

(** In the groups of two or more samplers that do not all share one key,
    no group holds all the samplers. *)
Lemma groupby_proper_groups (l : list lif_sampler) a b :
  In a l -> In b l -> network_population a <> network_population b ->
  Forall (fun kg => length (snd kg) <> length l)
         (groupby network_population network_population_eq_dec l).
Proof.
  intros Ha Hb Hab. apply Forall_forall. intros kg Hin Hlen.
  pose proof (groupby_concat network_population network_population_eq_dec l)
    as Hc.
  pose proof (groupby_keys network_population network_population_eq_dec l)
    as Hk.
  rewrite Forall_forall in Hk.
  assert (Hlen' : length (snd kg)
                  = length (concat (map snd
                      (groupby network_population network_population_eq_dec
                         l)))) by (rewrite Hc; exact Hlen).
  destruct (length_concat_groups _ kg Hin) as (_ & Honly).
  specialize (Honly Hlen').
  assert (Hall : forall x, In x l -> network_population x = fst kg).
  { intros x Hx. rewrite <- Hc in Hx. apply in_concat in Hx.
    destruct Hx as (g & Hg & Hxg). apply in_map_iff in Hg.
    destruct Hg as (kg' & <- & Hkg').
    destruct (Honly kg' Hkg') as [-> | Hnil].
    - destruct (Hk kg Hin) as (_ & Hkeys). rewrite Forall_forall in Hkeys.
      now apply Hkeys.
    - destruct (Hk kg' Hkg') as (Hne & _). contradiction. }
  apply Hab. now rewrite (Hall a Ha), (Hall b Hb).
Qed.

Lemma groupby_key_in (l : list lif_sampler) s :
  In s l ->
  exists g, In (network_population s, g)
               (groupby network_population network_population_eq_dec l).
Proof.
  intro Hs.
  pose proof (groupby_concat network_population network_population_eq_dec l)
    as Hc.
  pose proof (groupby_keys network_population network_population_eq_dec l)
    as Hk.
  rewrite Forall_forall in Hk.
  rewrite <- Hc in Hs. apply in_concat in Hs.
  destruct Hs as (g & Hg & Hsg). apply in_map_iff in Hg.
  destruct Hg as ([k g'] & <- & Hkg).
  destruct (Hk _ Hkg) as (_ & Hkeys). rewrite Forall_forall in Hkeys.
  simpl in *. rewrite (Hkeys s Hsg). now exists g'.
Qed.

Lemma groupby_in_key (l : list lif_sampler) k g :
  In (k, g) (groupby network_population network_population_eq_dec l) ->
  exists s, In s l /\ network_population s = k.
Proof.
  intro Hin.
  pose proof (groupby_concat network_population network_population_eq_dec l)
    as Hc.
  pose proof (groupby_keys network_population network_population_eq_dec l)
    as Hk.
  rewrite Forall_forall in Hk. destruct (Hk _ Hin) as (Hne & Hkeys).
  simpl in *. destruct g as [|s g]; [contradiction|].
  inversion Hkeys as [|? ? Hs _]; subst. exists s. split; [|reflexivity].
  rewrite <- Hc. apply in_concat. exists (s :: g). split; [|now left].
  apply in_map_iff. now exists (network_population s, s :: g).
Qed.

(** Beside a group without population no other group holds all the
    samplers. *)
Lemma groupby_beside_None (l : list lif_sampler) g :
  In (None, g) (groupby network_population network_population_eq_dec l) ->
  Forall (fun kg => fst kg <> None -> length (snd kg) <> length l)
         (groupby network_population network_population_eq_dec l).
Proof.
  intro Hg. apply Forall_forall. intros kg Hin Hkey Hlen.
  pose proof (groupby_concat network_population network_population_eq_dec l)
    as Hc.
  pose proof (groupby_keys network_population network_population_eq_dec l)
    as Hk.
  rewrite Forall_forall in Hk.
  assert (Hlen' : length (snd kg)
                  = length (concat (map snd
                      (groupby network_population network_population_eq_dec
                         l)))) by (rewrite Hc; exact Hlen).
  destruct (length_concat_groups _ kg Hin) as (_ & Honly).
  destruct (Honly Hlen' _ Hg) as [Heq | Hnil].
  - apply Hkey. now rewrite <- Heq.
  - destruct (Hk _ Hg) as (Hne & _). contradiction.
Qed.

(** X22: called with two or more samplers, [get_population_from_samplers]
    raises the [TypeError] of [len(None)] if and only if some sampler has
    no network population ([s.network["population"] is None]); a
    population, no sampler or a single sampler never raise.  So for two or
    more samplers of which one stands alone the helper does not return. *)
Theorem X22_standalone_sampler_among_several (l : list lif_sampler) :
  (get_population_from_samplers (ArgSamplers l) = RaisesTypeError <->
   2 <= length l /\ exists s, In s l /\ network_population s = None) /\
  (forall p, get_population_from_samplers (ArgPopulation p)
             = Returns (OnePopulation p)) /\
  (forall s, get_population_from_samplers (ArgSamplers [s])
             = Returns (OnePopulation (s_population s))).
Proof.
  split; [|split; reflexivity].
  destruct l as [|a [|b t]].
  - simpl. split; [discriminate | intros (H & _); simpl in H; lia].
  - simpl. split; [discriminate | intros (H & _); simpl in H; lia].
  - cbn [get_population_from_samplers]. split.
    + intro H. apply population_groups_raises in H. destruct H as (g & Hg).
      apply groupby_in_key in Hg. split; [simpl; lia | exact Hg].
    + intros (_ & s & Hs & Hnone).
      destruct (groupby_key_in _ s Hs) as (g & Hg). rewrite Hnone in Hg.
      apply (population_groups_None _ _ _ g Hg).
      now apply groupby_beside_None with (g := g).
Qed.

Lemma connect_one_to_one_list_raises sources weights l :
  connect_one_to_one sources (PopulationList l) weights = Raise IndexError
  <-> length l < Nat.min (length weights) (length sources).
Proof.
  unfold connect_one_to_one. split.
  - intro H. apply connect_one_to_one_from_Raise in H.
    destruct H as (_ & l' & k & Hl & Hk & Hlen). injection Hl as <-.
    rewrite length_combine in Hk. simpl in Hlen. lia.
  - intro Hlt.
    destruct (connect_one_to_one_from 0 (PopulationList l)
                (combine weights sources) (mkProjections [] []))
      as [projs|e] eqn:E.
    + apply connect_one_to_one_from_spec in E.
      destruct E as (_ & _ & _ & _ & Hnew).
      destruct (nth_error_combine_Some weights sources (length l) Hlt)
        as (ws & src & Hc & _ & _).
      destruct (Hnew _ _ _ Hc) as (cb & Hcb & _). simpl in Hcb.
      unfold getitem in Hcb.
      destruct (nth_error l (length l)) eqn:En; [|discriminate].
      assert (length l < length l) by (apply nth_error_Some; congruence).
      lia.
    + apply connect_one_to_one_from_Raise in E. now destruct E as (-> & _).
Qed.

(** A sequence has fewer runs than members exactly when two neighbours
    share a population. *)
Lemma class_changes_neighbours (l : list lif_sampler) :
  l <> [] ->
  S (class_changes network_population network_population_eq_dec l)
    <= length l /\
  (S (class_changes network_population network_population_eq_dec l)
     < length l <->
   exists i x y, nth_error l i = Some x /\ nth_error l (S i) = Some y /\
                 network_population x = network_population y).
Proof.
  induction l as [|x t IH]; intro Hne; [congruence|].
  destruct t as [|y t']; [clear IH|].
  - simpl. split; [lia|]. split; [lia|].
    intros (i & a & b & _ & Hb & _). destruct i; discriminate.
  - destruct (IH ltac:(discriminate)) as (Hle & Hiff).
    cbn [class_changes].
    destruct (network_population_eq_dec (network_population x)
                (network_population y)) as [E | E].
    + split; [simpl in *; lia|]. split; [|simpl in *; lia].
      intros _. now exists 0, x, y.
    + split; [simpl in *; lia|]. split.
      * intro Hlt.
        assert (Hlt' : S (class_changes network_population
                            network_population_eq_dec (y :: t'))
                       < length (y :: t')) by (simpl in *; lia).
        apply Hiff in Hlt'. destruct Hlt' as (i & a & b & Ha & Hb & Hab).
        now exists (S i), a, b.
      * intros (i & a & b & Ha & Hb & Hab). destruct i as [|i].
        -- simpl in Ha, Hb. congruence.
        -- assert (Hlt' : S (class_changes network_population
                               network_population_eq_dec (y :: t'))
                          < length (y :: t')).
           { apply Hiff. now exists i, a, b. }
           simpl in *. lia.
Qed.

(** X23: two or more samplers that all belong to one population [pop] get
    back a single object: [pop] itself when they are as many as the
    population has neurons, and otherwise the view of [pop] on their
    [network["index"]] entries, in the order of the samplers. *)
Theorem X23_samplers_of_one_population
    (pop : PyNNPopulation) (first second : lif_sampler)
    (rest : list lif_sampler)
    (Hpop : forall s, In s (first :: second :: rest) ->
                      network_population s = Some pop) :
  let samplers := first :: second :: rest in
  get_population_from_samplers (ArgSamplers samplers)
  = Returns (OnePopulation
      (if length samplers =? pop_len pop then Whole pop
       else View pop (map network_index samplers))).
Proof.
  cbv zeta. cbn [get_population_from_samplers].
  rewrite (groupby_one_class network_population network_population_eq_dec
             first (second :: rest)).
  - rewrite (Hpop first (or_introl eq_refl)). cbn [population_groups].
    now rewrite Nat.eqb_refl.
  - intros x Hx. rewrite (Hpop first (or_introl eq_refl)).
    apply Hpop. now right.
Qed.

Lemma X23_samplers_of_one_population_witness :
  let pop := mkPyNNPopulation 0 3 false in
  let s := fun i => mkLifSampler (View pop [i]) (Some pop) i in
  get_population_from_samplers (ArgSamplers [s 2; s 0])
  = Returns (OnePopulation (View pop [2; 0])).
Proof.
  cbv zeta.
  refine (X23_samplers_of_one_population (mkPyNNPopulation 0 3 false)
            (mkLifSampler (View (mkPyNNPopulation 0 3 false) [2])
               (Some (mkPyNNPopulation 0 3 false)) 2)
            (mkLifSampler (View (mkPyNNPopulation 0 3 false) [0])
               (Some (mkPyNNPopulation 0 3 false)) 0) [] _).
  intros s [<- | [<- | []]]; reflexivity.
Defined.

(** Samplers with a population each, not all of them the same one. *)
Lemma several_populations_list
    (samplers : list lif_sampler) (a b : lif_sampler) :
  In a samplers -> In b samplers ->
  network_population a <> network_population b ->
  (forall s, In s samplers -> network_population s <> None) ->
  let groups := groupby network_population network_population_eq_dec
                  samplers in
  exists pops,
    get_population_from_samplers (ArgSamplers samplers)
      = Returns (ListOfPopulations pops) /\
    length pops = length groups /\
    length pops
      = S (class_changes network_population network_population_eq_dec
             samplers) /\
    length pops <= length samplers /\
    (forall j p, nth_error pops j = Some p ->
       exists pop g,
         nth_error groups j = Some (Some pop, g) /\
         p = population_or_view samplers g pop) /\
    (length pops < length samplers
     <-> exists i x y,
           nth_error samplers i = Some x /\
           nth_error samplers (S i) = Some y /\
           network_population x = network_population y).
Proof.
  intros Ha Hb Hab Hsome. cbv zeta.
  assert (Hshape : exists x y t, samplers = x :: y :: t).
  { destruct samplers as [|x [|y t]]; [contradiction| |now exists x, y, t].
    destruct Ha as [<- | []], Hb as [<- | []]. congruence. }
  assert (Hcall : get_population_from_samplers (ArgSamplers samplers)
                  = population_groups samplers
                      (groupby network_population network_population_eq_dec
                         samplers) []).
  { destruct Hshape as (x & y & t & ->). reflexivity. }
  assert (Hall : Forall (fun kg => fst kg <> None /\
                                  length (snd kg) <> length samplers)
                   (groupby network_population network_population_eq_dec
                      samplers)).
  { pose proof (groupby_proper_groups samplers a b Ha Hb Hab) as Hp.
    rewrite Forall_forall in Hp |- *. intros [k g] Hin.
    split; [|now apply Hp]. simpl.
    destruct (groupby_in_key _ _ _ Hin) as (s & Hs & <-). now apply Hsome. }
  destruct (population_groups_list samplers _ [] Hall)
    as (pops & Hret & Hlen & Hnth).
  simpl in Hret. exists pops.
  assert (Hne : samplers <> [])
    by (destruct Hshape as (x & y & t & ->); discriminate).
  destruct (class_changes_neighbours samplers Hne) as (Hle & Hiff).
  assert (Hruns : length pops
                  = S (class_changes network_population
                         network_population_eq_dec samplers)).
  { rewrite Hlen, groupby_length.
    destruct samplers; [congruence | reflexivity]. }
  split; [now rewrite Hcall|]. split; [exact Hlen|]. split; [exact Hruns|].
  split; [lia|]. split; [exact Hnth|]. now rewrite Hruns.
Qed.

(** X24: samplers that all have a network population but not all the same
    one get back a list with one entry per run of consecutive samplers of
    one population (not one per sampler): the population itself when the
    run has as many samplers as the population has neurons, else a view on
    the [network["index"]] entries of all the samplers of the call.
    [connect_one_to_one], which looks up population [j] for sampler [j],
    therefore raises [IndexError] on that list exactly when two
    neighbouring samplers share a population. *)
Theorem X24_samplers_of_several_populations
    (samplers : list lif_sampler) (a b : lif_sampler)
    (Ha : In a samplers) (Hb : In b samplers)
    (Hab : network_population a <> network_population b)
    (Hsome : forall s, In s samplers -> network_population s <> None) :
  let groups := groupby network_population network_population_eq_dec
                  samplers in
  exists pops,
    get_population_from_samplers (ArgSamplers samplers)
      = Returns (ListOfPopulations pops) /\
    length pops = length groups /\
    length pops
      = S (class_changes network_population network_population_eq_dec
             samplers) /\
    length pops <= length samplers /\
    (forall j p, nth_error pops j = Some p ->
       exists pop g,
         nth_error groups j = Some (Some pop, g) /\
         p = (if length g =? pop_len pop then Whole pop
              else View pop (map network_index samplers))) /\
    (forall sources weights,
       length sources = length samplers ->
       length weights = length samplers ->
       (connect_one_to_one sources (as_population (ListOfPopulations pops))
          weights = Raise IndexError
        <-> exists i x y,
              nth_error samplers i = Some x /\
              nth_error samplers (S i) = Some y /\
              network_population x = network_population y)).
Proof.
  cbv zeta.
  destruct (several_populations_list samplers a b Ha Hb Hab Hsome)
    as (pops & Hret & Hlen & Hruns & Hle & Hnth & Hiff).
  exists pops. split; [exact Hret|]. split; [exact Hlen|].
  split; [exact Hruns|]. split; [exact Hle|]. split; [exact Hnth|].
  intros sources weights Hs Hw. cbn [as_population].
  rewrite connect_one_to_one_list_raises, length_map, Hs, Hw, Nat.min_id.
  exact Hiff.
Qed.

Lemma X24_samplers_of_several_populations_witness :
  let p0 := mkPyNNPopulation 0 2 false in
  let p1 := mkPyNNPopulation 1 2 true in
  let s := fun pop i => mkLifSampler (View pop [i]) (Some pop) i in
  let samplers := [s p0 0; s p0 1; s p1 0; s p1 1] in
  get_population_from_samplers (ArgSamplers samplers)
    = Returns (ListOfPopulations [Whole p0; Whole p1]) /\
  connect_one_to_one [10; 11; 12; 13]
    (as_population (ListOfPopulations [Whole p0; Whole p1]))
    [[1%Q]; [1%Q]; [1%Q]; [1%Q]] = Raise IndexError.
Proof.
  cbv zeta. split; [reflexivity|].
  destruct (X24_samplers_of_several_populations
    [mkLifSampler (View (mkPyNNPopulation 0 2 false) [0])
       (Some (mkPyNNPopulation 0 2 false)) 0;
     mkLifSampler (View (mkPyNNPopulation 0 2 false) [1])
       (Some (mkPyNNPopulation 0 2 false)) 1;
     mkLifSampler (View (mkPyNNPopulation 1 2 true) [0])
       (Some (mkPyNNPopulation 1 2 true)) 0;
     mkLifSampler (View (mkPyNNPopulation 1 2 true) [1])
       (Some (mkPyNNPopulation 1 2 true)) 1]
    (mkLifSampler (View (mkPyNNPopulation 0 2 false) [0])
       (Some (mkPyNNPopulation 0 2 false)) 0)
    (mkLifSampler (View (mkPyNNPopulation 1 2 true) [0])
       (Some (mkPyNNPopulation 1 2 true)) 0)
    ltac:(simpl; tauto) ltac:(simpl; tauto) ltac:(simpl; congruence)
    ltac:(intros s [<- | [<- | [<- | [<- | []]]]]; discriminate))
    as (pops & Hret & _ & _ & _ & _ & Hconn).
  injection Hret as <-.
  apply (Hconn [10; 11; 12; 13] [[1%Q]; [1%Q]; [1%Q]; [1%Q]] eq_refl eq_refl).
  exists 0. do 2 eexists. split; [reflexivity|]. split; reflexivity.
Defined.

(** X25: the fixed-spike-train [create_connect_regular] over samplers of
    several populations builds one inhibitory and one excitatory
    projection per run of consecutive samplers of one population, not per
    sampler.  Projection [k] is made onto the entry for run [k], and every
    row in it is a row of the connection list addressed to sampler [k];
    so the rows of a sampler whose position is not below the number of
    runs are in no projection, and there is such a sampler as soon as two
    neighbours share a population. *)
Theorem X25_fixed_trains_over_runs
    (sources : nat)
    (samplers : list (lif_sampler * FixedSpikeTrainConfiguration))
    (a b : lif_sampler)
    (Ha : In a (map fst samplers)) (Hb : In b (map fst samplers))
    (Hab : network_population a <> network_population b)
    (Hsome : forall s, In s (map fst samplers) ->
                       network_population s <> None) :
  let conn_list := fst (fixed_conn_list (FixedArgList (map snd samplers))) in
  exists pops,
    get_population_from_samplers (ArgSamplers (map fst samplers))
      = Returns (ListOfPopulations pops) /\
    let projs := snd (create_connect_regular_on sources
                        (as_population (ListOfPopulations pops))
                        (FixedArgList (map snd samplers))) in
    length (proj_inh projs) = length pops /\
    length (proj_exc projs) = length pops /\
    (forall p, In p (proj_inh projs) \/ In p (proj_exc projs) ->
       proj_target p < length pops /\
       forall pre post w', In (pre, post, w') (proj_conn_list p) ->
         post = 0 /\
         exists w, In (pre, proj_target p, w) conn_list /\
                   (w' = w \/ w' = Qabs w)) /\
    (length pops < length samplers
     <-> exists i x y,
           nth_error (map fst samplers) i = Some x /\
           nth_error (map fst samplers) (S i) = Some y /\
           network_population x = network_population y).
Proof.
  cbv zeta.
  destruct (several_populations_list (map fst samplers) a b Ha Hb Hab Hsome)
    as (pops & Hret & _ & _ & _ & _ & Hiff).
  rewrite length_map in Hiff.
  exists pops. split; [exact Hret|].
  unfold create_connect_regular_on.
  destruct (fixed_conn_list (FixedArgList (map snd samplers)))
    as [conn_list table]. cbn [fst snd as_population].
  unfold connect_sources_regular.
  pose proof (connect_sources_regular_list_spec sources conn_list
                (map object_conductance_based pops) 0 (mkProjections [] []))
    as Hs.
  cbv zeta in Hs. cbn [proj_inh proj_exc length] in Hs.
  rewrite length_map in Hs. destruct Hs as (Hli & Hle & _ & _ & Hnew).
  rewrite Nat.add_0_l in Hli, Hle.
  split; [exact Hli|]. split; [exact Hle|]. split; [|exact Hiff].
  assert (Htrans : forall cb w, trans cb w = w \/ trans cb w = Qabs w)
    by (intros [|] w; simpl; auto).
  intros p [Hin | Hin]; apply In_nth_error in Hin; destruct Hin as (k & Hk).
  - assert (Hlt : k < length pops)
      by (rewrite <- Hli; apply nth_error_Some; congruence).
    destruct (nth_error (map object_conductance_based pops) k) as [cb|] eqn:E;
      [|apply nth_error_None in E; rewrite length_map in E; lia].
    destruct (Hnew k cb E) as (Hi & _). simpl in Hi.
    rewrite Hk in Hi. injection Hi as ->. cbn [proj_target proj_conn_list].
    split; [exact Hlt|]. intros pre post w' Hrow.
    apply regular_rows_inh_at_spec in Hrow.
    destruct Hrow as (-> & w & Hw & -> & _). split; [reflexivity|].
    exists w. split; [exact Hw | apply Htrans].
  - assert (Hlt : k < length pops)
      by (rewrite <- Hle; apply nth_error_Some; congruence).
    destruct (nth_error (map object_conductance_based pops) k) as [cb|] eqn:E;
      [|apply nth_error_None in E; rewrite length_map in E; lia].
    destruct (Hnew k cb E) as (_ & He). simpl in He.
    rewrite Hk in He. injection He as ->. cbn [proj_target proj_conn_list].
    split; [exact Hlt|]. intros pre post w' Hrow.
    apply regular_rows_exc_at_spec in Hrow.
    destruct Hrow as (-> & w & Hw & -> & _). split; [reflexivity|].
    exists w. split; [exact Hw | apply Htrans].
Qed.

Lemma X25_fixed_trains_over_runs_witness :
  let p0 := mkPyNNPopulation 0 2 false in
  let p1 := mkPyNNPopulation 1 1 false in
  let s := fun pop i => mkLifSampler (View pop [i]) (Some pop) i in
  let cfg := mkFixedSpikeTrain [100%Q] [1%Q] [5%Q] [0] in
  let samplers := [(s p0 0, cfg); (s p0 1, cfg); (s p1 0, cfg)] in
  get_population_from_samplers (ArgSamplers (map fst samplers))
    = Returns (ListOfPopulations [Whole p0; Whole p1]) /\
  fst (fixed_conn_list (FixedArgList (map snd samplers)))
    = [(0, 0, 1%Q); (0, 1, 1%Q); (0, 2, 1%Q)] /\
  length (proj_exc (snd (create_connect_regular_on 7
                           (as_population
                              (ListOfPopulations [Whole p0; Whole p1]))
                           (FixedArgList (map snd samplers))))) = 2.
Proof.
  cbv zeta. split; [reflexivity|]. split; [reflexivity|].
  destruct (X25_fixed_trains_over_runs 7
    [(mkLifSampler (View (mkPyNNPopulation 0 2 false) [0])
        (Some (mkPyNNPopulation 0 2 false)) 0,
      mkFixedSpikeTrain [100%Q] [1%Q] [5%Q] [0]);
     (mkLifSampler (View (mkPyNNPopulation 0 2 false) [1])
        (Some (mkPyNNPopulation 0 2 false)) 1,
      mkFixedSpikeTrain [100%Q] [1%Q] [5%Q] [0]);
     (mkLifSampler (View (mkPyNNPopulation 1 1 false) [0])
        (Some (mkPyNNPopulation 1 1 false)) 0,
      mkFixedSpikeTrain [100%Q] [1%Q] [5%Q] [0])]
    (mkLifSampler (View (mkPyNNPopulation 0 2 false) [0])
       (Some (mkPyNNPopulation 0 2 false)) 0)
    (mkLifSampler (View (mkPyNNPopulation 1 1 false) [0])
       (Some (mkPyNNPopulation 1 1 false)) 0)
    ltac:(simpl; tauto) ltac:(simpl; tauto) ltac:(simpl; congruence)
    ltac:(intros s [<- | [<- | [<- | []]]]; discriminate))
    as (pops & Hret & _ & Hexc & _).
  injection Hret as <-. exact Hexc.
Defined.
